(** * Markdown structural parser: sections, table of contents, heading ids

    A shallow embedding of [src/utils/markdownUtils.ts] (and of the
    id assignment of [src/components/MarkdownRenderer.tsx]).

    JavaScript strings are sequences of 16-bit code units; they are
    modelled as [list Z].  The regular expressions of the source carry no
    [u] flag, so they work on code units, and so does everything here. *)

From Stdlib Require Import ZArith String Ascii Decimal DecimalNat.
From stdpp Require Import gmap list.

Local Open Scope Z_scope.

(** ** Strings *)

Abbreviation jsstring := (list Z) (only parsing).

(** The code unit of an ASCII character, and the code units of an ASCII
    literal.  Only used to write the literals of the source legibly. *)
Definition cu (a : ascii) : Z := Z.of_N (N_of_ascii a).

Fixpoint js (s : string) : jsstring :=
  match s with
  | EmptyString => []
  | String a s' => cu a :: js s'
  end.

Definition LF : Z := 10.
Definition CR : Z := 13.

(** ** Character classes of ECMAScript regular expressions *)

(** [\s], which is also the set [String.prototype.trim] removes:
    WhiteSpace (TAB, VT, FF, SP, NBSP, ZWNBSP and category Zs) and
    LineTerminator (LF, CR, LS, PS). *)
Definition is_space (c : Z) : bool :=
  ((9 <=? c) && (c <=? 13)) || (c =? 32) || (c =? 0xA0) || (c =? 0x1680)
  || ((0x2000 <=? c) && (c <=? 0x200A))
  || (c =? 0x2028) || (c =? 0x2029) || (c =? 0x202F) || (c =? 0x205F)
  || (c =? 0x3000) || (c =? 0xFEFF).

(** LineTerminator: the code units [.] does not match. *)
Definition is_line_terminator (c : Z) : bool :=
  (c =? 10) || (c =? 13) || (c =? 0x2028) || (c =? 0x2029).

(** [.] *)
Definition dot (c : Z) : bool := negb (is_line_terminator c).

(** [\w] is [[A-Za-z0-9_]]. *)
Definition is_word (c : Z) : bool :=
  ((0x41 <=? c) && (c <=? 0x5A)) || ((0x61 <=? c) && (c <=? 0x7A))
  || ((0x30 <=? c) && (c <=? 0x39)) || (c =? 0x5F).

(** [[^x]] for a single character, and [[*_]]. *)
Definition is_not (a : ascii) (c : Z) : bool := negb (c =? cu a).
Definition is_marker (c : Z) : bool := (c =? cu "*") || (c =? cu "_").

(** The class [[\w\-U+0080-U+FFFF]] that [slugify] keeps. *)
Definition is_slug_char (c : Z) : bool :=
  is_word c || (c =? cu "-") || ((0x80 <=? c) && (c <=? 0xFFFF)).

(** ** String built-ins *)

Fixpoint trimStart (s : jsstring) : jsstring :=
  match s with
  | c :: s' => if is_space c then trimStart s' else s
  | [] => []
  end.

Fixpoint trimEnd (s : jsstring) : jsstring :=
  match s with
  | c :: s' =>
      match trimEnd s' with
      | [] => if is_space c then [] else [c]
      | t => c :: t
      end
  | [] => []
  end.

(** [String.prototype.trim] *)
Definition trim (s : jsstring) : jsstring := trimEnd (trimStart s).

(** [s.split(sep)] for a one-character separator: never empty. *)
Fixpoint split (sep : Z) (s : jsstring) : list jsstring :=
  match s with
  | [] => [[]]
  | c :: s' =>
      if c =? sep then [] :: split sep s'
      else match split sep s' with
           | l :: ls => (c :: l) :: ls
           | [] => [[c]]
           end
  end.

(** [a.join(sep)] *)
Fixpoint join (sep : jsstring) (ls : list jsstring) : jsstring :=
  match ls with
  | [] => []
  | [l] => l
  | l :: ls' => l ++ sep ++ join sep ls'
  end.

(** Decimal rendering of a non-negative integer, as template literals
    and string concatenation do. *)
Fixpoint uint_digits (u : Decimal.uint) : jsstring :=
  match u with
  | Decimal.Nil => []
  | Decimal.D0 u => 48 :: uint_digits u
  | Decimal.D1 u => 49 :: uint_digits u
  | Decimal.D2 u => 50 :: uint_digits u
  | Decimal.D3 u => 51 :: uint_digits u
  | Decimal.D4 u => 52 :: uint_digits u
  | Decimal.D5 u => 53 :: uint_digits u
  | Decimal.D6 u => 54 :: uint_digits u
  | Decimal.D7 u => 55 :: uint_digits u
  | Decimal.D8 u => 56 :: uint_digits u
  | Decimal.D9 u => 57 :: uint_digits u
  end.

Definition number_to_string (n : nat) : jsstring := uint_digits (Nat.to_uint n).

(** ** Regular expressions

    The fragment of ECMAScript patterns the source uses: anchors, literal
    characters, classes, greedy bounded or unbounded repetition of a class
    (every quantifier of the source applies to a single class) and
    capturing groups.  Matching is the backtracking search of the
    language definition, written with a continuation. *)

Inductive regex :=
| Bol                                               (* ^ *)
| Eol                                               (* $ *)
| Chr (a : ascii)                                   (* a literal character *)
| Cls (p : Z -> bool)                               (* one code unit of a class *)
| Rep (p : Z -> bool) (lo : nat) (hi : option nat)  (* p{lo,hi}, greedy; no hi: unbounded *)
| Seq (r1 r2 : regex)
| Grp (n : nat) (r : regex).                        (* capturing group number n *)

Declare Scope regex_scope.
Delimit Scope regex_scope with re.
Bind Scope regex_scope with regex.
Infix "⋅" := Seq (at level 60, right associativity) : regex_scope.
Abbreviation plus p := (Rep p 1 None).                  (* p+ *)
Abbreviation star p := (Rep p 0 None).                  (* p* *)
Abbreviation upto p lo hi := (Rep p lo (Some hi%nat)).     (* p{lo,hi} *)

(** Greedy repetition of a class: take one more code unit when allowed,
    and fall back to stopping here when the rest fails. *)
Fixpoint rep {R} (p : Z -> bool) (lo : nat) (hi : option nat) (i : nat) (s : jsstring)
    (k : nat -> jsstring -> option R) : option R :=
  let stop := match lo with O => k i s | S _ => None end in
  match s with
  | c :: s' =>
      if p c && negb (bool_decide (hi = Some O)) then
        match rep p (Nat.pred lo) (Nat.pred <$> hi) (S i) s' k with
        | Some r => Some r
        | None => stop
        end
      else stop
  | [] => stop
  end.

(** [rmatch r i s cs k]: match [r] against [s], which starts at index [i]
    of the input; [cs] are the captures so far; [k] is the rest of the
    pattern. *)
Fixpoint rmatch {R} (r : regex) (i : nat) (s : jsstring) (cs : gmap nat jsstring)
    (k : nat -> jsstring -> gmap nat jsstring -> option R) : option R :=
  match r with
  | Bol => match i with O => k i s cs | S _ => None end
  | Eol => match s with [] => k i s cs | _ :: _ => None end
  | Chr a =>
      match s with
      | c :: s' => if c =? cu a then k (S i) s' cs else None
      | [] => None
      end
  | Cls p =>
      match s with
      | c :: s' => if p c then k (S i) s' cs else None
      | [] => None
      end
  | Rep p lo hi => rep p lo hi i s (fun i' s' => k i' s' cs)
  | Seq r1 r2 => rmatch r1 i s cs (fun i' s' cs' => rmatch r2 i' s' cs' k)
  | Grp n r => rmatch r i s cs (fun i' s' cs' => k i' s' (<[n := take (i' - i) s]> cs'))
  end.

(** A match at exactly index [i]: its length and its captures. *)
Definition match_at (r : regex) (i : nat) (s : jsstring) : option (nat * gmap nat jsstring) :=
  rmatch r i s ∅ (fun i' _ cs => Some ((i' - i)%nat, cs)).

(** [RegExp.prototype.exec] without the [g] flag: the leftmost match, as
    (index, length, captures). *)
Fixpoint exec_from (r : regex) (i : nat) (s : jsstring) : option (nat * nat * gmap nat jsstring) :=
  match match_at r i s with
  | Some (len, cs) => Some (i, len, cs)
  | None =>
      match s with
      | [] => None
      | _ :: s' => exec_from r (S i) s'
      end
  end.

Definition exec (r : regex) (s : jsstring) := exec_from r 0 s.

(** [r.test(s)] *)
Definition test (r : regex) (s : jsstring) : bool :=
  match exec r s with Some _ => true | None => false end.

(** [m[n]] of a match result *)
Definition group (cs : gmap nat jsstring) (n : nat) : jsstring := default [] (cs !! n).

(** Replacement strings: literal text and [$n]. *)
Inductive repl_item := Lit (s : jsstring) | Ref (n : nat).

Definition expand (t : list repl_item) (cs : gmap nat jsstring) : jsstring :=
  flat_map (fun it => match it with Lit s => s | Ref n => group cs n end) t.

(** [s.replace(r, t)] for [r] without the [g] flag: the first match only. *)
Definition replace (r : regex) (t : list repl_item) (s : jsstring) : jsstring :=
  match exec r s with
  | Some (i, len, cs) => take i s ++ expand t cs ++ drop (i + len) s
  | None => s
  end.

(** [s.replace(r, t)] for [r] with the [g] flag: every match, left to
    right, the search resuming where the previous match ended (one code
    unit further after an empty match).  [skip] counts the code units of
    the current match still to be dropped. *)
Fixpoint replace_all_from (r : regex) (t : list repl_item) (skip i : nat) (s : jsstring) : jsstring :=
  match skip with
  | S n =>
      match s with
      | [] => []
      | _ :: s' => replace_all_from r t n (S i) s'
      end
  | O =>
      match match_at r i s with
      | Some (len, cs) =>
          expand t cs ++
          match s with
          | [] => []
          | c :: s' =>
              match len with
              | O => c :: replace_all_from r t 0 (S i) s'
              | S n => replace_all_from r t n (S i) s'
              end
          end
      | None =>
          match s with
          | [] => []
          | c :: s' => c :: replace_all_from r t 0 (S i) s'
          end
      end
  end.

Definition replace_all (r : regex) (t : list repl_item) (s : jsstring) : jsstring :=
  replace_all_from r t 0 0 s.

(** ** The data model of [src/types.ts] *)

Module DocSection.
Record t := mk { id : jsstring; title : jsstring; content : jsstring; raw : jsstring }.
End DocSection.

Module TocItem.
Record t := mk { id : jsstring; title : jsstring; level : nat }.
End TocItem.

(** ** [cleanMarkdown] *)

Definition is_char (a : ascii) (c : Z) : bool := c =? cu a.
Definition not_marker (c : Z) : bool := negb (is_marker c).

(** [/\[([^\]]+)\]\([^)]+\)/] *)
Definition link_re : regex :=
  (Chr "[" ⋅ Grp 1 (plus (is_not "]")) ⋅ Chr "]" ⋅ Chr "(" ⋅ plus (is_not ")") ⋅ Chr ")")%re.

(** [/!\[([^\]]* )\]\([^)]+\)/], written here with a blank after the star *)
Definition image_re : regex :=
  (Chr "!" ⋅ Chr "[" ⋅ Grp 1 (star (is_not "]")) ⋅ Chr "]" ⋅ Chr "(" ⋅ plus (is_not ")") ⋅ Chr ")")%re.

(** [/`([^`]+)`/] *)
Definition code_re : regex :=
  (Chr "`" ⋅ Grp 1 (plus (is_not "`")) ⋅ Chr "`")%re.

(** [/[*_]{1,3}([^*_]+)[*_]{1,3}/] *)
Definition emphasis_re : regex :=
  (upto is_marker 1 3 ⋅ Grp 1 (plus not_marker) ⋅ upto is_marker 1 3)%re.

Definition cleanMarkdown (text : jsstring) : jsstring :=
  replace_all emphasis_re [Ref 1]
    (replace_all code_re [Ref 1]
      (replace_all image_re [Ref 1]
        (replace_all link_re [Ref 1] text))).

(** ** [parseMarkdownByH1] *)

(** [/^#\s+(.+)/], [/^#\s+/] and [/^#\s*/] *)
Definition h1_re : regex := (Bol ⋅ Chr "#" ⋅ plus is_space ⋅ Grp 1 (plus dot))%re.
Definition h1_prefix_re : regex := (Bol ⋅ Chr "#" ⋅ plus is_space)%re.
Definition hash_prefix_re : regex := (Bol ⋅ Chr "#" ⋅ star is_space)%re.

(** The local variables of [parseMarkdownByH1] that its loop and
    [pushSection] update. *)
Record splitter := Splitter {
  sections : list DocSection.t;
  currentTitle : jsstring;
  currentContentLines : list jsstring;
  sectionIndex : nat
}.

Definition Introduction : jsstring := js "Introduction".

Definition pushSection (st : splitter) : splitter :=
  if bool_decide (currentContentLines st ≠ []) || negb (bool_decide (currentTitle st = Introduction))
  then
    let content := trim (join [LF] (currentContentLines st)) in
    let raw := js "# " ++ currentTitle st ++ [LF; LF] ++ content in
    {| sections := sections st ++
         [ {| DocSection.id := js "section-" ++ number_to_string (sectionIndex st);
              DocSection.title := trim (replace hash_prefix_re [] (currentTitle st));
              DocSection.content := content;
              DocSection.raw := raw |} ];
       currentTitle := currentTitle st;
       currentContentLines := currentContentLines st;
       sectionIndex := S (sectionIndex st) |}
  else st.

(** One iteration of the [for] loop. *)
Definition split_line (st : splitter) (line : jsstring) : splitter :=
  if test h1_re line then
    let st' :=
      if bool_decide (sections st ≠ []) || bool_decide (currentContentLines st ≠ [])
      then pushSection st else st in
    {| sections := sections st';
       currentTitle := trim (replace h1_prefix_re [] line);
       currentContentLines := [];
       sectionIndex := sectionIndex st' |}
  else
    {| sections := sections st;
       currentTitle := currentTitle st;
       currentContentLines := currentContentLines st ++ [line];
       sectionIndex := sectionIndex st |}.

(** The sections after the loop and the final [pushSection], before the
    leading one is looked at. *)
Definition collect (text : jsstring) : list DocSection.t :=
  sections (pushSection (foldl split_line (Splitter [] Introduction [] 0) (split LF text))).

(** [sections.length > 1 && sections[0].title === "Introduction" &&
    sections[0].content === ""] *)
Definition drops_first (ss : list DocSection.t) : bool :=
  match ss with
  | s0 :: _ :: _ =>
      bool_decide (DocSection.title s0 = Introduction) && bool_decide (DocSection.content s0 = [])
  | _ => false
  end.

Definition parseMarkdownByH1 (text : jsstring) : list DocSection.t :=
  let ss := collect text in
  if drops_first ss then tail ss else ss.

(** ** [slugify], [parseTOC] and [getUniqueId]

    [String.prototype.toLowerCase] maps each code point of the string by
    the locale-insensitive lowercase mapping of the Unicode Character
    Database (UnicodeData.txt and SpecialCasing.txt).  That table is not
    part of the repository: it is the parameter [lowercase_mapping], given
    the code points before the mapped one (nearest first), the code point
    and the code points after it (the Final_Sigma rule looks at both). *)

Definition is_high_surrogate (c : Z) : bool := (0xD800 <=? c) && (c <=? 0xDBFF).
Definition is_low_surrogate (c : Z) : bool := (0xDC00 <=? c) && (c <=? 0xDFFF).

(** The code point of a surrogate pair. *)
Definition pair_code_point (h l : Z) : Z := 0x10000 + (h - 0xD800) * 0x400 + (l - 0xDC00).

(** StringToCodePoints: a high surrogate followed by a low one is one
    code point, every other code unit is its own code point. *)
Fixpoint StringToCodePoints (s : jsstring) : list Z :=
  match s with
  | [] => []
  | h :: t =>
      match t with
      | l :: s' =>
          if is_high_surrogate h && is_low_surrogate l
          then pair_code_point h l :: StringToCodePoints s'
          else h :: StringToCodePoints t
      | [] => [h]
      end
  end.

(** The UTF-16 encoding of one code point. *)
Definition CodePointToString (cp : Z) : jsstring :=
  if cp <? 0x10000 then [cp]
  else [0xD800 + (cp - 0x10000) / 0x400; 0xDC00 + (cp - 0x10000) mod 0x400].

(** The complement of the class that [slugify] keeps. *)
Definition not_slug_char (c : Z) : bool := negb (is_slug_char c).

(** [/^(#{1,3})\s+(.+)$/] *)
Definition headerRegex : regex :=
  (Bol ⋅ Grp 1 (upto (is_char "#") 1 3) ⋅ plus is_space ⋅ Grp 2 (plus dot) ⋅ Eol)%re.

Section CaseTable.
Variable lowercase_mapping : list Z -> Z -> list Z -> list Z.

Fixpoint toLowercase (before cps : list Z) : list Z :=
  match cps with
  | [] => []
  | c :: after => lowercase_mapping before c after ++ toLowercase (c :: before) after
  end.

Definition toLowerCase (s : jsstring) : jsstring :=
  flat_map CodePointToString (toLowercase [] (StringToCodePoints s)).

Definition slugify (text : jsstring) : jsstring :=
  replace_all (plus not_slug_char) []
    (replace_all (plus is_space) [Lit (js "-")]
      (trim (toLowerCase text))).

(** [getUniqueId] of the renderer, with its [slugCounts] map passed in
    and out. *)
Definition getUniqueId (text : jsstring) (slugCounts : gmap (list Z) nat)
    : jsstring * gmap (list Z) nat :=
  let rawId := slugify text in
  match slugCounts !! rawId with
  | Some n =>
      let count := S n in
      (rawId ++ js "-" ++ number_to_string count, <[rawId := count]> slugCounts)
  | None => (rawId, <[rawId := O]> slugCounts)
  end.

(** The body of [lines.forEach] in [parseTOC], on the pair of [toc] and
    [slugCounts]. *)
Definition toc_line (acc : list TocItem.t * gmap (list Z) nat) (line : jsstring)
    : list TocItem.t * gmap (list Z) nat :=
  let '(toc, slugCounts) := acc in
  match exec headerRegex line with
  | Some (_, _, m) =>
      let level := length (group m 1) in
      let rawTitle := trim (group m 2) in
      let cleanTitle := cleanMarkdown rawTitle in
      let rawId := slugify cleanTitle in
      let '(id, slugCounts') :=
        match slugCounts !! rawId with
        | Some n =>
            let count := S n in
            (rawId ++ js "-" ++ number_to_string count, <[rawId := count]> slugCounts)
        | None => (rawId, <[rawId := O]> slugCounts)
        end in
      (toc ++ [ {| TocItem.id := id; TocItem.title := rawTitle; TocItem.level := level |} ],
       slugCounts')
  | None => acc
  end.

Definition parseTOC (text : jsstring) : list TocItem.t :=
  fst (foldl toc_line ([], ∅) (split LF text)).
End CaseTable.

(** The rows of the case table for Basic Latin, Latin-1 Supplement,
    U+0130, the Kelvin sign and Deseret; the other code points are left
    as they are. *)
Definition basic_lowercase (before : list Z) (c : Z) (after : list Z) : list Z :=
  if (0x41 <=? c) && (c <=? 0x5A) then [c + 32]
  else if (0xC0 <=? c) && (c <=? 0xDE) && negb (c =? 0xD7) then [c + 32]
  else if c =? 0x130 then [0x69; 0x307]
  else if c =? 0x212A then [0x6B]
  else if (0x10400 <=? c) && (c <=? 0x10427) then [c + 40]
  else [c].

(** A document given by its lines. *)
Definition document (lines : list jsstring) : jsstring := join [LF] lines.

(** ** Specification-level notions used by the statements *)

(** What it means for [r] to match a prefix of [s] (at index [i], with
    captures [cs]), leaving [s'] (at index [i'], with captures [cs']):
    the declarative reading of a pattern, without search order. *)
Definition within (hi : option nat) (n : nat) : Prop :=
  match hi with Some h => (n ≤ h)%nat | None => True end.

Fixpoint matches (r : regex) (i : nat) (s : jsstring) (cs : gmap nat jsstring)
    (i' : nat) (s' : jsstring) (cs' : gmap nat jsstring) : Prop :=
  match r with
  | Bol => i = O ∧ i' = i ∧ s' = s ∧ cs' = cs
  | Eol => s = [] ∧ i' = i ∧ s' = s ∧ cs' = cs
  | Chr a => s = cu a :: s' ∧ i' = S i ∧ cs' = cs
  | Cls p => (∃ c, s = c :: s' ∧ p c = true) ∧ i' = S i ∧ cs' = cs
  | Rep p lo hi =>
      (∃ l, s = l ++ s' ∧ Forall (λ c, p c = true) l ∧ (lo ≤ length l)%nat
            ∧ within hi (length l) ∧ i' = (i + length l)%nat) ∧ cs' = cs
  | Seq r1 r2 =>
      ∃ i1 s1 cs1, matches r1 i s cs i1 s1 cs1 ∧ matches r2 i1 s1 cs1 i' s' cs'
  | Grp n r =>
      ∃ cs1, matches r i s cs i' s' cs1 ∧ cs' = <[n := take (i' - i) s]> cs1
  end.

(** The length of the longest prefix of [s] in the class [p]. *)
Fixpoint run (p : Z → bool) (s : jsstring) : nat :=
  match s with
  | c :: s' => if p c then S (run p s') else O
  | [] => O
  end.

(** Every maximal run of [p] in [s] becomes [t]; [inrun] tells that the
    previous code unit was in [p]. *)
Fixpoint collapse (p : Z → bool) (t : jsstring) (inrun : bool) (s : jsstring) : jsstring :=
  match s with
  | c :: s' =>
      if p c then (if inrun then [] else t) ++ collapse p t true s'
      else c :: collapse p t false s'
  | [] => []
  end.

(** [String.prototype.isWellFormed]: no unpaired surrogate.  (A code
    unit is a 16-bit value.) *)
Fixpoint isWellFormed (s : jsstring) : bool :=
  match s with
  | [] => true
  | h :: t =>
      if is_high_surrogate h then
        match t with
        | l :: s' => is_low_surrogate l && isWellFormed s'
        | [] => false
        end
      else (0 <=? h) && (h <? 0x10000) && negb (is_low_surrogate h) && isWellFormed t
  end.

(** A Unicode scalar value. *)
Definition is_scalar (c : Z) : bool :=
  (0 <=? c) && (c <? 0x110000) && negb ((0xD800 <=? c) && (c <=? 0xDFFF)).

(** What the proofs use of the case table: the hyphen has no lowercase
    mapping, the mapping of a scalar value consists of scalar values, and
    these have no lowercase mapping themselves, whatever the context. *)
Record case_table_laws (lowercase_mapping : list Z → Z → list Z → list Z) : Prop := {
  lower_hyphen : ∀ b a, lowercase_mapping b (cu "-") a = [cu "-"];
  lower_scalar : ∀ b c a, is_scalar c = true →
    Forall (λ c', is_scalar c' = true) (lowercase_mapping b c a);
  lower_stable : ∀ b c a, is_scalar c = true →
    Forall (λ c', ∀ b' a', lowercase_mapping b' c' a' = [c']) (lowercase_mapping b c a)
}.

(** The id the disambiguation gives a raw slug seen [k] times before. *)
Definition nth_id (rawId : jsstring) (k : nat) : jsstring :=
  match k with
  | O => rawId
  | S _ => rawId ++ js "-" ++ number_to_string k
  end.

Definition occurrences (rawId : jsstring) (seen : list jsstring) : nat :=
  length (filter (λ r, r = rawId) seen).

(** The raw slug of a line, when [parseTOC] takes it for a heading. *)
Definition rawIdOf (lowercase_mapping : list Z → Z → list Z → list Z)
    (line : jsstring) : option jsstring :=
  match exec headerRegex line with
  | Some (_, _, m) => Some (slugify lowercase_mapping (cleanMarkdown (trim (group m 2))))
  | None => None
  end.

Definition section_name (n : nat) : jsstring := js "section-" ++ number_to_string n.

(** A string made of code points that have no lowercase mapping, in any
    context: a BMP code unit that is no surrogate, or a surrogate pair. *)
Inductive lowered (lowercase_mapping : list Z → Z → list Z → list Z) : jsstring → Prop :=
| lowered_nil : lowered lowercase_mapping []
| lowered_unit c s :
    0 ≤ c < 0x10000 → is_high_surrogate c = false → is_low_surrogate c = false →
    (∀ b a, lowercase_mapping b c a = [c]) →
    lowered lowercase_mapping s → lowered lowercase_mapping (c :: s)
| lowered_pair h l s :
    is_high_surrogate h = true → is_low_surrogate l = true →
    (∀ b a, lowercase_mapping b (pair_code_point h l) a = [pair_code_point h l]) →
    lowered lowercase_mapping s → lowered lowercase_mapping (h :: l :: s).

(** Goals about the character classes: unfold them, turn the boolean
    hypotheses into inequalities and decide the comparisons of the goal. *)
Ltac bool_hyps :=
  repeat match goal with
         | H : _ && _ = true |- _ => apply andb_true_iff in H as [??]
         | H : _ || _ = false |- _ => apply orb_false_iff in H as [??]
         | H : negb _ = true |- _ => apply negb_true_iff in H
         | H : negb _ = false |- _ => apply negb_false_iff in H
         | H : (_ <=? _) = true |- _ => apply Z.leb_le in H
         | H : (_ <=? _) = false |- _ => apply Z.leb_gt in H
         | H : (_ <? _) = true |- _ => apply Z.ltb_lt in H
         | H : (_ <? _) = false |- _ => apply Z.ltb_ge in H
         | H : (_ =? _) = true |- _ => apply Z.eqb_eq in H
         | H : (_ =? _) = false |- _ => apply Z.eqb_neq in H
         | H : _ && _ = false |- _ => apply andb_false_iff in H as [?|?]
         | H : _ || _ = true |- _ => apply orb_true_iff in H as [?|?]
         end.

Ltac decide_cmp :=
  repeat match goal with
         | |- context [(?a <=? ?b)] =>
             first [rewrite (proj2 (Z.leb_le a b)) by lia | rewrite (proj2 (Z.leb_gt a b)) by lia]
         | |- context [(?a <? ?b)] =>
             first [rewrite (proj2 (Z.ltb_lt a b)) by lia | rewrite (proj2 (Z.ltb_ge a b)) by lia]
         | |- context [(?a =? ?b)] =>
             first [rewrite (proj2 (Z.eqb_eq a b)) by lia | rewrite (proj2 (Z.eqb_neq a b)) by lia]
         end.

Ltac case_cmp :=
  repeat first
    [ progress decide_cmp
    | match goal with
      | |- context [(?a <=? ?b)] => destruct (Z.leb_spec a b); try lia
      | |- context [(?a <? ?b)] => destruct (Z.ltb_spec a b); try lia
      | |- context [(?a =? ?b)] => destruct (Z.eqb_spec a b); try lia
      end ];
  simpl.

Ltac classes :=
  unfold not_slug_char, is_slug_char, is_word, is_space, is_line_terminator, dot, not_marker,
    is_marker, is_not, is_char, is_high_surrogate, is_low_surrogate, is_scalar,
    pair_code_point in *;
  change (cu "-") with 45 in *; change (cu "#") with 35 in *;
  change (cu "*") with 42 in *; change (cu "_") with 95 in *;
  bool_hyps; decide_cmp; simpl; try done; try lia.

(** The level and the title of a line, when [parseTOC] takes it for a
    heading. *)
Definition headingOf (line : jsstring) : option (nat * jsstring) :=
  match exec headerRegex line with
  | Some (_, _, m) => Some (length (group m 1), trim (group m 2))
  | None => None
  end.

(** [slugCounts] after the raw slugs [seen]: a slug seen [k + 1] times is
    mapped to [k]. *)
Definition counts_of (seen : list jsstring) (slugCounts : gmap (list Z) nat) : Prop :=
  ∀ r, slugCounts !! r = match occurrences r seen with O => None | S k => Some k end.

(** A line made of [k] characters [#], whitespace, and text (characters
    that [.] matches). *)
Definition heading_line (k : nat) (line : jsstring) : Prop :=
  ∃ ws text,
    line = replicate k (cu "#") ++ ws ++ text ∧
    ws ≠ [] ∧ Forall (λ c, is_space c = true) ws ∧
    text ≠ [] ∧ Forall (λ c, dot c = true) text.

(** The state of the splitter is consistent: the counter is the number
    of sections pushed, which are numbered from 0, and the current title
    is a trimmed string. *)
Definition splitter_ok (st : splitter) : Prop :=
  sectionIndex st = length (sections st) ∧
  DocSection.id <$> sections st = section_name <$> seq 0 (length (sections st)) ∧
  trim (currentTitle st) = currentTitle st.

(** How the fields of a section are related: [raw] is rebuilt from the
    heading text [h], of which [title] drops a leading hash. *)
Definition section_ok (s : DocSection.t) : Prop :=
  ∃ h, DocSection.raw s = js "# " ++ h ++ [LF; LF] ++ DocSection.content s ∧
       DocSection.title s = trim (replace hash_prefix_re [] h) ∧
       (head h ≠ Some (cu "#") → DocSection.title s = h).

(** A line the splitter takes for a level-1 heading: a hash, whitespace,
    text, and anything after it. *)
Definition h1_line (line : jsstring) : Prop :=
  ∃ ws text rest,
    line = cu "#" :: ws ++ text ++ rest ∧
    ws ≠ [] ∧ Forall (λ c, is_space c = true) ws ∧
    text ≠ [] ∧ Forall (λ c, dot c = true) text.

(** The rows of the case table for Basic Latin, as a law: a table that
    has them lowercases ASCII text as every JavaScript engine does. *)
Definition ascii_lower (c : Z) : Z := if (0x41 <=? c) && (c <=? 0x5A) then c + 32 else c.

Definition ascii_rows (lowercase_mapping : list Z → Z → list Z → list Z) : Prop :=
  ∀ b c a, 0 ≤ c < 128 → lowercase_mapping b c a = [ascii_lower c].

Definition is_ascii (s : jsstring) : bool := forallb (λ c, (0 <=? c) && (c <? 128)) s.

(** The heading titles of a document are ASCII once cleaned. *)
Definition ascii_headings (text : jsstring) : bool :=
  forallb (λ line, match headingOf line with
                   | Some (_, title) => is_ascii (cleanMarkdown title)
                   | None => true
                   end) (split LF text).

(** A character of an alternative text that no pattern of
    [cleanMarkdown] looks for: no closing bracket, backquote, star or
    underscore. *)
Definition is_plain (c : Z) : bool :=
  negb ((c =? cu "]") || (c =? cu "`") || is_marker c).

(** ** [escapeHtml] of [src/utils/exportUtils.ts]

    The five patterns are single characters; the character of code 34 is
    the double quote. *)
Definition escapeHtml (unsafe : jsstring) : jsstring :=
  replace_all (Chr "'") [Lit (js "&#039;")]
    (replace_all (Chr "034") [Lit (js "&quot;")]
      (replace_all (Chr ">") [Lit (js "&gt;")]
        (replace_all (Chr "<") [Lit (js "&lt;")]
          (replace_all (Chr "&") [Lit (js "&amp;")] unsafe)))).

(** The entity of one code unit: what [escapeHtml] amounts to. *)
Definition escape_char (c : Z) : jsstring :=
  if c =? cu "&" then js "&amp;"
  else if c =? cu "<" then js "&lt;"
  else if c =? cu ">" then js "&gt;"
  else if c =? cu "034" then js "&quot;"
  else if c =? cu "'" then js "&#039;"
  else [c].

(** The characters with a meaning in HTML text and attribute values. *)
Definition is_html_special (c : Z) : bool :=
  (c =? cu "<") || (c =? cu ">") || (c =? cu "034") || (c =? cu "'").

(** ASCII classes used to state what [slugify] does to ASCII text: the
    characters it keeps, whitespace, and the punctuation it removes. *)
Definition is_slug_ascii (c : Z) : bool := is_word c || (c =? cu "-").
Definition is_ascii_space (c : Z) : bool := is_space c && (c <? 128).
Definition is_ascii_punct (c : Z) : bool :=
  (0 <=? c) && (c <? 128) && negb (is_slug_ascii c) && negb (is_space c).
Definition is_ascii_upper (c : Z) : bool := (0x41 <=? c) && (c <=? 0x5A).

Ltac ascii_classes :=
  unfold is_ascii_punct, is_ascii_space, is_slug_ascii, is_ascii_upper, ascii_lower in *;
  classes.

(** Successive calls of the renderer's [getUniqueId], one for each
    heading text in document order, on the [slugCounts] they share. *)
Fixpoint getUniqueIds (lowercase_mapping : list Z → Z → list Z → list Z)
    (texts : list jsstring) (slugCounts : gmap (list Z) nat) : list jsstring :=
  match texts with
  | [] => []
  | text :: texts' =>
      let '(id, slugCounts') := getUniqueId lowercase_mapping text slugCounts in
      id :: getUniqueIds lowercase_mapping texts' slugCounts'
  end.

(** ** [handleFileUpload]: the name shown for the file *)

(** [/\.[^/.]+$/] *)
Definition is_ext_char (c : Z) : bool := negb ((c =? cu "/") || (c =? cu ".")).
Definition extension_re : regex := (Chr "." ⋅ plus is_ext_char ⋅ Eol)%re.

(** [file.name.replace(/\.[^/.]+$/, [])], with the empty string as
    replacement *)
Definition cleanFileName (name : jsstring) : jsstring := replace extension_re [] name.

(** ** The scroll spy of the continuous view: [handleScroll] of the App

    The measures of the page are numbers of the language; [handleScroll]
    subtracts them, takes an absolute value and compares.  These
    operations are the fields of [JsNumber], so that what is proved of
    [handleScroll] holds whatever the arithmetic is. *)
Class JsNumber := {
  number : Type;
  num_of_Z : Z → number;
  num_sub : number → number → number;
  num_abs : number → number;
  num_lt : number → number → bool;
  num_le : number → number → bool
}.

(** The integers, with exact arithmetic. *)
#[export] Instance Z_JsNumber : JsNumber := {|
  number := Z;
  num_of_Z := λ z, z;
  num_sub := Z.sub;
  num_abs := Z.abs;
  num_lt := Z.ltb;
  num_le := Z.leb
|}.

Inductive ViewMode := sectioned | continuous.

Module ParsedDoc.
Record t := mk {
  fileName : jsstring;
  sections : list DocSection.t;
  fullContent : jsstring;
  toc : list TocItem.t
}.
End ParsedDoc.

(** The three measures read from the scrolled element. *)
Record Container `{JsNumber} := {
  scrollTop : number;
  scrollHeight : number;
  clientHeight : number
}.

(** A string or [null] in a condition: [null] and the empty string are
    false. *)
Definition truthy (s : option jsstring) : bool :=
  match s with
  | Some (_ :: _) => true
  | _ => false
  end.

Section ScrollSpy.
Context `{JsNumber}.

(** [document.getElementById(id)], then [getBoundingClientRect().top];
    [None] when the page has no element with that id. *)
Variable elementTop : jsstring → option number.

Definition triggerTop : number := num_of_Z 150.

(** The loop over [doc.toc], from the value of [currentId]: an entry
    without element is passed over, the first element below the trigger
    line ends the loop. *)
Fixpoint visible (toc : list TocItem.t) (currentId : option jsstring) : option jsstring :=
  match toc with
  | [] => currentId
  | item :: toc' =>
      match elementTop (TocItem.id item) with
      | None => visible toc' currentId
      | Some top =>
          if num_le top triggerTop then visible toc' (Some (TocItem.id item))
          else currentId
      end
  end.

(** [handleScroll], as the value of [activeSectionId] after the call;
    [container] is [mainContentRef.current].  An array is never false in
    a condition, so [!doc.toc] is not a case. *)
Definition handleScroll (viewMode : ViewMode) (doc : option ParsedDoc.t)
    (container : option Container) (activeSectionId : option jsstring) : option jsstring :=
  match viewMode, doc, container with
  | continuous, Some doc, Some container =>
      let toc := ParsedDoc.toc doc in
      let isBottom :=
        num_lt (num_abs (num_sub (num_sub (scrollHeight container) (clientHeight container))
                                 (scrollTop container)))
               (num_of_Z 50) in
      if isBottom && (0 <? length toc)%nat then
        match last toc with
        | Some lastItem =>
            let lastId := TocItem.id lastItem in
            if bool_decide (activeSectionId ≠ Some lastId) then Some lastId else activeSectionId
        | None => activeSectionId   (* not reached: the array is not empty *)
        end
      else
        let currentId := visible toc None in
        if truthy currentId && bool_decide (currentId ≠ activeSectionId) then currentId
        else if negb (truthy currentId) && (0 <? length toc)%nat
                && num_lt (scrollTop container) triggerTop then
          match head toc with
          | Some firstItem =>
              let firstId := TocItem.id firstItem in
              if bool_decide (activeSectionId ≠ Some firstId) then Some firstId
              else activeSectionId
          | None => activeSectionId   (* not reached: the array is not empty *)
          end
        else activeSectionId
  | _, _, _ => activeSectionId
  end.
End ScrollSpy.

(** ** Documents made of blocks

    A block is a level-1 heading line and the lines after it, up to the
    next heading line.  [block_sections i blocks] are the sections
    expected for blocks given by the text of the heading and the lines of
    the body, numbered from [i]. *)
Definition block_lines (blocks : list (jsstring * list jsstring)) : list jsstring :=
  flat_map (λ b, b.1 :: b.2) blocks.

Definition heading_text (line : jsstring) : jsstring := trim (replace h1_prefix_re [] line).

Definition block_section (i : nat) (h : jsstring) (body : list jsstring) : DocSection.t :=
  {| DocSection.id := section_name i;
     DocSection.title := trim (replace hash_prefix_re [] h);
     DocSection.content := trim (join [LF] body);
     DocSection.raw := js "# " ++ h ++ [LF; LF] ++ trim (join [LF] body) |}.

Fixpoint block_sections (i : nat) (blocks : list (jsstring * list jsstring))
    : list DocSection.t :=
  match blocks with
  | [] => []
  | b :: blocks' => block_section i b.1 b.2 :: block_sections (S i) blocks'
  end.

(** A block the splitter reads as one section with content: a heading
    line, lines that are no heading lines, and a body that is not blank. *)
Definition block_ok (b : jsstring * list jsstring) : Prop :=
  h1_line (fst b) ∧ (LF ∉ fst b) ∧
  Forall (λ line, ¬ h1_line line ∧ LF ∉ line) (snd b) ∧
  trim (join [LF] (snd b)) ≠ [].

(** ** The header ids of the exported page

    The script of the exported page ([COMMON_SCRIPTS] of
    [src/utils/exportUtils.ts]) has its own copy of [slugify], with the
    same two patterns, and numbers the headers with an object literal,
    [slugCounts = {}], where the renderer and [parseTOC] use a [Map].
    Reading a property of such an object also finds the properties of
    [Object.prototype]. *)
Module Header.
Record t := mk { id : jsstring; textContent : jsstring }.
End Header.

(** What the script stores in [slugCounts]: a number, or NaN. *)
Inductive count := Num (n : nat) | NaN.

(** [slugCounts[key]]: an own property, a property of [Object.prototype],
    or [undefined]. *)
Inductive property := Own (v : count) | Inherited | Undefined.

(** The property names of [Object.prototype]: eleven methods and the
    accessor [__proto__]. *)
Definition Object_prototype_keys : list jsstring :=
  [ js "constructor"; js "hasOwnProperty"; js "isPrototypeOf"; js "propertyIsEnumerable";
    js "toLocaleString"; js "toString"; js "valueOf"; js "__proto__";
    js "__defineGetter__"; js "__defineSetter__"; js "__lookupGetter__";
    js "__lookupSetter__" ].

Definition get_property (slugCounts : gmap (list Z) count) (key : jsstring) : property :=
  match slugCounts !! key with
  | Some v => Own v
  | None => if bool_decide (key ∈ Object_prototype_keys) then Inherited else Undefined
  end.

Section ExportedPage.
Variable lowercase_mapping : list Z → Z → list Z → list Z.

(** The callback of [headers.forEach]: the id of the header after the
    call, and [slugCounts].  A method of [Object.prototype] is not
    [undefined]; incremented it is NaN, which the assignment stores in the
    object.  The value of [__proto__] is [Object.prototype] itself, which
    its setter keeps when it is given a number, and which is
    [[object Object]] as a string. *)
Definition setHeaderId (header : Header.t) (slugCounts : gmap (list Z) count)
    : jsstring * gmap (list Z) count :=
  if bool_decide (Header.id header = []) then
    let rawId := slugify lowercase_mapping (Header.textContent header) in
    match get_property slugCounts rawId with
    | Own (Num n) =>
        (rawId ++ js "-" ++ number_to_string (S n), <[rawId := Num (S n)]> slugCounts)
    | Own NaN => (rawId ++ js "-" ++ js "NaN", <[rawId := NaN]> slugCounts)
    | Inherited =>
        if bool_decide (rawId = js "__proto__")
        then (rawId ++ js "-" ++ js "[object Object]", slugCounts)
        else (rawId ++ js "-" ++ js "NaN", <[rawId := NaN]> slugCounts)
    | Undefined => (rawId, <[rawId := Num 0]> slugCounts)
    end
  else (Header.id header, slugCounts).

(** The ids of the headers after [headers.forEach]. *)
Fixpoint setHeaderIds (headers : list Header.t) (slugCounts : gmap (list Z) count)
    : list jsstring :=
  match headers with
  | [] => []
  | header :: headers' =>
      let '(id, slugCounts') := setHeaderId header slugCounts in
      id :: setHeaderIds headers' slugCounts'
  end.
End ExportedPage.

(** [slugCounts] of the exported page after the raw slugs [seen], none of
    them a property name of [Object.prototype]. *)
Definition counts_obj (seen : list jsstring) (slugCounts : gmap (list Z) count) : Prop :=
  ∀ r, slugCounts !! r = match occurrences r seen with O => None | S k => Some (Num k) end.

(** The property [constructor] of [slugCounts] is inherited or NaN. *)
Definition constructor_ok (slugCounts : gmap (list Z) count) : Prop :=
  slugCounts !! js "constructor" = None ∨ slugCounts !! js "constructor" = Some NaN.

(** ** Heading texts made of inline constructs

    The four constructs that [cleanMarkdown] knows, as they are written
    ([inline_src]) and the text they stand for ([inline_text]);
    [inline_links] and [inline_spans] are what is left of the source after
    the step of the links and after the step of the code spans. *)
Inductive inline :=
| Plain (text : jsstring)
| Link (text url : jsstring)
| Code (text : jsstring)
| Emph (opening text closing : jsstring).

Definition inline_src (it : inline) : jsstring :=
  match it with
  | Plain text => text
  | Link text url => js "[" ++ text ++ js "](" ++ url ++ js ")"
  | Code text => js "`" ++ text ++ js "`"
  | Emph opening text closing => opening ++ text ++ closing
  end.

Definition inline_text (it : inline) : jsstring :=
  match it with
  | Plain text | Link text _ | Code text | Emph _ text _ => text
  end.

Definition inline_links (it : inline) : jsstring :=
  match it with
  | Link text _ => text
  | _ => inline_src it
  end.

Definition inline_spans (it : inline) : jsstring :=
  match it with
  | Emph opening text closing => opening ++ text ++ closing
  | _ => inline_text it
  end.

(** Text without bracket, backquote, star and underscore. *)
Definition is_text (c : Z) : bool := is_plain c && negb (c =? cu "[").

Definition inline_ok (it : inline) : Prop :=
  inline_text it ≠ [] ∧ Forall (λ c, is_text c = true) (inline_text it) ∧
  match it with
  | Link _ url => url ≠ [] ∧ Forall (λ c, is_not ")" c = true) url
  | Emph opening _ closing =>
      Forall (λ c, is_marker c = true) opening ∧ (1 ≤ length opening ≤ 3)%nat ∧
      Forall (λ c, is_marker c = true) closing ∧ (1 ≤ length closing ≤ 3)%nat
  | _ => True
  end.

(** No emphasis directly after an emphasis. *)
Fixpoint emph_apart (items : list inline) : Prop :=
  match items with
  | [] => True
  | it :: items' =>
      match it, items' with
      | Emph _ _ _, Emph _ _ _ :: _ => False
      | _, _ => True
      end ∧ emph_apart items'
  end.

(** ** [handleDownload]: the name of the downloaded file *)

(** What [handleDownload] reads from [new Date()]. *)
Record UTCDate := {
  getUTCFullYear : nat;
  getUTCMonth : nat;
  getUTCDate : nat;
  getUTCHours : nat;
  getUTCMinutes : nat
}.

(** [s.slice(-n)] and [s.padStart(n, fill)] for a fill of one character *)
Definition slice_end (n : nat) (s : jsstring) : jsstring := drop (length s - n) s.
Definition padStart (n : nat) (fill : ascii) (s : jsstring) : jsstring :=
  replicate (n - length s) (cu fill) ++ s.

Definition dateTime (now : UTCDate) : jsstring :=
  let year := slice_end 2 (number_to_string (getUTCFullYear now)) in
  let month := padStart 2 "0" (number_to_string (getUTCMonth now + 1)) in
  let day := padStart 2 "0" (number_to_string (getUTCDate now)) in
  let hour := padStart 2 "0" (number_to_string (getUTCHours now)) in
  let minute := padStart 2 "0" (number_to_string (getUTCMinutes now)) in
  year ++ month ++ day ++ js "-" ++ hour ++ minute.

Definition viewMode_string (viewMode : ViewMode) : jsstring :=
  match viewMode with
  | sectioned => js "sectioned"
  | continuous => js "continuous"
  end.

(** [a.download] *)
Definition download (fileName : jsstring) (now : UTCDate) (viewMode : ViewMode) : jsstring :=
  fileName ++ js "-" ++ dateTime now ++ js "-" ++ viewMode_string viewMode ++ js ".html".

(** A date of the calendar, from the year 10 on. *)
Definition date_ok (now : UTCDate) : Prop :=
  (10 ≤ getUTCFullYear now)%nat ∧ (getUTCMonth now ≤ 11)%nat ∧
  (1 ≤ getUTCDate now ≤ 31)%nat ∧ (getUTCHours now ≤ 23)%nat ∧ (getUTCMinutes now ≤ 59)%nat.

Definition is_digit (c : Z) : bool := (48 <=? c) && (c <=? 57).

(** ASCII letters and digits. *)
Definition is_alnum (c : Z) : bool := is_word c && negb (c =? cu "_").

(** ** Where a section comes from

    [section_of_lines lines s]: the section [s] has the fields of
    [block_section] for a heading text [h] and lines [body] of the
    document: [body] is a maximal run of lines that are no level-1
    heading lines, and [h] is the text of the heading line just before it,
    or [Introduction] when [body] are the first lines. *)
Definition section_of_lines (lines : list jsstring) (s : DocSection.t) : Prop :=
  ∃ i h body rest,
    s = block_section i h body ∧
    Forall (λ line, ¬ h1_line line) body ∧
    (rest = [] ∨ ∃ line rest', rest = line :: rest' ∧ h1_line line) ∧
    ((h = Introduction ∧ lines = body ++ rest) ∨
     (∃ pre line, lines = pre ++ line :: body ++ rest ∧ h1_line line ∧ h = heading_text line)).

(** The state of the splitter after the lines [done]. *)
Definition current_ok (done : list jsstring) (st : splitter) : Prop :=
  Forall (λ line, ¬ h1_line line) (currentContentLines st) ∧
  ((currentTitle st = Introduction ∧ done = currentContentLines st) ∨
   (∃ pre line, done = pre ++ line :: currentContentLines st ∧ h1_line line ∧
                currentTitle st = heading_text line)).

(** * Properties of the regular-expression engine *)

Section Engine.
Context {R : Type}.
Implicit Types (p : Z → bool) (k : nat → jsstring → option R).

(** Whatever [rep] returns comes from the continuation, after a run of
    the class of an allowed length. *)
Lemma rep_sound p lo hi i s k x :
  rep p lo hi i s k = Some x →
  ∃ l s', s = l ++ s' ∧ Forall (λ c, p c = true) l ∧ (lo ≤ length l)%nat
          ∧ within hi (length l) ∧ k (i + length l)%nat s' = Some x.
Proof.
  revert lo hi i. induction s as [|c s IH]; intros lo hi i Hrep; simpl in Hrep.
  - destruct lo; [|done]. exists [], []. rewrite Nat.add_0_r.
    repeat split; auto. destruct hi; simpl; lia.
  - assert (Hstop : match lo with O => k i (c :: s) | S _ => None end = Some x →
              ∃ l s', c :: s = l ++ s' ∧ Forall (λ c, p c = true) l ∧ (lo ≤ length l)%nat
                      ∧ within hi (length l) ∧ k (i + length l)%nat s' = Some x).
    { intros Hs. destruct lo; [|done]. exists [], (c :: s). rewrite Nat.add_0_r.
      repeat split; auto. destruct hi; simpl; lia. }
    destruct (p c) eqn:Hpc; simpl in Hrep; [|auto].
    case_bool_decide as Hhi; simpl in Hrep; [auto|].
    destruct (rep p (Nat.pred lo) (Nat.pred <$> hi) (S i) s k) as [r|] eqn:Hin; [|auto].
    injection Hrep as ->. apply IH in Hin as (l & s' & -> & Hall & Hlo & Hw & Hk).
    exists (c :: l), s'. simpl. rewrite Nat.add_succ_r. repeat split; auto.
    + lia.
    + destruct hi as [h|]; simpl in *; [|done]. destruct h; [done|simpl in Hw; lia].
Qed.

(** If the continuation accepts after some run of the class of an
    allowed length, [rep] finds a match. *)
Lemma rep_complete p lo hi i l s' k :
  Forall (λ c, p c = true) l → (lo ≤ length l)%nat → within hi (length l) →
  is_Some (k (i + length l)%nat s') → is_Some (rep p lo hi i (l ++ s') k).
Proof.
  revert lo hi i. induction l as [|c l IH]; intros lo hi i Hall Hlo Hw Hk; simpl in *.
  - rewrite Nat.add_0_r in Hk. assert (lo = O) as -> by lia.
    destruct s' as [|c s']; simpl; [done|].
    destruct (p c && negb (bool_decide (hi = Some O))); [|done].
    destruct (rep p _ _ _ s' k); [eauto|done].
  - inversion Hall as [|?? Hpc Hall']; subst. rewrite Hpc. simpl.
    case_bool_decide as Hhi; simpl.
    { subst hi. simpl in Hw. lia. }
    rewrite Nat.add_succ_r in Hk.
    destruct (IH (Nat.pred lo) (Nat.pred <$> hi) (S i)) as [r Hr]; auto.
    + lia.
    + destruct hi as [h|]; simpl in *; [lia|done].
    + rewrite Hr. eauto.
Qed.

(** When the continuation accepts the longest run, that is the match:
    greedy matching does not backtrack then. *)
Lemma rep_longest p lo i l s' k x :
  Forall (λ c, p c = true) l → run p s' = O → (lo ≤ length l)%nat →
  k (i + length l)%nat s' = Some x → rep p lo None i (l ++ s') k = Some x.
Proof.
  revert lo i. induction l as [|c l IH]; intros lo i Hall Hrun Hlo Hk; simpl in *.
  - rewrite Nat.add_0_r in Hk. assert (lo = O) as -> by lia.
    destruct s' as [|c s']; simpl; [done|].
    simpl in Hrun. destruct (p c); [done|]. done.
  - inversion Hall as [|?? Hpc Hall']; subst. rewrite Hpc. simpl.
    rewrite Nat.add_succ_r in Hk.
    rewrite (IH (Nat.pred lo) (S i)); auto. lia.
Qed.

(** With a continuation that always accepts, [rep] takes the whole run. *)
Lemma rep_greedy p lo i s k :
  (∀ i' s', is_Some (k i' s')) →
  rep p lo None i s k =
    if decide (lo ≤ run p s)%nat then k (i + run p s)%nat (drop (run p s) s) else None.
Proof.
  intros Hk. revert lo i. induction s as [|c s IH]; intros lo i; simpl.
  - rewrite Nat.add_0_r. destruct lo; case_decide; try done; lia.
  - destruct (p c) eqn:Hpc; simpl.
    + rewrite IH. rewrite Nat.add_succ_r. simpl.
      destruct (decide (Nat.pred lo ≤ run p s)%nat) as [Hle|Hgt].
      * destruct (Hk (S (i + run p s)) (drop (run p s) s)) as [x Hx].
        rewrite Hx. rewrite decide_True by lia. done.
      * rewrite decide_False by lia. destruct lo; [lia|done].
    + rewrite Nat.add_0_r. destruct lo; case_decide; try done; lia.
Qed.
End Engine.

Section Matching.
Context {R : Type}.
Implicit Types (k : nat → jsstring → gmap nat jsstring → option R).

(** The search only returns what the continuation returns after a
    match of the pattern. *)
Lemma rmatch_sound r i s cs k x :
  rmatch r i s cs k = Some x →
  ∃ i' s' cs', matches r i s cs i' s' cs' ∧ k i' s' cs' = Some x.
Proof.
  revert i s cs k. induction r as [| |a|p|p lo hi|r1 IH1 r2 IH2|n r IH];
    intros i s cs k Hm; simpl in Hm.
  - destruct i; [|done]. exists O, s, cs. done.
  - destruct s; [|done]. exists i, [], cs. done.
  - destruct s as [|c s]; [done|]. destruct (Z.eqb_spec c (cu a)); [|done].
    subst c. exists (S i), s, cs. done.
  - destruct s as [|c s]; [done|]. destruct (p c) eqn:Hpc; [|done].
    exists (S i), s, cs. simpl. eauto 10.
  - apply rep_sound in Hm as (l & s' & -> & Hall & Hlo & Hw & Hk).
    exists (i + length l)%nat, s', cs. simpl. eauto 10.
  - apply IH1 in Hm as (i1 & s1 & cs1 & H1 & Hm).
    apply IH2 in Hm as (i' & s' & cs' & H2 & Hk).
    exists i', s', cs'. simpl. eauto 10.
  - apply IH in Hm as (i' & s' & cs' & H1 & Hk).
    exists i', s', (<[n := take (i' - i) s]> cs'). simpl. eauto.
Qed.

(** If the pattern matches some prefix and the continuation accepts
    what is left, the search succeeds. *)
Lemma rmatch_complete r i s cs i' s' cs' k :
  matches r i s cs i' s' cs' → is_Some (k i' s' cs') → is_Some (rmatch r i s cs k).
Proof.
  revert i s cs i' s' cs' k. induction r as [| |a|p|p lo hi|r1 IH1 r2 IH2|n r IH];
    intros i s cs i' s' cs' k Hm Hk; simpl in *.
  - destruct Hm as (-> & -> & -> & ->). done.
  - destruct Hm as (-> & -> & -> & ->). done.
  - destruct Hm as (-> & -> & ->). rewrite Z.eqb_refl. done.
  - destruct Hm as ((c & -> & Hpc) & -> & ->). rewrite Hpc. done.
  - destruct Hm as ((l & -> & Hall & Hlo & Hw & ->) & ->).
    by apply rep_complete.
  - destruct Hm as (i1 & s1 & cs1 & H1 & H2). eauto.
  - destruct Hm as (cs1 & H1 & ->). eapply IH; [exact H1|]. done.
Qed.
End Matching.

(** ** Anchored patterns and [exec] *)

Lemma exec_from_Bol_S r i s : exec_from (Bol ⋅ r) (S i) s = None.
Proof. revert i. induction s as [|c s IH]; intros i; simpl; [done|apply IH]. Qed.

(** A pattern that starts with [^] can only match at index 0. *)
Lemma exec_Bol r s :
  exec (Bol ⋅ r) s =
    match match_at (Bol ⋅ r) 0 s with Some (len, cs) => Some (O, len, cs) | None => None end.
Proof.
  unfold exec. destruct s as [|c s]; simpl.
  - destruct (match_at _ _ _) as [[??]|]; done.
  - destruct (match_at _ _ _) as [[??]|]; [done|]. apply exec_from_Bol_S.
Qed.

(** ** Replacing the runs of a class *)

Lemma match_at_plus p i s :
  match_at (plus p) i s = if decide (1 ≤ run p s)%nat then Some (run p s, ∅) else None.
Proof.
  unfold match_at. simpl. rewrite rep_greedy by eauto.
  case_decide; [|done]. do 3 f_equal. lia.
Qed.

Lemma replace_all_from_plus p t s :
  (∀ i, replace_all_from (plus p) t 0 i s = collapse p (expand t ∅) false s) ∧
  (∀ i, replace_all_from (plus p) t (run p s) i s = collapse p (expand t ∅) true s).
Proof.
  induction s as [|c s [IHa IHb]].
  - split; intros i; simpl; rewrite ?match_at_plus; simpl; done.
  - assert (Ha : ∀ i, replace_all_from (plus p) t 0 i (c :: s) =
                      collapse p (expand t ∅) false (c :: s)).
    { intros i. cbn [replace_all_from]. rewrite match_at_plus. cbn [run collapse].
      destruct (p c) eqn:Hpc.
      - rewrite decide_True by lia. rewrite IHb. done.
      - rewrite decide_False by lia. rewrite IHa. done. }
    split; [exact Ha|]. intros i. cbn [run]. destruct (p c) eqn:Hpc.
    + cbn [replace_all_from collapse]. rewrite Hpc, IHb. done.
    + rewrite Ha. cbn [collapse]. rewrite Hpc. done.
Qed.

(** [s.replace(/p+/g, t)] turns every maximal run of [p] into [t]. *)
Lemma replace_all_plus p t s :
  replace_all (plus p) t s = collapse p (expand t ∅) false s.
Proof. apply replace_all_from_plus. Qed.

Lemma collapse_nil_filter p b s :
  collapse p [] b s = filter (λ c, p c = false) s.
Proof.
  revert b. induction s as [|c s IH]; intros b; simpl; [done|].
  destruct (p c) eqn:Hpc.
  - rewrite filter_cons_False by congruence. destruct b; simpl; apply IH.
  - rewrite filter_cons_True by done. f_equal. apply IH.
Qed.

(** ** [trim] *)

Lemma trimStart_id s : Forall (λ c, is_space c = false) s → trimStart s = s.
Proof. destruct 1 as [|c s Hc _]; simpl; [done|]. by rewrite Hc. Qed.

Lemma trimEnd_id s : Forall (λ c, is_space c = false) s → trimEnd s = s.
Proof.
  induction 1 as [|c s Hc _ IH]; simpl; [done|].
  rewrite IH, Hc. by destruct s.
Qed.

Lemma trim_id s : Forall (λ c, is_space c = false) s → trim s = s.
Proof. intros H. unfold trim. rewrite trimStart_id by done. by apply trimEnd_id. Qed.

Lemma collapse_id p t s : Forall (λ c, p c = false) s → collapse p t false s = s.
Proof. induction 1 as [|c s Hc _ IH]; simpl; [done|]. by rewrite Hc, IH. Qed.

Lemma collapse_no_space b s :
  Forall (λ c, is_space c = false) (collapse is_space (js "-") b s).
Proof.
  revert b. induction s as [|c s IH]; intros b; simpl; [done|].
  destruct (is_space c) eqn:Hc.
  - destruct b; simpl; [apply IH|]. constructor; [done|apply IH].
  - constructor; [done|apply IH].
Qed.

(** ** Code points and [toLowerCase] *)

Lemma StringToCodePoints_unit c s :
  is_high_surrogate c = false → StringToCodePoints (c :: s) = c :: StringToCodePoints s.
Proof. intros Hc. simpl. rewrite Hc. by destruct s. Qed.

Lemma StringToCodePoints_pair h l s :
  is_high_surrogate h = true → is_low_surrogate l = true →
  StringToCodePoints (h :: l :: s) = pair_code_point h l :: StringToCodePoints s.
Proof. intros Hh Hl. simpl. rewrite Hh, Hl. done. Qed.

Lemma CodePointToString_pair h l :
  is_high_surrogate h = true → is_low_surrogate l = true →
  CodePointToString (pair_code_point h l) = [h; l].
Proof.
  intros Hh Hl. unfold CodePointToString.
  assert (0xD800 ≤ h ≤ 0xDBFF ∧ 0xDC00 ≤ l ≤ 0xDFFF) as [??] by (split; classes).
  unfold pair_code_point. destruct (Z.ltb_spec (65536 + (h - 55296) * 1024 + (l - 56320)) 65536); [lia|].
  f_equal; [|f_equal]; Z.div_mod_to_equations; lia.
Qed.

(** A well-formed string decodes to scalar values. *)
Lemma isWellFormed_ind (P : jsstring → Prop) :
  P [] →
  (∀ c s, 0 ≤ c < 0x10000 → is_high_surrogate c = false → is_low_surrogate c = false →
          isWellFormed s = true → P s → P (c :: s)) →
  (∀ h l s, is_high_surrogate h = true → is_low_surrogate l = true →
            isWellFormed s = true → P s → P (h :: l :: s)) →
  ∀ s, isWellFormed s = true → P s.
Proof.
  intros Hnil Hunit Hpair s. remember (length s) as n eqn:Hn.
  revert s Hn. induction (lt_wf n) as [n _ IH]. intros s -> Hwf.
  destruct s as [|h t]; [done|]. simpl in Hwf.
  destruct (is_high_surrogate h) eqn:Hh.
  - destruct t as [|l s']; [done|]. apply andb_true_iff in Hwf as [Hl Hwf].
    apply Hpair; auto. eapply IH; [|done..]. simpl. lia.
  - repeat (apply andb_true_iff in Hwf as [Hwf ?]).
    apply Hunit; auto.
    + split; [by apply Z.leb_le|by apply Z.ltb_lt].
    + by apply negb_true_iff.
    + eapply IH; [|done..]. simpl. lia.
Qed.

Lemma isWellFormed_scalars s :
  isWellFormed s = true → Forall (λ c, is_scalar c = true) (StringToCodePoints s).
Proof.
  revert s. apply (isWellFormed_ind (λ s, Forall _ (StringToCodePoints s))).
  - constructor.
  - intros c s Hc Hh Hl _ IH.
    rewrite StringToCodePoints_unit by done. constructor; [|done]. classes.
  - intros h l s Hh Hl _ IH.
    rewrite StringToCodePoints_pair by done. constructor; [|done]. classes.
Qed.

Section Lowered.
Variable lowercase_mapping : list Z → Z → list Z → list Z.
Hypothesis laws : case_table_laws lowercase_mapping.

Lemma lowered_app s1 s2 :
  lowered lowercase_mapping s1 → lowered lowercase_mapping s2 →
  lowered lowercase_mapping (s1 ++ s2).
Proof. induction 1; simpl; intros; [done|by constructor; auto..]. Qed.

Lemma lowered_hyphen s :
  lowered lowercase_mapping s → lowered lowercase_mapping (js "-" ++ s).
Proof.
  intros Hs. apply lowered_unit; [done..| |done]. apply (lower_hyphen _ laws).
Qed.

(** The encoding of a scalar value without lowercase mapping. *)
Lemma lowered_CodePointToString c :
  is_scalar c = true → (∀ b a, lowercase_mapping b c a = [c]) →
  lowered lowercase_mapping (CodePointToString c).
Proof.
  intros Hc Hst. unfold CodePointToString. destruct (Z.ltb_spec c 0x10000).
  - apply lowered_unit; [classes..|done|constructor].
  - assert (c < 0x110000) by classes.
    set (h := 55296 + (c - 65536) / 1024). set (l := 56320 + (c - 65536) `mod` 1024).
    assert (0xD800 ≤ h ≤ 0xDBFF ∧ 0xDC00 ≤ l ≤ 0xDFFF) as [??].
    { subst h l. split; Z.div_mod_to_equations; lia. }
    assert (pair_code_point h l = c) as Hcp.
    { unfold pair_code_point. subst h l. Z.div_mod_to_equations. lia. }
    apply lowered_pair; [classes..| |constructor]. by rewrite Hcp.
Qed.

(** [toLowerCase] leaves such a string alone. *)
Lemma toLowercase_lowered s before :
  lowered lowercase_mapping s →
  flat_map CodePointToString (toLowercase lowercase_mapping before (StringToCodePoints s)) = s.
Proof.
  intros Hs. revert before.
  induction Hs as [|c s Hc Hh Hl Hst _ IH|h l s Hh Hl Hst _ IH]; intros before.
  - done.
  - rewrite StringToCodePoints_unit by done. simpl. rewrite Hst. simpl.
    rewrite IH. unfold CodePointToString.
    destruct (Z.ltb_spec c 65536); [done|lia].
  - rewrite StringToCodePoints_pair by done. simpl. rewrite Hst. simpl.
    rewrite IH, CodePointToString_pair by done. done.
Qed.

Lemma toLowerCase_lowered s : lowered lowercase_mapping s → toLowerCase lowercase_mapping s = s.
Proof. apply toLowercase_lowered. Qed.

(** [toLowerCase] of a well-formed string is such a string. *)
Lemma lowered_toLowercase cps before :
  Forall (λ c, is_scalar c = true) cps →
  lowered lowercase_mapping
    (flat_map CodePointToString (toLowercase lowercase_mapping before cps)).
Proof.
  intros Hcps. revert before. induction Hcps as [|c cps Hc _ IH]; intros before; simpl.
  - constructor.
  - rewrite flat_map_app. apply lowered_app; [|apply IH].
    pose proof (lower_scalar _ laws before c cps Hc) as Hsc.
    pose proof (lower_stable _ laws before c cps Hc) as Hst.
    induction (lowercase_mapping before c cps) as [|c' out IHout]; simpl; [constructor|].
    inversion Hsc; inversion Hst; subst.
    apply lowered_app; [by apply lowered_CodePointToString|by apply IHout].
Qed.

Lemma lowered_toLowerCase s :
  isWellFormed s = true → lowered lowercase_mapping (toLowerCase lowercase_mapping s).
Proof. intros Hwf. apply lowered_toLowercase. by apply isWellFormed_scalars. Qed.

(** The steps of [slugify] after [toLowerCase] keep the string so. *)
Lemma lowered_trimStart s :
  lowered lowercase_mapping s → lowered lowercase_mapping (trimStart s).
Proof.
  induction 1 as [|c s Hc Hh Hl Hst Hs IH|h l s Hh Hl Hst Hs IH]; simpl.
  - constructor.
  - destruct (is_space c); [done|by constructor].
  - replace (is_space h) with false by classes. by constructor.
Qed.

Lemma lowered_trimEnd s :
  lowered lowercase_mapping s → lowered lowercase_mapping (trimEnd s).
Proof.
  induction 1 as [|c s Hc Hh Hl Hst Hs IH|h l s Hh Hl Hst Hs IH].
  - constructor.
  - simpl. destruct (trimEnd s) eqn:Ht.
    + destruct (is_space c); by constructor.
    + by constructor.
  - assert (trimEnd (h :: l :: s) = h :: l :: trimEnd s) as ->.
    { simpl. replace (is_space l) with false by classes. by destruct (trimEnd s). }
    by constructor.
Qed.

Lemma lowered_collapse b s :
  lowered lowercase_mapping s →
  lowered lowercase_mapping (collapse is_space (js "-") b s).
Proof.
  intros Hs. revert b.
  induction Hs as [|c s Hc Hh Hl Hst Hs IH|h l s Hh Hl Hst Hs IH]; intros b; simpl.
  - constructor.
  - destruct (is_space c).
    + destruct b; simpl; [apply IH|]. apply (lowered_hyphen _ (IH true)).
    + by constructor.
  - replace (is_space h) with false by classes.
    replace (is_space l) with false by classes. by constructor.
Qed.

Lemma lowered_filter_slug s :
  lowered lowercase_mapping s →
  lowered lowercase_mapping (filter (λ c, not_slug_char c = false) s).
Proof.
  induction 1 as [|c s Hc Hh Hl Hst Hs IH|h l s Hh Hl Hst Hs IH].
  - constructor.
  - destruct (not_slug_char c) eqn:Hn.
    + by rewrite filter_cons_False by congruence.
    + rewrite filter_cons_True by done. by constructor.
  - rewrite !filter_cons_True; [by constructor|classes..].
Qed.

(** [slugify], step by step. *)
Lemma slugify_steps t :
  slugify lowercase_mapping t =
    filter (λ c, not_slug_char c = false)
      (collapse is_space (js "-") false (trim (toLowerCase lowercase_mapping t))).
Proof. unfold slugify. rewrite !replace_all_plus. simpl. apply collapse_nil_filter. Qed.

Lemma slugify_lowered t :
  isWellFormed t = true → lowered lowercase_mapping (slugify lowercase_mapping t).
Proof.
  intros Hwf. rewrite slugify_steps.
  apply lowered_filter_slug, lowered_collapse, lowered_trimEnd, lowered_trimStart.
  by apply lowered_toLowerCase.
Qed.

Lemma slugify_no_space t :
  Forall (λ c, is_space c = false) (slugify lowercase_mapping t).
Proof.
  rewrite slugify_steps. apply Forall_forall. intros c [_ Hc]%list_elem_of_filter.
  revert c Hc. apply Forall_forall, collapse_no_space.
Qed.

Lemma slugify_slug_chars t :
  Forall (λ c, not_slug_char c = false) (slugify lowercase_mapping t).
Proof. rewrite slugify_steps. apply Forall_forall. intros c [Hc _]%list_elem_of_filter. done. Qed.

Lemma slugify_idempotent t :
  isWellFormed t = true →
  slugify lowercase_mapping (slugify lowercase_mapping t) = slugify lowercase_mapping t.
Proof.
  intros Hwf. rewrite (slugify_steps (slugify _ t)).
  rewrite toLowerCase_lowered by by apply slugify_lowered.
  rewrite trim_id by apply slugify_no_space.
  rewrite collapse_id by apply slugify_no_space.
  induction (slugify_slug_chars t) as [|c s Hc _ IH]; [done|].
  rewrite filter_cons_True by done. by rewrite IH.
Qed.
End Lowered.

(** ** The rows [basic_lowercase] obey the laws *)

Lemma basic_lowercase_laws : case_table_laws basic_lowercase.
Proof.
  split.
  - done.
  - intros b c a Hc. unfold basic_lowercase. case_cmp; repeat constructor; classes.
  - intros b c a Hc. unfold basic_lowercase at 2.
    case_cmp; repeat constructor; intros; unfold basic_lowercase; case_cmp; done.
Qed.

(** * The table of contents *)

Section Toc.
Variable lowercase_mapping : list Z → Z → list Z → list Z.

Lemma occurrences_snoc_eq r seen : occurrences r (seen ++ [r]) = S (occurrences r seen).
Proof.
  unfold occurrences. rewrite filter_app, length_app.
  rewrite filter_cons_True by done. simpl. lia.
Qed.

Lemma occurrences_snoc_ne r r' seen :
  r ≠ r' → occurrences r' (seen ++ [r]) = occurrences r' seen.
Proof.
  intros Hne. unfold occurrences. rewrite filter_app, length_app.
  rewrite filter_cons_False by done. simpl. lia.
Qed.

Lemma omap_cons_match {A B} (f : A → option B) x l :
  omap f (x :: l) = match f x with Some y => y :: omap f l | None => omap f l end.
Proof. done. Qed.

Lemma counts_of_nil : counts_of [] ∅.
Proof. intros r. by rewrite lookup_empty. Qed.

(** One line: a heading appends the item whose id is its raw slug,
    suffixed by the number of times the slug was seen; another line
    changes nothing. *)
Lemma toc_line_heading toc slugCounts seen line r :
  counts_of seen slugCounts → rawIdOf lowercase_mapping line = Some r →
  ∃ item slugCounts',
    toc_line lowercase_mapping (toc, slugCounts) line = (toc ++ [item], slugCounts') ∧
    TocItem.id item = nth_id r (occurrences r seen) ∧
    headingOf line = Some (TocItem.level item, TocItem.title item) ∧
    counts_of (seen ++ [r]) slugCounts'.
Proof.
  intros Hm Hr. unfold rawIdOf in Hr. unfold toc_line, headingOf.
  destruct (exec headerRegex line) as [[[i len] m]|]; [|done].
  injection Hr as Hr. rewrite Hr. pose proof (Hm r) as Hlook.
  destruct (occurrences r seen) as [|k] eqn:Hocc; rewrite Hlook.
  - eexists _, _. split; [done|]. repeat split; simpl.
    intros r'. destruct (decide (r = r')) as [<-|Hne].
    + by rewrite lookup_insert_eq, occurrences_snoc_eq, Hocc.
    + rewrite lookup_insert_ne by done. rewrite occurrences_snoc_ne by done. apply Hm.
  - eexists _, _. split; [done|]. repeat split; simpl.
    intros r'. destruct (decide (r = r')) as [<-|Hne].
    + by rewrite lookup_insert_eq, occurrences_snoc_eq, Hocc.
    + rewrite lookup_insert_ne by done. rewrite occurrences_snoc_ne by done. apply Hm.
Qed.

Lemma rawIdOf_headingOf line :
  rawIdOf lowercase_mapping line =
    (λ h, slugify lowercase_mapping (cleanMarkdown h.2)) <$> headingOf line.
Proof. unfold rawIdOf, headingOf. by destruct (exec _ _) as [[[??]?]|]. Qed.

Lemma toc_line_other toc slugCounts line :
  headingOf line = None →
  toc_line lowercase_mapping (toc, slugCounts) line = (toc, slugCounts).
Proof.
  unfold headingOf, toc_line. by destruct (exec _ _) as [[[??]?]|].
Qed.

(** The loop, from any state that is consistent with the slugs seen. *)
Lemma toc_loop lines toc slugCounts seen :
  counts_of seen slugCounts →
  ∃ items,
    (foldl (toc_line lowercase_mapping) (toc, slugCounts) lines).1 = toc ++ items ∧
    (λ it, (TocItem.level it, TocItem.title it)) <$> items = omap headingOf lines ∧
    ∀ i, (TocItem.id <$> items) !! i =
         (λ r, nth_id r (occurrences r (seen ++ take i (omap (rawIdOf lowercase_mapping) lines))))
           <$> omap (rawIdOf lowercase_mapping) lines !! i.
Proof.
  revert toc slugCounts seen.
  induction lines as [|line lines IH]; intros toc slugCounts seen Hm.
  - exists []. simpl. rewrite app_nil_r. done.
  - cbn [foldl]. rewrite !omap_cons_match.
    destruct (rawIdOf lowercase_mapping line) as [r|] eqn:Hr.
    + destruct (toc_line_heading toc slugCounts seen line r Hm Hr)
        as (item & m' & -> & Hid & Hh & Hm').
      destruct (IH (toc ++ [item]) m' (seen ++ [r]) Hm') as (items & -> & Hlt & Hids).
      exists (item :: items). rewrite <- app_assoc. split; [done|]. split.
      * by rewrite Hh, fmap_cons, Hlt.
      * intros [|i]; rewrite fmap_cons.
        -- simpl. by rewrite app_nil_r, Hid.
        -- rewrite !lookup_cons. rewrite Hids. simpl. by rewrite <- app_assoc.
    + assert (headingOf line = None) as Hh.
      { rewrite rawIdOf_headingOf in Hr. by destruct (headingOf line). }
      rewrite toc_line_other by done. rewrite Hh.
      destruct (IH toc slugCounts seen Hm) as (items & -> & Hlt & Hids). eauto.
Qed.

(** The levels and titles of the table of contents are those of the
    heading lines, in order. *)
Lemma parseTOC_headings text :
  (λ it, (TocItem.level it, TocItem.title it)) <$> parseTOC lowercase_mapping text =
    omap headingOf (split LF text).
Proof.
  unfold parseTOC.
  destruct (toc_loop (split LF text) [] ∅ [] counts_of_nil) as (items & -> & H & _). done.
Qed.

(** The i-th id is the raw slug of the i-th heading, suffixed by the
    number of earlier headings with that raw slug. *)
Lemma parseTOC_ids text i :
  (TocItem.id <$> parseTOC lowercase_mapping text) !! i =
    (λ r, nth_id r (occurrences r (take i (omap (rawIdOf lowercase_mapping) (split LF text)))))
      <$> omap (rawIdOf lowercase_mapping) (split LF text) !! i.
Proof.
  unfold parseTOC.
  destruct (toc_loop (split LF text) [] ∅ [] counts_of_nil) as (items & -> & _ & H).
  apply H.
Qed.
End Toc.

(** ** Headings with the same raw slug get distinct ids *)

Lemma uint_digits_inj u v : uint_digits u = uint_digits v → u = v.
Proof. revert v. induction u; destruct v; simpl; intros [=]; f_equal; auto. Qed.

Lemma number_to_string_inj n m : number_to_string n = number_to_string m → n = m.
Proof. intros H. by apply Unsigned.to_uint_inj, uint_digits_inj. Qed.

Lemma nth_id_inj rawId k1 k2 : nth_id rawId k1 = nth_id rawId k2 → k1 = k2.
Proof.
  destruct k1 as [|k1], k2 as [|k2]; simpl; intros H; try done.
  - apply (f_equal length) in H. rewrite length_app in H. simpl in H. lia.
  - apply (f_equal length) in H. rewrite length_app in H. simpl in H. lia.
  - apply app_inv_head in H. injection H as H. by apply number_to_string_inj.
Qed.

Lemma occurrences_take_lt (rawIds : list (list Z)) i j r :
  (i < j)%nat → rawIds !! i = Some r →
  (occurrences r (take i rawIds) < occurrences r (take j rawIds))%nat.
Proof.
  intros Hlt Hi. replace j with (S i + (j - S i))%nat by lia.
  rewrite <- take_take_drop, (take_S_r _ _ _ Hi). unfold occurrences.
  rewrite !filter_app, !length_app, filter_cons_True by done. simpl. lia.
Qed.

Lemma parseTOC_same_slug_distinct lowercase_mapping text i j r :
  let rawIds := omap (rawIdOf lowercase_mapping) (split LF text) in
  (i < j)%nat → rawIds !! i = Some r → rawIds !! j = Some r →
  (TocItem.id <$> parseTOC lowercase_mapping text) !! i ≠
  (TocItem.id <$> parseTOC lowercase_mapping text) !! j.
Proof.
  intros rawIds Hlt Hi Hj. rewrite !parseTOC_ids. fold rawIds. rewrite Hi, Hj. simpl.
  intros [= Heq]. apply nth_id_inj in Heq.
  pose proof (occurrences_take_lt rawIds i j r Hlt Hi). lia.
Qed.

(** ** Which lines are headings for [parseTOC] *)

Lemma Forall_is_char a l :
  Forall (λ c, is_char a c = true) l → l = replicate (length l) (cu a).
Proof.
  induction 1 as [|c l Hc _ IH]; simpl; [done|].
  unfold is_char in Hc. apply Z.eqb_eq in Hc. by rewrite <- IH, Hc.
Qed.

Lemma trimStart_spaces ws s :
  Forall (λ c, is_space c = true) ws → trimStart (ws ++ s) = trimStart s.
Proof. induction 1 as [|c ws Hc _ IH]; simpl; [done|]. by rewrite Hc. Qed.

Lemma trim_spaces ws s : Forall (λ c, is_space c = true) ws → trim (ws ++ s) = trim s.
Proof. intros H. unfold trim. by rewrite trimStart_spaces. Qed.

(** The hashes of a heading line are all its leading hashes. *)
Lemma heading_line_level k line :
  heading_line k line → run (is_char "#") line = k.
Proof.
  intros (ws & text & -> & Hne & Hws & _).
  induction k as [|k IH]; simpl.
  - destruct Hws as [|c ws Hc _]; [done|]. simpl.
    replace (is_char "#" c) with false; [done|]. classes.
  - by rewrite IH.
Qed.

Lemma match_at_headerRegex line len m :
  match_at headerRegex 0 line = Some (len, m) →
  ∃ hs ws text,
    line = hs ++ ws ++ text ∧
    Forall (λ c, is_char "#" c = true) hs ∧ (1 ≤ length hs ≤ 3)%nat ∧
    ws ≠ [] ∧ Forall (λ c, is_space c = true) ws ∧
    text ≠ [] ∧ Forall (λ c, dot c = true) text ∧
    group m 1 = hs ∧ group m 2 = text.
Proof.
  intros Hm. apply rmatch_sound in Hm as (i' & s' & cs' & Hm & [= <- <-]).
  simpl in Hm.
  destruct Hm as (? & ? & ? & (_ & -> & -> & ->) & Hm).
  destruct Hm as (i2 & s2 & ? & (? & ((hs & -> & Hhs & Hlo & Hhi & ->) & ->) & ->) & Hm).
  destruct Hm as (i3 & s3 & ? & ((ws & -> & Hws & Hwlo & _ & ->) & ->) & Hm).
  destruct Hm as (i4 & s4 & ? & (? & ((text & -> & Htext & Htlo & _ & ->) & ->) & ->) & Hm).
  destruct Hm as (-> & -> & -> & ->).
  exists hs, ws, text. rewrite app_nil_r. split_and!; auto.
  - destruct ws; [simpl in *; lia|done].
  - destruct text; [simpl in *; lia|done].
  - unfold group. rewrite lookup_insert_ne by done. rewrite lookup_insert_eq. simpl.
    rewrite Nat.sub_0_r. by rewrite take_app_length.
  - unfold group. rewrite lookup_insert_eq. simpl.
    apply take_ge. lia.
Qed.

Lemma headingOf_Some line k title :
  headingOf line = Some (k, title) →
  (1 ≤ k ≤ 3)%nat ∧ heading_line k line ∧ title = trim (drop k line).
Proof.
  unfold headingOf. unfold headerRegex. rewrite exec_Bol. fold headerRegex.
  destruct (match_at headerRegex 0 line) as [[len m]|] eqn:Hm; [|done].
  intros [= <- <-].
  apply match_at_headerRegex in Hm
    as (hs & ws & text & -> & Hhs & Hlen & Hne & Hws & Hte & Htext & -> & ->).
  split; [done|]. split.
  - exists ws, text. by rewrite <- Forall_is_char.
  - rewrite drop_app_length. by rewrite trim_spaces.
Qed.

Lemma heading_line_headingOf k line :
  (1 ≤ k ≤ 3)%nat → heading_line k line →
  headingOf line = Some (k, trim (drop k line)).
Proof.
  intros Hk Hline.
  assert (is_Some (match_at headerRegex 0 line)) as [[len m] Hm].
  { destruct Hline as (ws & text & -> & Hne & Hws & Hte & Htext).
    unfold match_at.
    eapply (rmatch_complete headerRegex 0 _ ∅
              (0 + k + length ws + length text)%nat [] _); [|done].
    simpl. eexists _, _, _. split; [done|].
    eexists _, _, _. split.
    { eexists. split; [|done]. split; [|done].
      exists (replicate k (cu "#")). rewrite length_replicate. repeat split; try done; try lia.
      apply Forall_replicate. done. }
    eexists _, _, _. split.
    { split; [|done]. exists ws. repeat split; try done. destruct ws; [done|simpl; lia]. }
    eexists _, _, _. split; [|done].
    eexists. split; [|done]. split; [|done].
    exists text. rewrite app_nil_r. repeat split; try done. destruct text; [done|simpl; lia]. }
  destruct (headingOf line) as [[k' title]|] eqn:Hh.
  - apply headingOf_Some in Hh as (_ & Hline' & ->).
    apply heading_line_level in Hline, Hline'. by subst.
  - unfold headingOf, headerRegex in Hh. rewrite exec_Bol in Hh. fold headerRegex in Hh.
    by rewrite Hm in Hh.
Qed.

(** [parseTOC] takes a line for a heading exactly when it is made of one
    to three hashes, whitespace and text without line terminator; the
    level is the number of hashes, the title what follows them, trimmed. *)
Lemma headingOf_spec line k title :
  headingOf line = Some (k, title) ↔
  (1 ≤ k ≤ 3)%nat ∧ heading_line k line ∧ title = trim (drop k line).
Proof.
  split; [apply headingOf_Some|].
  intros (Hk & Hline & ->). by apply heading_line_headingOf.
Qed.

Lemma headingOf_None line :
  headingOf line = None ↔ ∀ k, (1 ≤ k ≤ 3)%nat → ¬ heading_line k line.
Proof.
  split.
  - intros Hnone k Hk Hline. by rewrite (heading_line_headingOf k) in Hnone.
  - intros Hno. destruct (headingOf line) as [[k title]|] eqn:Hh; [|done].
    apply headingOf_Some in Hh as (Hk & Hline & _). by destruct (Hno k).
Qed.

(** * The section splitter *)

Lemma split_nonempty sep text : split sep text ≠ [].
Proof.
  destruct text as [|c s]; simpl; [done|].
  destruct (c =? sep); [done|]. by destruct (split sep s).
Qed.

Lemma join_split text : join [LF] (split LF text) = text.
Proof.
  induction text as [|c s IH]; simpl; [done|].
  pose proof (split_nonempty LF s) as Hne.
  destruct (split LF s) as [|l ls] eqn:Hs; [done|].
  destruct (Z.eqb_spec c LF) as [->|]; simpl in *.
  - by rewrite IH.
  - destruct ls; simpl in *; by rewrite <- IH.
Qed.

(** ** [trim] is idempotent *)

Lemma trimStart_head s :
  match trimStart s with [] => True | c :: _ => is_space c = false end.
Proof. induction s as [|c s IH]; simpl; [done|]. by destruct (is_space c) eqn:Hc. Qed.

Lemma trimEnd_head s :
  match trimEnd s with [] => True | c :: _ => head s = Some c end.
Proof.
  destruct s as [|c s]; simpl; [done|].
  destruct (trimEnd s); [by destruct (is_space c)|done].
Qed.

Lemma trimEnd_idempotent s : trimEnd (trimEnd s) = trimEnd s.
Proof.
  induction s as [|c s IH]; simpl; [done|].
  destruct (trimEnd s) as [|c' t] eqn:Ht.
  - destruct (is_space c) eqn:Hc; simpl; [done|]. by rewrite Hc.
  - cbn [trimEnd] in *. by rewrite IH.
Qed.

Lemma trim_idempotent s : trim (trim s) = trim s.
Proof.
  unfold trim. pose proof (trimStart_head s) as Hhead.
  pose proof (trimEnd_head (trimStart s)) as Hend.
  destruct (trimEnd (trimStart s)) as [|c t] eqn:Ht; [done|].
  assert (is_space c = false) as Hc.
  { destruct (trimStart s); simpl in Hend; [done|]. by injection Hend as ->. }
  cbn [trimStart]. rewrite Hc. rewrite <- Ht. apply trimEnd_idempotent.
Qed.

(** ** The title of a section *)

Lemma replace_hash_prefix_other h :
  head h ≠ Some (cu "#") → replace hash_prefix_re [] h = h.
Proof.
  intros Hh. unfold replace, hash_prefix_re. rewrite exec_Bol.
  destruct h as [|c s]; [done|]. unfold match_at. simpl.
  destruct (Z.eqb_spec c (cu "#")) as [->|]; done.
Qed.

Lemma Introduction_title : trim (replace hash_prefix_re [] Introduction) = Introduction.
Proof. vm_compute. done. Qed.

Lemma section_name_0 : section_name 0 = js "section-0".
Proof. done. Qed.

(** ** The loop *)

Lemma splitter_ok_init : splitter_ok (Splitter [] Introduction [] 0).
Proof. done. Qed.

Lemma seq_snoc (n : nat) : seq 0 (S n) = seq 0 n ++ [n].
Proof. by rewrite seq_S. Qed.

Lemma pushSection_ok st : splitter_ok st → splitter_ok (pushSection st).
Proof.
  intros (Hidx & Hids & Htitle). unfold pushSection.
  destruct (_ || _); [|done]. split_and!; simpl; try done.
  - rewrite length_app. simpl. lia.
  - rewrite length_app, Nat.add_1_r, seq_snoc, !fmap_app, Hids, Hidx. done.
Qed.

Lemma split_line_ok st line : splitter_ok st → splitter_ok (split_line st line).
Proof.
  intros Hok. unfold split_line. destruct (test h1_re line).
  - assert (splitter_ok (if bool_decide (sections st ≠ []) || bool_decide (currentContentLines st ≠ [])
                         then pushSection st else st)) as (Hidx & Hids & _).
    { destruct (_ || _); [by apply pushSection_ok|done]. }
    split_and!; simpl; try done. apply trim_idempotent.
  - destruct Hok as (Hidx & Hids & Htitle). done.
Qed.

Lemma split_loop_ok lines st : splitter_ok st → splitter_ok (foldl split_line st lines).
Proof.
  revert st. induction lines as [|line lines IH]; intros st Hok; simpl; [done|].
  by apply IH, split_line_ok.
Qed.

(** The sections are numbered from 0 in the order they are pushed. *)
Lemma collect_ids text :
  DocSection.id <$> collect text = section_name <$> seq 0 (length (collect text)).
Proof.
  unfold collect.
  by destruct (pushSection_ok _ (split_loop_ok (split LF text) _ splitter_ok_init)) as (_ & ? & _).
Qed.

(** ** The fields of the sections *)

Lemma pushSection_sections st :
  trim (currentTitle st) = currentTitle st →
  Forall section_ok (sections st) → Forall section_ok (sections (pushSection st)).
Proof.
  intros Htitle Hss. unfold pushSection. destruct (_ || _); [|done]. simpl.
  apply Forall_app. split; [done|]. constructor; [|done].
  exists (currentTitle st). simpl. split_and!; try done.
  intros Hh. by rewrite replace_hash_prefix_other.
Qed.

Lemma split_line_sections st line :
  splitter_ok st →
  Forall section_ok (sections st) → Forall section_ok (sections (split_line st line)).
Proof.
  intros (_ & _ & Htitle) Hss. unfold split_line. destruct (test h1_re line); [|done].
  simpl. destruct (_ || _); [by apply pushSection_sections|done].
Qed.

Lemma split_loop_sections lines st :
  splitter_ok st →
  Forall section_ok (sections st) →
  Forall section_ok (sections (foldl split_line st lines)).
Proof.
  revert st. induction lines as [|line lines IH]; intros st Hok Hss; simpl; [done|].
  apply IH; [by apply split_line_ok|by apply split_line_sections].
Qed.

Lemma collect_sections text : Forall section_ok (collect text).
Proof.
  unfold collect. apply pushSection_sections.
  - by destruct (split_loop_ok (split LF text) _ splitter_ok_init) as (_ & _ & ?).
  - apply split_loop_sections; [apply splitter_ok_init|constructor].
Qed.

(** ** Documents without a level-1 heading line *)

Lemma split_loop_no_h1 lines st :
  Forall (λ line, test h1_re line = false) lines →
  foldl split_line st lines =
    {| sections := sections st; currentTitle := currentTitle st;
       currentContentLines := currentContentLines st ++ lines;
       sectionIndex := sectionIndex st |}.
Proof.
  intros Hlines. revert st. induction Hlines as [|line lines Hline _ IH]; intros st; simpl.
  - rewrite app_nil_r. by destruct st.
  - rewrite IH. unfold split_line. rewrite Hline. simpl. by rewrite <- app_assoc.
Qed.

Lemma parseMarkdownByH1_no_h1 text :
  Forall (λ line, test h1_re line = false) (split LF text) →
  parseMarkdownByH1 text =
    [ {| DocSection.id := js "section-0";
         DocSection.title := js "Introduction";
         DocSection.content := trim text;
         DocSection.raw := js "# Introduction" ++ [LF; LF] ++ trim text |} ].
Proof.
  intros Hlines. unfold parseMarkdownByH1, collect.
  rewrite split_loop_no_h1 by done. unfold pushSection. simpl.
  rewrite bool_decide_true by apply split_nonempty. simpl.
  rewrite join_split. rewrite Introduction_title. done.
Qed.

(** ** Which lines are level-1 headings for the splitter *)

Lemma match_at_is_Some r i s :
  is_Some (match_at r i s) ↔ ∃ i' s' cs', matches r i s ∅ i' s' cs'.
Proof.
  unfold match_at. split.
  - intros [x Hx]. apply rmatch_sound in Hx as (i' & s' & cs' & Hm & _). eauto.
  - intros (i' & s' & cs' & Hm). eapply rmatch_complete; [exact Hm|done].
Qed.

Lemma test_Bol r s : test (Bol ⋅ r) s = true ↔ is_Some (match_at (Bol ⋅ r) 0 s).
Proof.
  unfold test. rewrite exec_Bol. destruct (match_at _ _ _) as [[??]|]; split; try done.
Qed.

Lemma test_h1_re line : test h1_re line = true ↔ h1_line line.
Proof.
  unfold h1_re. rewrite test_Bol, match_at_is_Some. simpl. split.
  - intros (i' & s' & cs' & Hm).
    destruct Hm as (? & ? & ? & (_ & -> & -> & ->) & Hm).
    destruct Hm as (? & s1 & ? & (-> & -> & ->) & Hm).
    destruct Hm as (? & s2 & ? & ((ws & -> & Hws & Hwlo & _ & ->) & ->) & Hm).
    destruct Hm as (? & (((text & -> & Htext & Htlo & _ & ->) & ->) & ->)).
    exists ws, text, s'. split_and!; auto.
    + destruct ws; [simpl in *; lia|done].
    + destruct text; [simpl in *; lia|done].
  - intros (ws & text & rest & -> & Hne & Hws & Hte & Htext).
    eexists _, rest, _. eexists _, _, _. split; [done|].
    eexists _, _, _. split; [done|].
    eexists _, _, _. split.
    { split; [|done]. exists ws. split_and!; try done. destruct ws; [done|simpl; lia]. }
    eexists. split; [|done]. split; [|done].
    exists text. split_and!; try done. destruct text; [done|simpl; lia].
Qed.

Lemma test_h1_re_false line : test h1_re line = false ↔ ¬ h1_line line.
Proof. rewrite <- test_h1_re. by destruct (test h1_re line). Qed.

(** A level-1 heading of the table of contents is one of the splitter. *)
Lemma heading_line_h1 line : heading_line 1 line → h1_line line.
Proof.
  intros (ws & text & -> & ?). exists ws, text, []. by rewrite app_nil_r.
Qed.

(** ** Every section is the section of a heading line and of the lines
    after it *)

Lemma pushSection_from lines done rest st :
  lines = done ++ rest →
  (rest = [] ∨ ∃ line rest', rest = line :: rest' ∧ h1_line line) →
  current_ok done st →
  Forall (section_of_lines lines) (sections st) →
  Forall (section_of_lines lines) (sections (pushSection st)).
Proof.
  intros -> Hrest (Hbody & Hcur) Hss. unfold pushSection. destruct (_ || _); [|done].
  cbn [sections]. apply Forall_app. split; [done|]. constructor; [|done].
  exists (sectionIndex st), (currentTitle st), (currentContentLines st), rest.
  split; [done|]. split; [done|]. split; [done|].
  destruct Hcur as [[Ht ->]|(pre & line & -> & Hline & Ht)].
  - by left.
  - right. exists pre, line. by rewrite <- app_assoc.
Qed.

Lemma split_line_current done st line :
  current_ok done st → current_ok (done ++ [line]) (split_line st line).
Proof.
  intros (Hbody & Hcur). unfold split_line. destruct (test h1_re line) eqn:Hl.
  - apply test_h1_re in Hl. split; [done|]. right. by exists done, line.
  - apply test_h1_re_false in Hl. cbn [currentContentLines currentTitle]. split.
    + apply Forall_app. split; [done|by constructor].
    + destruct Hcur as [[Ht ->]|(pre & l & -> & Hline & Ht)]; [by left|].
      right. exists pre, l. by rewrite <- app_assoc.
Qed.

Lemma split_loop_from todo done st :
  current_ok done st →
  Forall (section_of_lines (done ++ todo)) (sections st) →
  Forall (section_of_lines (done ++ todo)) (sections (pushSection (foldl split_line st todo))).
Proof.
  revert done st. induction todo as [|line todo IH]; intros done st Hcur Hss.
  - cbn [foldl]. by apply (pushSection_from _ done []); [|left|..].
  - cbn [foldl]. replace (done ++ line :: todo) with ((done ++ [line]) ++ todo) in *
      by (by rewrite <- app_assoc).
    apply IH; [by apply split_line_current|].
    unfold split_line. destruct (test h1_re line) eqn:Hl; [|done]. cbn [sections].
    destruct (_ || _); [|done].
    apply (pushSection_from _ done (line :: todo)); try done.
    + by rewrite <- app_assoc.
    + right. exists line, todo. split; [done|]. by apply test_h1_re.
Qed.

Lemma collect_from text : Forall (section_of_lines (split LF text)) (collect text).
Proof.
  unfold collect. apply (split_loop_from (split LF text) []); [|constructor].
  split; [constructor|]. by left.
Qed.

Lemma parseMarkdownByH1_from text :
  Forall (section_of_lines (split LF text)) (parseMarkdownByH1 text).
Proof.
  pose proof (collect_from text) as Hall. unfold parseMarkdownByH1.
  destruct (drops_first (collect text)); [|done].
  destruct (collect text); [done|]. by apply Forall_cons in Hall as [_ ?].
Qed.

(** * ASCII text

    On ASCII text only the Basic Latin rows of the case table matter:
    every table that has them gives the result of [basic_lowercase]. *)

Lemma basic_lowercase_ascii_rows : ascii_rows basic_lowercase.
Proof. intros b c a Hc. unfold basic_lowercase, ascii_lower. case_cmp; done. Qed.

Section Ascii.
Variable lowercase_mapping : list Z → Z → list Z → list Z.
Hypothesis rows : ascii_rows lowercase_mapping.

Lemma StringToCodePoints_ascii s : is_ascii s = true → StringToCodePoints s = s.
Proof.
  induction s as [|c s IH]; [done|]. intros [Hc Hs]%andb_true_iff.
  rewrite StringToCodePoints_unit by classes. by rewrite IH.
Qed.

Lemma toLowercase_ascii before s :
  is_ascii s = true → toLowercase lowercase_mapping before s = ascii_lower <$> s.
Proof.
  revert before. induction s as [|c s IH]; intros before; [done|].
  intros [Hc Hs]%andb_true_iff. simpl. rewrite rows by classes. simpl.
  by rewrite IH.
Qed.

Lemma toLowerCase_ascii s :
  is_ascii s = true → toLowerCase lowercase_mapping s = ascii_lower <$> s.
Proof.
  intros Hs. unfold toLowerCase.
  rewrite StringToCodePoints_ascii, toLowercase_ascii by done.
  induction s as [|c s IH]; [done|]. apply andb_true_iff in Hs as [Hc Hs].
  rewrite fmap_cons. simpl. rewrite IH by done.
  assert (0 ≤ ascii_lower c < 128).
  { unfold ascii_lower. bool_hyps. case_cmp; lia. }
  unfold CodePointToString. by rewrite (proj2 (Z.ltb_lt _ _)) by lia.
Qed.
End Ascii.

Lemma slugify_ascii lowercase_mapping s :
  ascii_rows lowercase_mapping → is_ascii s = true →
  slugify lowercase_mapping s = slugify basic_lowercase s.
Proof.
  intros Hrows Hs. unfold slugify.
  rewrite !toLowerCase_ascii by (done || apply basic_lowercase_ascii_rows). done.
Qed.

Lemma getUniqueId_ascii lowercase_mapping s slugCounts :
  ascii_rows lowercase_mapping → is_ascii s = true →
  getUniqueId lowercase_mapping s slugCounts = getUniqueId basic_lowercase s slugCounts.
Proof. intros Hrows Hs. unfold getUniqueId. by rewrite slugify_ascii. Qed.

Lemma parseTOC_ascii lowercase_mapping text :
  ascii_rows lowercase_mapping → ascii_headings text = true →
  parseTOC lowercase_mapping text = parseTOC basic_lowercase text.
Proof.
  intros Hrows Hascii. unfold parseTOC, ascii_headings in *.
  generalize (@nil TocItem.t, (∅ : gmap (list Z) nat)). 
  induction (split LF text) as [|line lines IH]; intros acc; [done|].
  apply andb_true_iff in Hascii as [Hline Hlines]. cbn [foldl].
  rewrite <- IH by done. do 2 f_equal.
  unfold toc_line, headingOf in *. destruct acc as [toc slugCounts].
  destruct (exec headerRegex line) as [[[i len] m]|]; [|done].
  by rewrite slugify_ascii.
Qed.

(** * Cleaning an image title *)

(** Dropping the rest of a match. *)
Lemma replace_all_from_skip r t l i s :
  replace_all_from r t (length l) i (l ++ s) = replace_all_from r t 0 (i + length l) s.
Proof.
  revert i. induction l as [|c l IH]; intros i; simpl.
  - by rewrite Nat.add_0_r.
  - rewrite IH. f_equal. lia.
Qed.

(** A pattern whose matches all contain a character that the string
    does not have leaves the string as it is. *)
Lemma replace_all_from_id r t (P : Z → Prop) s i :
  (∀ j s' x, match_at r j s' = Some x → ∃ c, c ∈ s' ∧ P c) →
  (∀ c, c ∈ s → ¬ P c) →
  replace_all_from r t 0 i s = s.
Proof.
  intros Hneeds. revert i. induction s as [|c s IH]; intros i Hs.
  - cbn [replace_all_from]. destruct (match_at r i []) as [[len cs]|] eqn:Hm; [|done].
    apply Hneeds in Hm as (c & Hc & _). by apply elem_of_nil in Hc.
  - cbn [replace_all_from]. destruct (match_at r i (c :: s)) as [[len cs]|] eqn:Hm.
    + apply Hneeds in Hm as (c' & Hc' & HP). by destruct (Hs c' Hc').
    + rewrite IH; [done|]. intros c' Hc'. apply Hs. by right.
Qed.

Lemma match_at_image_re i s x : match_at image_re i s = Some x → ∃ c, c ∈ s ∧ c = cu "]".
Proof.
  intros Hm. apply rmatch_sound in Hm as (i' & s' & cs' & Hm & _). simpl in Hm.
  destruct Hm as (? & s1 & ? & (-> & _) & Hm).
  destruct Hm as (? & s2 & ? & (-> & _) & Hm).
  destruct Hm as (? & s3 & ? & (? & ((l & -> & _) & _) & _) & Hm).
  destruct Hm as (? & s4 & ? & (-> & _) & _).
  exists (cu "]"). split; [|done].
  do 2 right. apply elem_of_app. right. by left.
Qed.

Lemma match_at_code_re i s x : match_at code_re i s = Some x → ∃ c, c ∈ s ∧ c = cu "`".
Proof.
  intros Hm. apply rmatch_sound in Hm as (i' & s' & cs' & Hm & _). simpl in Hm.
  destruct Hm as (? & s1 & ? & (-> & _) & _).
  exists (cu "`"). split; [by left|done].
Qed.

Lemma match_at_emphasis_re i s x :
  match_at emphasis_re i s = Some x → ∃ c, c ∈ s ∧ is_marker c = true.
Proof.
  intros Hm. apply rmatch_sound in Hm as (i' & s' & cs' & Hm & _). simpl in Hm.
  destruct Hm as (? & s1 & ? & ((l & -> & Hl & Hlo & _) & _) & _).
  destruct Hl as [|c l Hc _]; [simpl in Hlo; lia|].
  exists c. split; [by left|done].
Qed.

(** The link pattern at a link. *)
Lemma match_at_link_re i alt url rest :
  alt ≠ [] → url ≠ [] →
  Forall (λ c, is_not "]" c = true) alt → Forall (λ c, is_not ")" c = true) url →
  match_at link_re i (cu "[" :: alt ++ cu "]" :: cu "(" :: url ++ cu ")" :: rest) =
    Some (S (length alt + length url + 3), {[ 1%nat := alt ]}).
Proof.
  intros Halt Hurl Hnb Hnp. unfold match_at, link_re. cbn [rmatch].
  change (cu "[" =? cu "[") with true. cbv iota.
  erewrite rep_longest; [reflexivity|exact Hnb|done|destruct alt; [done|simpl; lia]|].
  cbn [rmatch]. change (cu "]" =? cu "]") with true. change (cu "(" =? cu "(") with true.
  cbv iota.
  erewrite rep_longest; [reflexivity|exact Hnp|done|destruct url; [done|simpl; lia]|].
  cbn [rmatch]. change (cu ")" =? cu ")") with true. cbv iota.
  f_equal. f_equal.
  - lia.
  - rewrite insert_empty. f_equal. replace (S i + length alt - S i)%nat with (length alt) by lia.
    by rewrite take_app_length.
Qed.

(** The link step on an image: the exclamation mark is left before the
    alternative text. *)
Lemma replace_all_link_on_image alt url :
  alt ≠ [] → url ≠ [] →
  Forall (λ c, is_not "]" c = true) alt → Forall (λ c, is_not ")" c = true) url →
  replace_all link_re [Ref 1] (js "![" ++ alt ++ js "](" ++ url ++ js ")") = js "!" ++ alt.
Proof.
  intros Halt Hurl Hnb Hnp. unfold replace_all. cbn [js app].
  cbn [replace_all_from]. change (match_at link_re 0 (cu "!" :: _)) with (@None (nat * gmap nat (list Z))).
  cbv iota. f_equal.
  rewrite (match_at_link_re 1 alt url []) by done.
  unfold expand. cbn [flat_map]. unfold group. rewrite lookup_singleton_eq. cbn [default].
  rewrite app_nil_r. f_equal.
  replace (alt ++ cu "]" :: cu "(" :: url ++ [cu ")"])
    with ((alt ++ cu "]" :: cu "(" :: url ++ [cu ")"]) ++ []) by apply app_nil_r.
  replace (length alt + length url + 3)%nat
    with (length (alt ++ cu "]" :: cu "(" :: url ++ [cu ")"])).
  - rewrite replace_all_from_skip. simpl. apply app_nil_r.
  - rewrite length_app. simpl. rewrite length_app. simpl. lia.
Qed.

(** [cleanMarkdown] on an image whose alternative text is plain. *)
Lemma cleanMarkdown_image alt url :
  alt ≠ [] → url ≠ [] →
  Forall (λ c, is_plain c = true) alt → Forall (λ c, is_not ")" c = true) url →
  cleanMarkdown (js "![" ++ alt ++ js "](" ++ url ++ js ")") = js "!" ++ alt.
Proof.
  intros Halt Hurl Hplain Hnp. unfold cleanMarkdown.
  rewrite replace_all_link_on_image; try done.
  2:{ eapply Forall_impl; [exact Hplain|]. intros c Hc. unfold is_plain in Hc. classes. }
  assert (∀ c, c ∈ js "!" ++ alt → is_plain c = true) as Hall.
  { intros c [->|Hc]%elem_of_cons; [done|]. rewrite Forall_forall in Hplain. by apply Hplain. }
  unfold replace_all.
  rewrite (replace_all_from_id image_re _ (λ c, c = cu "]")).
  2:{ apply match_at_image_re. }
  2:{ intros c Hc ->. by apply Hall in Hc. }
  rewrite (replace_all_from_id code_re _ (λ c, c = cu "`")).
  2:{ apply match_at_code_re. }
  2:{ intros c Hc ->. by apply Hall in Hc. }
  rewrite (replace_all_from_id emphasis_re _ (λ c, is_marker c = true)).
  2:{ apply match_at_emphasis_re. }
  2:{ intros c Hc Hm. apply Hall in Hc. unfold is_plain in Hc. rewrite Hm in Hc.
      by rewrite orb_true_r in Hc. }
  done.
Qed.

(** * The properties of the specification *)

(** C2. The ids of the table of contents are not always distinct: on
    the headings [Intro], [Intro 1], [Intro] the second heading has the
    raw slug [intro-1], and the third, a repetition of the first, is
    given the suffixed id [intro-1] as well.  What the counters do give:
    two headings with the same raw slug never share an id. *)
Theorem C2_toc_ids_collide :
  (∀ lowercase_mapping,
     ascii_rows lowercase_mapping →
     TocItem.id <$> parseTOC lowercase_mapping (document [js "# Intro"; js "# Intro 1"; js "# Intro"]) =
       [js "intro"; js "intro-1"; js "intro-1"] ∧
     ¬ NoDup (TocItem.id <$>
                parseTOC lowercase_mapping (document [js "# Intro"; js "# Intro 1"; js "# Intro"]))) ∧
  (∀ lowercase_mapping text i j rawId,
     let rawIds := omap (rawIdOf lowercase_mapping) (split LF text) in
     (i < j)%nat → rawIds !! i = Some rawId → rawIds !! j = Some rawId →
     (TocItem.id <$> parseTOC lowercase_mapping text) !! i ≠
     (TocItem.id <$> parseTOC lowercase_mapping text) !! j).
Proof.
  split; [|apply parseTOC_same_slug_distinct].
  intros tbl Hrows. rewrite parseTOC_ascii by (assumption || (vm_compute; reflexivity)).
  assert (TocItem.id <$> parseTOC basic_lowercase (document [js "# Intro"; js "# Intro 1"; js "# Intro"]) =
          [js "intro"; js "intro-1"; js "intro-1"]) as -> by (vm_compute; reflexivity).
  split; [done|]. intros Hnd. apply NoDup_cons in Hnd as [_ Hnd].
  apply NoDup_cons in Hnd as [Hin _]. apply Hin. by left.
Qed.

Lemma C2_toc_ids_collide_witness :
  ascii_rows basic_lowercase ∧
  (TocItem.id <$> parseTOC basic_lowercase (document [js "# Intro"; js "# Intro 1"; js "# Intro"]) =
     [js "intro"; js "intro-1"; js "intro-1"] ∧
   ¬ NoDup (TocItem.id <$>
              parseTOC basic_lowercase (document [js "# Intro"; js "# Intro 1"; js "# Intro"]))) ∧
  (0 < 2)%nat ∧
  omap (rawIdOf basic_lowercase)
    (split LF (document [js "# Intro"; js "# Intro 1"; js "# Intro"])) !! 0%nat = Some (js "intro") ∧
  omap (rawIdOf basic_lowercase)
    (split LF (document [js "# Intro"; js "# Intro 1"; js "# Intro"])) !! 2%nat = Some (js "intro") ∧
  (TocItem.id <$> parseTOC basic_lowercase (document [js "# Intro"; js "# Intro 1"; js "# Intro"])) !! 0%nat ≠
  (TocItem.id <$> parseTOC basic_lowercase (document [js "# Intro"; js "# Intro 1"; js "# Intro"])) !! 2%nat.
Proof.
  split; [apply basic_lowercase_ascii_rows|].
  split; [apply (proj1 C2_toc_ids_collide basic_lowercase), basic_lowercase_ascii_rows|].
  split; [lia|]. split; [vm_compute; reflexivity|]. split; [vm_compute; reflexivity|].
  apply (proj2 C2_toc_ids_collide basic_lowercase _ 0%nat 2%nat (js "intro")).
  - lia.
  - vm_compute; reflexivity.
  - vm_compute; reflexivity.
Defined.

(** C3. Disambiguation sequence: the headings [Intro], [Intro], [Intro]
    get the ids [intro], [intro-1], [intro-2]; and for every document and
    every case table, the id of the i-th entry is the raw slug of the
    i-th heading when no earlier heading has that raw slug, and the raw
    slug followed by [-k] when [k] earlier headings have it. *)
Theorem C3_disambiguation_sequence :
  (∀ lowercase_mapping, ascii_rows lowercase_mapping →
     TocItem.id <$> parseTOC lowercase_mapping (document [js "# Intro"; js "# Intro"; js "# Intro"]) =
       [js "intro"; js "intro-1"; js "intro-2"]) ∧
  (∀ lowercase_mapping text i,
     let rawIds := omap (rawIdOf lowercase_mapping) (split LF text) in
     (TocItem.id <$> parseTOC lowercase_mapping text) !! i =
       (λ rawId, nth_id rawId (occurrences rawId (take i rawIds))) <$> rawIds !! i) ∧
  (∀ rawId, nth_id rawId 0 = rawId ∧ nth_id rawId 1 = rawId ++ js "-1" ∧
            nth_id rawId 2 = rawId ++ js "-2").
Proof.
  split_and!.
  - intros tbl Hrows. rewrite parseTOC_ascii by (assumption || (vm_compute; reflexivity)).
    vm_compute. done.
  - intros tbl text i. apply parseTOC_ids.
  - done.
Qed.

Lemma C3_disambiguation_sequence_witness :
  ascii_rows basic_lowercase ∧
  TocItem.id <$> parseTOC basic_lowercase (document [js "# Intro"; js "# Intro"; js "# Intro"]) =
    [js "intro"; js "intro-1"; js "intro-2"].
Proof.
  split; [apply basic_lowercase_ascii_rows|].
  apply (proj1 C3_disambiguation_sequence basic_lowercase), basic_lowercase_ascii_rows.
Defined.

(** C4, as stated, fails: after two blank lines the implicit section is
    pushed with [section-0] and dropped afterwards, and the only section
    returned keeps the id [section-1]. *)
Lemma C4_first_section_id_counterexample :
  ∃ s, head (parseMarkdownByH1 (document [js ""; js ""; js "# A"; js "foo"])) = Some s ∧
       DocSection.id s = js "section-1" ∧ DocSection.id s ≠ js "section-0".
Proof. eexists. vm_compute. done. Qed.

(** C4, amended. Section id numbering: the sections are numbered when
    they are pushed, before the leading one is dropped; the sections
    returned have the consecutive ids [section-d], [section-(d+1)], ...
    where [d] is 1 when the empty leading Introduction section was dropped
    and 0 otherwise. *)
Theorem C4_section_ids text :
  let d := if drops_first (collect text) then 1%nat else 0%nat in
  parseMarkdownByH1 text = drop d (collect text) ∧
  DocSection.id <$> parseMarkdownByH1 text =
    section_name <$> seq d (length (parseMarkdownByH1 text)).
Proof.
  unfold parseMarkdownByH1. pose proof (collect_ids text) as Hids.
  destruct (drops_first (collect text)) eqn:Hd; cbv zeta; [|done].
  destruct (collect text) as [|s0 ss]; [done|].
  rewrite fmap_cons in Hids. cbn [length seq] in Hids. rewrite fmap_cons in Hids.
  injection Hids as _ Hids. split; [done|]. exact Hids.
Qed.

(** C5, as stated, fails: a document without level-1 heading can have
    headings of level 2, which are entries of the table of contents. *)
Lemma C5_no_heading_counterexample :
  (∀ line, line ∈ split LF (js "## Sub") → ¬ h1_line line) ∧
  parseTOC basic_lowercase (js "## Sub") ≠ [].
Proof.
  split; [|by vm_compute].
  intros line Hline. apply test_h1_re_false.
  vm_compute in Hline. apply list_elem_of_singleton in Hline as ->. by vm_compute.
Qed.

(** C5, amended. No-heading degradation: for a document without a
    level-1 heading line, [parseMarkdownByH1] returns exactly one section,
    titled [Introduction], whose content is the whole document, trimmed;
    [parseTOC] returns no entry of level 1, and no entry at all when the
    document has no heading line of level 2 or 3 either.  Both functions
    are total: there is no error to raise. *)
Theorem C5_no_heading_degradation lowercase_mapping text :
  (∀ line, line ∈ split LF text → ¬ h1_line line) →
  parseMarkdownByH1 text =
    [ {| DocSection.id := js "section-0";
         DocSection.title := js "Introduction";
         DocSection.content := trim text;
         DocSection.raw := js "# Introduction" ++ [LF; LF] ++ trim text |} ] ∧
  Forall (λ it, TocItem.level it = 2%nat ∨ TocItem.level it = 3%nat)
    (parseTOC lowercase_mapping text) ∧
  ((∀ line, line ∈ split LF text → ¬ heading_line 2 line ∧ ¬ heading_line 3 line) →
   parseTOC lowercase_mapping text = []).
Proof.
  intros Hno. split_and!.
  - apply parseMarkdownByH1_no_h1. apply Forall_forall. intros line Hline.
    by apply test_h1_re_false, Hno.
  - pose proof (parseTOC_headings lowercase_mapping text) as Hh.
    apply Forall_forall. intros it Hit.
    assert ((TocItem.level it, TocItem.title it) ∈ omap headingOf (split LF text)) as Hin.
    { rewrite <- Hh. by apply (list_elem_of_fmap_2 (λ it, (TocItem.level it, TocItem.title it))). }
    apply list_elem_of_omap in Hin as (line & Hline & Hin).
    apply headingOf_Some in Hin as (Hk & Hshape & _).
    destruct (decide (TocItem.level it = 1%nat)) as [H1|]; [|lia].
    rewrite H1 in Hshape. exfalso. by apply (Hno line Hline), heading_line_h1.
  - intros Hno'. pose proof (parseTOC_headings lowercase_mapping text) as Hh.
    assert (omap headingOf (split LF text) = []) as Hnil.
    { destruct (omap headingOf (split LF text)) as [|[k title] l] eqn:Ho; [done|].
      assert ((k, title) ∈ omap headingOf (split LF text)) as Hin by (rewrite Ho; left).
      apply list_elem_of_omap in Hin as (line & Hline & Hin).
      apply headingOf_Some in Hin as (Hk & Hshape & _).
      destruct (Hno' line Hline) as [H2 H3].
      assert (k = 1 ∨ k = 2 ∨ k = 3)%nat as [->|[->| ->]] by lia; try done.
      exfalso. by apply (Hno line Hline), heading_line_h1. }
    rewrite Hnil in Hh. by destruct (parseTOC lowercase_mapping text).
Qed.

Lemma no_h1_line_dec text :
  forallb (λ line, negb (test h1_re line)) (split LF text) = true →
  ∀ line, line ∈ split LF text → ¬ h1_line line.
Proof.
  intros Hall line Hline. apply test_h1_re_false.
  rewrite forallb_forall in Hall. apply negb_true_iff, Hall. by apply list_elem_of_In.
Qed.

Lemma no_heading_line_dec text :
  forallb (λ line, bool_decide (headingOf line = None)) (split LF text) = true →
  ∀ line, line ∈ split LF text → ¬ heading_line 2 line ∧ ¬ heading_line 3 line.
Proof.
  intros Hall line Hline. rewrite forallb_forall in Hall.
  assert (headingOf line = None) as Hnone.
  { eapply bool_decide_eq_true_1, Hall. by apply list_elem_of_In. }
  rewrite headingOf_None in Hnone. split; apply Hnone; lia.
Qed.

Lemma C5_no_heading_degradation_witness :
  (∀ line, line ∈ split LF (js "just text, no headings") → ¬ h1_line line) ∧
  parseMarkdownByH1 (js "just text, no headings") =
    [ {| DocSection.id := js "section-0";
         DocSection.title := js "Introduction";
         DocSection.content := trim (js "just text, no headings");
         DocSection.raw := js "# Introduction" ++ [LF; LF] ++ trim (js "just text, no headings") |} ] ∧
  parseTOC basic_lowercase (js "just text, no headings") = [].
Proof.
  assert (∀ line, line ∈ split LF (js "just text, no headings") → ¬ h1_line line) as Hno.
  { apply no_h1_line_dec. vm_compute. reflexivity. }
  split; [exact Hno|].
  destruct (C5_no_heading_degradation basic_lowercase (js "just text, no headings") Hno)
    as (Hsec & _ & Htoc).
  split; [exact Hsec|]. apply Htoc, no_heading_line_dec. vm_compute. reflexivity.
Defined.

(** C6, as stated, fails: for the line [# # Foo] the title drops the
    second hash and [raw] keeps it. *)
Lemma C6_raw_reconstruction_counterexample :
  ∃ s, s ∈ parseMarkdownByH1 (js "# # Foo") ∧
       DocSection.title s = js "Foo" ∧
       DocSection.raw s = js "# # Foo" ++ [LF; LF] ∧
       DocSection.raw s ≠ js "# " ++ DocSection.title s ++ [LF; LF] ++ DocSection.content s.
Proof. eexists. split; [vm_compute; left|]. by vm_compute. Qed.

(** C6, amended. Raw reconstruction: every section returned is made
    from a heading text [h] and lines [body] of the document: [body] is
    a maximal run of lines that are no level-1 heading lines, [h] is the
    text of the heading line just before them (that line without its hash
    and the whitespace after it, trimmed), or [Introduction] when they are
    the first lines.  The content is [body] joined and trimmed, [raw] is
    ["# " + h + "\n\n" + content], and [title] is [h] without a leading
    hash and the whitespace after it, trimmed.  So [raw] is
    ["# " + title + "\n\n" + content] whenever the heading text does not
    itself begin with a hash. *)
Theorem C6_raw_reconstruction text s :
  s ∈ parseMarkdownByH1 text →
  ∃ h body rest,
    ((h = Introduction ∧ split LF text = body ++ rest) ∨
     (∃ pre line, split LF text = pre ++ line :: body ++ rest ∧ h1_line line ∧
                  h = trim (replace h1_prefix_re [] line))) ∧
    Forall (λ line, ¬ h1_line line) body ∧
    (rest = [] ∨ ∃ line rest', rest = line :: rest' ∧ h1_line line) ∧
    DocSection.content s = trim (join [LF] body) ∧
    DocSection.raw s = js "# " ++ h ++ [LF; LF] ++ DocSection.content s ∧
    DocSection.title s = trim (replace hash_prefix_re [] h) ∧
    (head h ≠ Some (cu "#") →
     DocSection.title s = h ∧
     DocSection.raw s = js "# " ++ DocSection.title s ++ [LF; LF] ++ DocSection.content s).
Proof.
  intros Hs. pose proof (parseMarkdownByH1_from text) as Hall.
  rewrite Forall_forall in Hall.
  destruct (Hall s Hs) as (i & h & body & rest & -> & Hbody & Hrest & Hh).
  exists h, body, rest. split_and!; try done.
  intros Hhead. cbn [block_section DocSection.title DocSection.raw DocSection.content].
  rewrite replace_hash_prefix_other by done.
  assert (trim h = h) as ->; [|done].
  destruct Hh as [[-> _]|(pre & line & _ & _ & ->)]; [done|apply trim_idempotent].
Qed.

Lemma C6_raw_reconstruction_witness :
  let s := {| DocSection.id := js "section-1"; DocSection.title := js "B";
              DocSection.content := js "bar";
              DocSection.raw := js "# B" ++ [LF; LF] ++ js "bar" |} in
  s ∈ parseMarkdownByH1 (document [js "# A"; js "foo"; js "# B"; js "bar"]) ∧
  ∃ h body rest,
    ((h = Introduction ∧
      split LF (document [js "# A"; js "foo"; js "# B"; js "bar"]) = body ++ rest) ∨
     (∃ pre line,
        split LF (document [js "# A"; js "foo"; js "# B"; js "bar"]) =
          pre ++ line :: body ++ rest ∧
        h1_line line ∧ h = trim (replace h1_prefix_re [] line))) ∧
    Forall (λ line, ¬ h1_line line) body ∧
    (rest = [] ∨ ∃ line rest', rest = line :: rest' ∧ h1_line line) ∧
    DocSection.content s = trim (join [LF] body) ∧
    DocSection.raw s = js "# " ++ h ++ [LF; LF] ++ DocSection.content s ∧
    DocSection.title s = trim (replace hash_prefix_re [] h) ∧
    (head h ≠ Some (cu "#") →
     DocSection.title s = h ∧
     DocSection.raw s = js "# " ++ DocSection.title s ++ [LF; LF] ++ DocSection.content s).
Proof.
  intros s.
  assert (s ∈ parseMarkdownByH1 (document [js "# A"; js "foo"; js "# B"; js "bar"])) as Hs.
  { vm_compute. right. left. }
  split; [exact Hs|]. exact (C6_raw_reconstruction _ s Hs).
Defined.

(** C7. Image-syntax cleaning fails on the code: the link pattern is
    applied first and matches inside the image syntax, so the exclamation
    mark stays and the image pattern no longer applies, although alone it
    gives the alternative text, as the comment in the source promises
    ([![text](url) -> text]).  For [![logo](a.png)] the result is
    [!logo]; and for every non-empty alternative text without closing
    bracket, backquote, star and underscore and every non-empty url
    without closing parenthesis, the result is the alternative text after
    an exclamation mark, never the alternative text. *)
Theorem C7_image_cleaning :
  cleanMarkdown (js "![logo](a.png)") = js "!logo" ∧
  replace_all image_re [Ref 1] (js "![logo](a.png)") = js "logo" ∧
  ∀ alt url,
    alt ≠ [] → url ≠ [] →
    Forall (λ c, is_plain c = true) alt → Forall (λ c, is_not ")" c = true) url →
    cleanMarkdown (js "![" ++ alt ++ js "](" ++ url ++ js ")") = js "!" ++ alt ∧
    cleanMarkdown (js "![" ++ alt ++ js "](" ++ url ++ js ")") ≠ alt.
Proof.
  split; [by vm_compute|]. split; [by vm_compute|].
  intros alt url Halt Hurl Hplain Hnp. rewrite cleanMarkdown_image by done.
  split; [done|]. intros Heq. apply (f_equal length) in Heq. simpl in Heq. lia.
Qed.

Lemma C7_image_cleaning_witness :
  js "logo" ≠ [] ∧ js "a.png" ≠ [] ∧
  Forall (λ c, is_plain c = true) (js "logo") ∧
  Forall (λ c, is_not ")" c = true) (js "a.png") ∧
  cleanMarkdown (js "![" ++ js "logo" ++ js "](" ++ js "a.png" ++ js ")") = js "!" ++ js "logo".
Proof.
  assert (Forall (λ c, is_plain c = true) (js "logo")) as Hplain by (repeat constructor).
  assert (Forall (λ c, is_not ")" c = true) (js "a.png")) as Hnp by (repeat constructor).
  split; [done|]. split; [done|]. split; [exact Hplain|]. split; [exact Hnp|].
  apply (proj2 (proj2 C7_image_cleaning) (js "logo") (js "a.png")); done.
Defined.

(** C8, as stated, fails: stripping the character between two unpaired
    surrogates joins them into the pair of U+10400, which has a lowercase
    mapping, U+10428. *)
Lemma C8_slugify_idempotence_counterexample :
  slugify basic_lowercase [0xD801; cu "!"; 0xDC00] = [0xD801; 0xDC00] ∧
  slugify basic_lowercase (slugify basic_lowercase [0xD801; cu "!"; 0xDC00]) = [0xD801; 0xDC28] ∧
  slugify basic_lowercase (slugify basic_lowercase [0xD801; cu "!"; 0xDC00]) ≠
    slugify basic_lowercase [0xD801; cu "!"; 0xDC00].
Proof. by vm_compute. Qed.

(** C8, amended. Slugify idempotence: for every well-formed string [t]
    (no unpaired surrogate), [slugify (slugify t) = slugify t], for every
    case table that obeys the laws of the Unicode one: no mapping for the
    hyphen, scalar values are mapped to scalar values, and these have no
    mapping themselves. *)
Theorem C8_slugify_idempotence lowercase_mapping t :
  case_table_laws lowercase_mapping → isWellFormed t = true →
  slugify lowercase_mapping (slugify lowercase_mapping t) = slugify lowercase_mapping t.
Proof. intros Hlaws Hwf. by apply slugify_idempotent. Qed.

Lemma C8_slugify_idempotence_witness :
  case_table_laws basic_lowercase ∧ isWellFormed (js "Hello,  World!") = true ∧
  slugify basic_lowercase (slugify basic_lowercase (js "Hello,  World!")) =
    slugify basic_lowercase (js "Hello,  World!").
Proof.
  split; [apply basic_lowercase_laws|]. split; [reflexivity|].
  apply (C8_slugify_idempotence basic_lowercase (js "Hello,  World!")).
  - apply basic_lowercase_laws.
  - reflexivity.
Defined.

(** C9. TOC depth filter: a line of four hashes gives no entry and
    [### Three] gives one entry of level 3; the entries are those of the
    lines made of one to three hashes, whitespace and text in which [.]
    matches every character, with the number of hashes as level.  But a
    line of one to three hashes, whitespace and non-empty text is not
    always taken for a heading: when it ends with a carriage return, as
    every line of a file with CR LF line ends does, [.] does not match
    that character and [$] is not reached, so the table of contents
    misses the heading, which the splitter recognises. *)
Theorem C9_toc_depth_filter :
  (∀ lowercase_mapping text,
     (λ it, (TocItem.level it, TocItem.title it)) <$> parseTOC lowercase_mapping text =
       omap headingOf (split LF text)) ∧
  (∀ line k title,
     headingOf line = Some (k, title) ↔
     (1 ≤ k ≤ 3)%nat ∧ heading_line k line ∧ title = trim (drop k line)) ∧
  (∀ lowercase_mapping,
     ascii_rows lowercase_mapping →
     parseTOC lowercase_mapping (js "#### Four") = [] ∧
     parseTOC lowercase_mapping (js "### Three") =
       [ {| TocItem.id := js "three"; TocItem.title := js "Three"; TocItem.level := 3 |} ] ∧
     parseTOC lowercase_mapping (js "### Three" ++ [CR; LF] ++ js "body") = [] ∧
     parseTOC lowercase_mapping (js "# One" ++ [CR; LF] ++ js "body") = []) ∧
  split LF (js "### Three" ++ [CR; LF] ++ js "body") = [js "### Three" ++ [CR]; js "body"] ∧
  (∃ ws text, js "### Three" ++ [CR] = replicate 3 (cu "#") ++ ws ++ text ∧
              ws ≠ [] ∧ Forall (λ c, is_space c = true) ws ∧ text ≠ []) ∧
  DocSection.title <$> parseMarkdownByH1 (js "# One" ++ [CR; LF] ++ js "body") = [js "One"].
Proof.
  split_and!.
  - apply parseTOC_headings.
  - apply headingOf_spec.
  - intros tbl Hrows.
    split_and!; try rewrite parseTOC_ascii by (assumption || (vm_compute; reflexivity));
      by vm_compute.
  - by vm_compute.
  - exists (js " "), (js "Three" ++ [CR]). split_and!; try done. by repeat constructor.
  - by vm_compute.
Qed.

Lemma C9_toc_depth_filter_witness :
  ascii_rows basic_lowercase ∧
  parseTOC basic_lowercase (js "#### Four") = [] ∧
  parseTOC basic_lowercase (js "### Three") =
    [ {| TocItem.id := js "three"; TocItem.title := js "Three"; TocItem.level := 3 |} ] ∧
  parseTOC basic_lowercase (js "### Three" ++ [CR; LF] ++ js "body") = [] ∧
  parseTOC basic_lowercase (js "# One" ++ [CR; LF] ++ js "body") = [].
Proof.
  split; [apply basic_lowercase_ascii_rows|].
  destruct C9_toc_depth_filter as (_ & _ & Heval & _).
  apply (Heval basic_lowercase), basic_lowercase_ascii_rows.
Defined.

(** C10. Code fences are not tracked: in the document of the three
    lines [```], [# X], [```], the splitter starts a section [X] at the
    second line and the table of contents has an entry for it. *)
Theorem C10_fences_not_tracked lowercase_mapping :
  ascii_rows lowercase_mapping →
  parseMarkdownByH1 (document [js "```"; js "# X"; js "```"]) =
    [ {| DocSection.id := js "section-0"; DocSection.title := js "Introduction";
         DocSection.content := js "```";
         DocSection.raw := js "# Introduction" ++ [LF; LF] ++ js "```" |};
      {| DocSection.id := js "section-1"; DocSection.title := js "X";
         DocSection.content := js "```";
         DocSection.raw := js "# X" ++ [LF; LF] ++ js "```" |} ] ∧
  parseTOC lowercase_mapping (document [js "```"; js "# X"; js "```"]) =
    [ {| TocItem.id := js "x"; TocItem.title := js "X"; TocItem.level := 1 |} ].
Proof.
  intros Hrows. rewrite parseTOC_ascii by (assumption || (vm_compute; reflexivity)).
  by vm_compute.
Qed.

Lemma C10_fences_not_tracked_witness :
  ascii_rows basic_lowercase ∧
  parseTOC basic_lowercase (document [js "```"; js "# X"; js "```"]) =
    [ {| TocItem.id := js "x"; TocItem.title := js "X"; TocItem.level := 1 |} ].
Proof.
  split; [apply basic_lowercase_ascii_rows|].
  apply (C10_fences_not_tracked basic_lowercase), basic_lowercase_ascii_rows.
Defined.

(** * Further properties of the code *)

(** ** [escapeHtml] *)

Lemma replace_all_from_chr a t s i :
  replace_all_from (Chr a) [Lit t] 0 i s = flat_map (λ c, if c =? cu a then t else [c]) s.
Proof.
  revert i. induction s as [|c s IH]; intros i; [done|].
  cbn [replace_all_from flat_map]. unfold match_at. cbn [rmatch].
  destruct (c =? cu a).
  - replace (S i - i)%nat with 1%nat by lia. rewrite IH.
    unfold expand. simpl. by rewrite app_nil_r.
  - by rewrite IH.
Qed.

Lemma replace_all_chr a t s :
  replace_all (Chr a) [Lit t] s = flat_map (λ c, if c =? cu a then t else [c]) s.
Proof. apply replace_all_from_chr. Qed.

Lemma flat_map_flat_map {A B C} (f : B → list C) (g : A → list B) (l : list A) :
  flat_map f (flat_map g l) = flat_map (λ x, flat_map f (g x)) l.
Proof. induction l as [|x l IH]; simpl; [done|]. by rewrite flat_map_app, IH. Qed.

(** The five replacements amount to one pass that maps every code unit
    to its entity: the ampersands of the entities are not escaped again. *)
Lemma escapeHtml_chars s : escapeHtml s = flat_map escape_char s.
Proof.
  unfold escapeHtml. rewrite !replace_all_chr, !flat_map_flat_map.
  apply flat_map_ext. intros c. unfold escape_char.
  change (cu "&") with 38. change (cu "<") with 60. change (cu ">") with 62.
  change (cu "034") with 34. change (cu "'") with 39.
  destruct (Z.eqb_spec c 38) as [->|]; [done|].
  destruct (Z.eqb_spec c 60) as [->|]; [done|].
  destruct (Z.eqb_spec c 62) as [->|]; [done|].
  destruct (Z.eqb_spec c 34) as [->|]; [done|].
  destruct (Z.eqb_spec c 39) as [->|]; [done|].
  simpl. decide_cmp. simpl. decide_cmp. simpl. decide_cmp. simpl. decide_cmp. simpl.
  decide_cmp. done.
Qed.

Lemma escape_char_safe c : Forall (λ c', is_html_special c' = false) (escape_char c).
Proof.
  unfold escape_char.
  change (cu "&") with 38. change (cu "<") with 60. change (cu ">") with 62.
  change (cu "034") with 34. change (cu "'") with 39.
  destruct (Z.eqb_spec c 38); [by repeat constructor|].
  destruct (Z.eqb_spec c 60); [by repeat constructor|].
  destruct (Z.eqb_spec c 62); [by repeat constructor|].
  destruct (Z.eqb_spec c 34); [by repeat constructor|].
  destruct (Z.eqb_spec c 39); [by repeat constructor|].
  constructor; [|done]. unfold is_html_special.
  change (cu "<") with 60. change (cu ">") with 62.
  change (cu "034") with 34. change (cu "'") with 39. decide_cmp. done.
Qed.

(** Two code units with entities that start the same way are equal. *)
Lemma escape_char_prefix c1 c2 s1 s2 :
  escape_char c1 ++ s1 = escape_char c2 ++ s2 → c1 = c2.
Proof.
  unfold escape_char.
  change (cu "&") with 38. change (cu "<") with 60. change (cu ">") with 62.
  change (cu "034") with 34. change (cu "'") with 39.
  destruct (Z.eqb_spec c1 38); [|destruct (Z.eqb_spec c1 60); [|destruct (Z.eqb_spec c1 62);
    [|destruct (Z.eqb_spec c1 34); [|destruct (Z.eqb_spec c1 39)]]]];
  (destruct (Z.eqb_spec c2 38); [|destruct (Z.eqb_spec c2 60); [|destruct (Z.eqb_spec c2 62);
    [|destruct (Z.eqb_spec c2 34); [|destruct (Z.eqb_spec c2 39)]]]]);
  intros Heq; vm_compute in Heq; revert Heq; intros [=]; lia.
Qed.

Lemma escape_char_nonempty c : escape_char c ≠ [].
Proof.
  unfold escape_char. repeat (destruct (_ =? _); [done|]). done.
Qed.

Lemma flat_map_escape_char_inj a b :
  flat_map escape_char a = flat_map escape_char b → a = b.
Proof.
  revert b. induction a as [|c1 a IH]; intros [|c2 b]; simpl; intros Heq.
  - done.
  - symmetry in Heq. apply app_eq_nil in Heq as [Heq _]. by apply escape_char_nonempty in Heq.
  - apply app_eq_nil in Heq as [Heq _]. by apply escape_char_nonempty in Heq.
  - pose proof (escape_char_prefix _ _ _ _ Heq) as ->.
    apply app_inv_head in Heq. by rewrite (IH b Heq).
Qed.

(** X1. [escapeHtml] escapes every code unit once: its result is the
    concatenation of the entities of the code units of its argument, the
    ampersands that the entities bring are not escaped again.  So it
    distributes over concatenation and leaves text without [&], [<], [>]
    and the two quotes as it is. *)
Theorem X1_escapeHtml_one_pass :
  (∀ s, escapeHtml s = flat_map escape_char s) ∧
  (∀ s1 s2, escapeHtml (s1 ++ s2) = escapeHtml s1 ++ escapeHtml s2) ∧
  (∀ s, Forall (λ c, c ≠ cu "&" ∧ is_html_special c = false) s → escapeHtml s = s).
Proof.
  split_and!.
  - apply escapeHtml_chars.
  - intros s1 s2. rewrite !escapeHtml_chars. apply flat_map_app.
  - intros s Hs. rewrite escapeHtml_chars. induction Hs as [|c s [Hamp Hc] _ IH]; [done|].
    simpl. rewrite IH. f_equal. unfold escape_char, is_html_special in *.
    apply orb_false_iff in Hc as [Hc H4]. apply orb_false_iff in Hc as [Hc H3].
    apply orb_false_iff in Hc as [H1 H2]. rewrite H1, H2, H3, H4.
    by rewrite (proj2 (Z.eqb_neq _ _) Hamp).
Qed.

Lemma X1_escapeHtml_one_pass_witness :
  Forall (λ c, c ≠ cu "&" ∧ is_html_special c = false) (js "plain text") ∧
  escapeHtml (js "plain text") = js "plain text".
Proof.
  assert (Forall (λ c, c ≠ cu "&" ∧ is_html_special c = false) (js "plain text")) as Hs.
  { repeat constructor; done. }
  split; [exact Hs|]. exact (proj2 (proj2 X1_escapeHtml_one_pass) _ Hs).
Defined.

(** X2. The result of [escapeHtml] contains none of [<], [>], the double
    quote and the single quote, whatever the argument: it cannot open or
    close a tag or an attribute value. *)
Theorem X2_escapeHtml_safe s :
  Forall (λ c, is_html_special c = false) (escapeHtml s).
Proof.
  rewrite escapeHtml_chars. induction s as [|c s IH]; simpl; [done|].
  apply Forall_app. split; [apply escape_char_safe|done].
Qed.

(** X3. [escapeHtml] loses nothing: two different texts have different
    escaped forms. *)
Theorem X3_escapeHtml_injective a b : escapeHtml a = escapeHtml b → a = b.
Proof. rewrite !escapeHtml_chars. apply flat_map_escape_char_inj. Qed.

Lemma X3_escapeHtml_injective_witness :
  escapeHtml (js "a<b") = escapeHtml (js "a<b") ∧ js "a<b" = js "a<b".
Proof. split; [reflexivity|]. by apply X3_escapeHtml_injective. Defined.

(** ** [slugify] on ASCII text *)

Lemma trimStart_all_spaces ws : Forall (λ c, is_space c = true) ws → trimStart ws = [].
Proof. induction 1 as [|c ws Hc _ IH]; simpl; [done|]. by rewrite Hc. Qed.

Lemma trimEnd_all_spaces ws : Forall (λ c, is_space c = true) ws → trimEnd ws = [].
Proof. induction 1 as [|c ws Hc _ IH]; simpl; [done|]. by rewrite IH, Hc. Qed.

Lemma trimEnd_app_spaces x ws :
  Forall (λ c, is_space c = true) ws → trimEnd (x ++ ws) = trimEnd x.
Proof.
  intros Hws. induction x as [|c x IH]; simpl; [by apply trimEnd_all_spaces|].
  by rewrite IH.
Qed.

Lemma trimEnd_app_keep x y : trimEnd y ≠ [] → trimEnd (x ++ y) = x ++ trimEnd y.
Proof.
  intros Hy. induction x as [|c x IH]; simpl; [done|].
  rewrite IH. destruct (x ++ trimEnd y) eqn:Hxy; [|done].
  apply app_eq_nil in Hxy as [_ Hxy]. done.
Qed.

(** Whitespace around a text that neither starts nor ends with
    whitespace is what [trim] removes. *)
Lemma trim_core ws1 x ws2 :
  Forall (λ c, is_space c = true) ws1 → Forall (λ c, is_space c = true) ws2 →
  match x with [] => True | c :: _ => is_space c = false end → trimEnd x = x →
  trim (ws1 ++ x ++ ws2) = x.
Proof.
  intros H1 H2 Hhead Hend. unfold trim. rewrite trimStart_spaces by done.
  destruct x as [|c x]; simpl app.
  - by rewrite trimStart_all_spaces.
  - cbn [trimStart]. rewrite Hhead. change (c :: x ++ ws2) with ((c :: x) ++ ws2).
    by rewrite trimEnd_app_spaces.
Qed.

Lemma collapse_app_keep p t x s :
  Forall (λ c, p c = false) x → x ≠ [] →
  collapse p t false (x ++ s) = x ++ collapse p t false s ∧
  collapse p t true (x ++ s) = x ++ collapse p t false s.
Proof.
  intros Hx. induction Hx as [|c x Hc Hx IH]; [done|]. intros _. simpl. rewrite Hc.
  destruct x as [|c' x]; [done|]. destruct IH as [-> _]; done.
Qed.

Lemma collapse_app_run p t b ws s :
  Forall (λ c, p c = true) ws → ws ≠ [] →
  collapse p t b (ws ++ s) = (if b then [] else t) ++ collapse p t true s.
Proof.
  intros Hws. revert b. induction Hws as [|c ws Hc Hws IH]; [done|]. intros b _. simpl.
  rewrite Hc. destruct ws as [|c' ws]; [done|]. by rewrite IH.
Qed.

Lemma filter_slug_id s :
  Forall (λ c, not_slug_char c = false) s → filter (λ c, not_slug_char c = false) s = s.
Proof. induction 1 as [|c s Hc _ IH]; [done|]. by rewrite filter_cons_True, IH. Qed.

Lemma filter_slug_none s :
  Forall (λ c, not_slug_char c = true) s → filter (λ c, not_slug_char c = false) s = [].
Proof.
  induction 1 as [|c s Hc _ IH]; [done|]. by rewrite filter_cons_False by congruence.
Qed.

Lemma is_ascii_app s1 s2 : is_ascii (s1 ++ s2) = is_ascii s1 && is_ascii s2.
Proof. unfold is_ascii. apply forallb_app. Qed.

Lemma is_ascii_Forall (P : Z → Prop) s :
  (∀ c, P c → 0 ≤ c < 128) → Forall P s → is_ascii s = true.
Proof.
  intros HP. induction 1 as [|c s Hc _ IH]; [done|]. simpl. rewrite IH.
  apply HP in Hc. decide_cmp. done.
Qed.

Lemma ascii_lower_id_Forall (P : Z → Prop) s :
  (∀ c, P c → is_ascii_upper c = false) → Forall P s → ascii_lower <$> s = s.
Proof.
  intros HP. induction 1 as [|c s Hc _ IH]; [done|]. rewrite fmap_cons, IH. f_equal.
  apply HP in Hc. unfold ascii_lower, is_ascii_upper in *. by rewrite Hc.
Qed.

Lemma is_ascii_space_spec c : is_ascii_space c = true → is_space c = true ∧ 0 ≤ c < 128.
Proof. intros H. split; [|split]; ascii_classes. Qed.

Lemma is_slug_ascii_spec c :
  is_slug_ascii c = true → 0 ≤ c < 128 ∧ is_space c = false.
Proof. intros H. split; [split|]; ascii_classes. Qed.

Lemma ascii_lower_slug a :
  Forall (λ c, is_slug_ascii c = true) a →
  Forall (λ c, is_slug_ascii c = true) (ascii_lower <$> a).
Proof.
  induction 1 as [|c a Hc _ IH]; [done|]. rewrite fmap_cons. constructor; [|done].
  clear IH. unfold ascii_lower. destruct ((65 <=? c) && (c <=? 90)) eqn:Hup; [|done].
  clear Hc. unfold is_slug_ascii, is_word. bool_hyps. decide_cmp. done.
Qed.

Lemma slug_ascii_no_space a :
  Forall (λ c, is_slug_ascii c = true) a → Forall (λ c, is_space c = false) a.
Proof. intros H. eapply Forall_impl; [exact H|]. intros c Hc. by apply is_slug_ascii_spec. Qed.

Lemma slug_ascii_slug a :
  Forall (λ c, is_slug_ascii c = true) a → Forall (λ c, not_slug_char c = false) a.
Proof.
  intros H. eapply Forall_impl; [exact H|]. intros c Hc.
  unfold not_slug_char, is_slug_char, is_slug_ascii in *.
  apply orb_true_iff in Hc as [-> | ->]; [done|]. by rewrite orb_true_r.
Qed.

(** X4. Whatever its argument, [slugify] returns only word characters
    (letters, digits, underscore), hyphens and code units from U+0080 to
    U+FFFF, and no whitespace: the id has no blank and no ASCII
    punctuation. *)
Theorem X4_slugify_alphabet lowercase_mapping t :
  Forall (λ c, is_slug_char c = true ∧ is_space c = false) (slugify lowercase_mapping t).
Proof.
  apply Forall_and. split.
  - eapply Forall_impl; [apply slugify_slug_chars|]. intros c Hc.
    unfold not_slug_char in Hc. by apply negb_false_iff.
  - apply slugify_no_space.
Qed.

(** X5. On two ASCII words (letters, digits, underscores, hyphens)
    separated and surrounded by ASCII whitespace, [slugify] gives the two
    words in lower case joined by one hyphen: the outer whitespace is
    trimmed and the whole run between the words becomes a single hyphen. *)
Theorem X5_slugify_words lowercase_mapping ws1 a ws b ws2 :
  ascii_rows lowercase_mapping →
  Forall (λ c, is_ascii_space c = true) ws1 →
  Forall (λ c, is_slug_ascii c = true) a → a ≠ [] →
  Forall (λ c, is_ascii_space c = true) ws → ws ≠ [] →
  Forall (λ c, is_slug_ascii c = true) b → b ≠ [] →
  Forall (λ c, is_ascii_space c = true) ws2 →
  slugify lowercase_mapping (ws1 ++ a ++ ws ++ b ++ ws2) =
    (ascii_lower <$> a) ++ js "-" ++ (ascii_lower <$> b).
Proof.
  intros Hrows H1 Ha Hane Hw Hwne Hb Hbne H2.
  assert (∀ l, Forall (λ c, is_ascii_space c = true) l →
               Forall (λ c, is_space c = true) l ∧ is_ascii l = true ∧ ascii_lower <$> l = l)
    as Hsp.
  { intros l Hl. split_and!.
    - eapply Forall_impl; [exact Hl|]. intros c Hc. by apply is_ascii_space_spec.
    - eapply is_ascii_Forall; [|exact Hl]. intros c Hc. by apply is_ascii_space_spec.
    - eapply ascii_lower_id_Forall; [|exact Hl]. intros c Hc. ascii_classes. }
  assert (∀ l, Forall (λ c, is_slug_ascii c = true) l → is_ascii l = true) as Hsl.
  { intros l Hl. eapply is_ascii_Forall; [|exact Hl]. intros c Hc. by apply is_slug_ascii_spec. }
  destruct (Hsp ws1 H1) as (S1 & A1 & L1). destruct (Hsp ws Hw) as (Sw & Aw & Lw).
  destruct (Hsp ws2 H2) as (S2 & A2 & L2).
  rewrite slugify_steps, toLowerCase_ascii.
  2:{ done. }
  2:{ rewrite !is_ascii_app, A1, Aw, A2, (Hsl a Ha), (Hsl b Hb). done. }
  rewrite !fmap_app, L1, Lw, L2.
  pose proof (ascii_lower_slug a Ha) as HA. pose proof (ascii_lower_slug b Hb) as HB.
  set (A := ascii_lower <$> a) in *. set (B := ascii_lower <$> b) in *.
  assert (A ≠ []) as HAne by (subst A; by destruct a).
  assert (B ≠ []) as HBne by (subst B; by destruct b).
  pose proof (slug_ascii_no_space A HA) as HAs. pose proof (slug_ascii_no_space B HB) as HBs.
  assert (trim (ws1 ++ A ++ ws ++ B ++ ws2) = A ++ ws ++ B) as ->.
  { replace (ws1 ++ A ++ ws ++ B ++ ws2) with (ws1 ++ (A ++ ws ++ B) ++ ws2)
      by by rewrite <- !app_assoc.
    apply trim_core; try done.
    - destruct HAs as [|c A' Hc _]; [done|]. done.
    - rewrite !app_assoc. rewrite trimEnd_app_keep; rewrite trimEnd_id; done. }
  destruct (collapse_app_keep is_space (js "-") A (ws ++ B) HAs HAne) as [-> _].
  rewrite (collapse_app_run is_space (js "-") false ws B Sw Hwne).
  replace B with (B ++ []) at 1 by apply app_nil_r.
  destruct (collapse_app_keep is_space (js "-") B [] HBs HBne) as [_ ->].
  simpl. rewrite app_nil_r. apply filter_slug_id.
  apply Forall_app. split; [by apply slug_ascii_slug|].
  constructor; [done|by apply slug_ascii_slug].
Qed.

Lemma X5_slugify_words_witness :
  ascii_rows basic_lowercase ∧
  slugify basic_lowercase (js " " ++ js "Getting" ++ js "  " ++ js "Started" ++ js " ") =
    (ascii_lower <$> js "Getting") ++ js "-" ++ (ascii_lower <$> js "Started").
Proof.
  split; [apply basic_lowercase_ascii_rows|].
  apply X5_slugify_words; try done; try (by repeat constructor).
  apply basic_lowercase_ascii_rows.
Defined.

(** X6. For a well-formed string and a case table with the laws of
    the Unicode one and the Basic Latin rows, [slugify] returns no ASCII
    capital letter. *)
Theorem X6_slugify_lower_case lowercase_mapping t :
  case_table_laws lowercase_mapping → ascii_rows lowercase_mapping →
  isWellFormed t = true →
  Forall (λ c, is_ascii_upper c = false) (slugify lowercase_mapping t).
Proof.
  intros Hlaws Hrows Hwf.
  induction (slugify_lowered _ Hlaws t Hwf) as [|c s Hc Hh Hl Hst _ IH|h l s Hh Hl _ _ IH].
  - constructor.
  - constructor; [|done]. destruct (is_ascii_upper c) eqn:Hup; [|done].
    specialize (Hst [] []). rewrite Hrows in Hst by ascii_classes.
    unfold ascii_lower in Hst. unfold is_ascii_upper in Hup. rewrite Hup in Hst.
    injection Hst. lia.
  - constructor; [ascii_classes|]. constructor; [ascii_classes|done].
Qed.

Lemma X6_slugify_lower_case_witness :
  case_table_laws basic_lowercase ∧ ascii_rows basic_lowercase ∧
  isWellFormed (js "Hello World") = true ∧
  Forall (λ c, is_ascii_upper c = false) (slugify basic_lowercase (js "Hello World")).
Proof.
  split; [apply basic_lowercase_laws|]. split; [apply basic_lowercase_ascii_rows|].
  split; [reflexivity|].
  apply X6_slugify_lower_case;
    [apply basic_lowercase_laws|apply basic_lowercase_ascii_rows|reflexivity].
Defined.

(** X7. A text made only of ASCII punctuation, with ASCII whitespace
    around it or alone, has the empty slug. *)
Theorem X7_slugify_empty lowercase_mapping ws1 p ws2 :
  ascii_rows lowercase_mapping →
  Forall (λ c, is_ascii_space c = true) ws1 →
  Forall (λ c, is_ascii_punct c = true) p →
  Forall (λ c, is_ascii_space c = true) ws2 →
  slugify lowercase_mapping (ws1 ++ p ++ ws2) = [].
Proof.
  intros Hrows H1 Hp H2.
  assert (∀ l, Forall (λ c, is_ascii_space c = true) l →
               Forall (λ c, is_space c = true) l ∧ is_ascii l = true ∧ ascii_lower <$> l = l)
    as Hsp.
  { intros l Hl. split_and!.
    - eapply Forall_impl; [exact Hl|]. intros c Hc. by apply is_ascii_space_spec.
    - eapply is_ascii_Forall; [|exact Hl]. intros c Hc. by apply is_ascii_space_spec.
    - eapply ascii_lower_id_Forall; [|exact Hl]. intros c Hc. ascii_classes. }
  destruct (Hsp ws1 H1) as (S1 & A1 & L1). destruct (Hsp ws2 H2) as (S2 & A2 & L2).
  assert (is_ascii p = true) as Ap.
  { eapply is_ascii_Forall; [|exact Hp]. intros c Hc. ascii_classes. }
  assert (ascii_lower <$> p = p) as Lp.
  { eapply ascii_lower_id_Forall; [|exact Hp]. intros c Hc.
    unfold is_ascii_punct, is_slug_ascii, is_word, is_ascii_upper in *.
    destruct ((65 <=? c) && (c <=? 90)); [|done]. simpl in Hc.
    by rewrite andb_false_r in Hc. }
  assert (Forall (λ c, is_space c = false) p) as Sp.
  { eapply Forall_impl; [exact Hp|]. intros c Hc. unfold is_ascii_punct in Hc.
    apply andb_true_iff in Hc as [_ Hc]. by apply negb_true_iff. }
  assert (Forall (λ c, not_slug_char c = true) p) as Np.
  { eapply Forall_impl; [exact Hp|]. intros c Hc.
    unfold is_ascii_punct, not_slug_char, is_slug_char, is_slug_ascii in *.
    apply andb_true_iff in Hc as [Hc _]. apply andb_true_iff in Hc as [Hc Hn].
    apply negb_true_iff in Hn. rewrite Hn. simpl. apply andb_true_iff in Hc as [H0 H128].
    apply Z.ltb_lt in H128. decide_cmp. done. }
  rewrite slugify_steps, toLowerCase_ascii.
  2:{ done. }
  2:{ by rewrite !is_ascii_app, A1, Ap, A2. }
  rewrite !fmap_app, L1, Lp, L2. rewrite trim_core; try done.
  - rewrite collapse_id by done. by apply filter_slug_none.
  - by destruct Sp.
  - by apply trimEnd_id.
Qed.

Lemma X7_slugify_empty_witness :
  ascii_rows basic_lowercase ∧
  slugify basic_lowercase (js " " ++ js "?!..." ++ js "") = [].
Proof.
  split; [apply basic_lowercase_ascii_rows|].
  apply X7_slugify_empty; try (by repeat constructor). apply basic_lowercase_ascii_rows.
Defined.

(** ** [cleanMarkdown] on one construct in plain text *)

(** As [rep_longest], with an upper bound that the run respects. *)
Lemma rep_longest_bounded {R} p lo hi i l s' (k : nat → jsstring → option R) x :
  Forall (λ c, p c = true) l → run p s' = O → (lo ≤ length l)%nat → within hi (length l) →
  k (i + length l)%nat s' = Some x → rep p lo hi i (l ++ s') k = Some x.
Proof.
  revert lo hi i. induction l as [|c l IH]; intros lo hi i Hall Hrun Hlo Hhi Hk; simpl in *.
  - rewrite Nat.add_0_r in Hk. assert (lo = O) as -> by lia.
    destruct s' as [|c s']; simpl; [done|].
    simpl in Hrun. destruct (p c); [done|]. done.
  - inversion Hall as [|?? Hpc Hall']; subst. rewrite Hpc. simpl.
    rewrite Nat.add_succ_r in Hk.
    case_bool_decide as Hz; simpl.
    { subst hi. simpl in Hhi. lia. }
    rewrite (IH (Nat.pred lo) (Nat.pred <$> hi) (S i)); auto; [lia|].
    destruct hi as [h|]; simpl in *; [lia|done].
Qed.

(** Where no match can start, the text is copied. *)
Lemma replace_all_from_prefix r t (P : Z → Prop) pre s i :
  (∀ j s' x, match_at r j s' = Some x → ∃ c s'', s' = c :: s'' ∧ P c) →
  Forall (λ c, ¬ P c) pre →
  replace_all_from r t 0 i (pre ++ s) = pre ++ replace_all_from r t 0 (i + length pre) s.
Proof.
  intros Hhead Hpre. revert i. induction Hpre as [|c pre Hc _ IH]; intros i.
  - simpl. by rewrite Nat.add_0_r.
  - simpl app. cbn [replace_all_from].
    destruct (match_at r i (c :: pre ++ s)) as [[len cs]|] eqn:Hm.
    + apply Hhead in Hm as (c' & s'' & [= <- _] & HP). done.
    + rewrite IH. simpl. do 3 f_equal. lia.
Qed.

Lemma match_at_link_re_head i s x :
  match_at link_re i s = Some x → ∃ c s'', s = c :: s'' ∧ c = cu "[".
Proof.
  intros Hm. apply rmatch_sound in Hm as (i' & s' & cs' & Hm & _). simpl in Hm.
  destruct Hm as (? & s1 & ? & (-> & _) & _). eauto.
Qed.

Lemma match_at_link_re_needs i s x : match_at link_re i s = Some x → ∃ c, c ∈ s ∧ c = cu "]".
Proof.
  intros Hm. apply rmatch_sound in Hm as (i' & s' & cs' & Hm & _). simpl in Hm.
  destruct Hm as (? & s1 & ? & (-> & _) & Hm).
  destruct Hm as (? & s2 & ? & (? & ((l & -> & _) & _) & _) & Hm).
  destruct Hm as (? & s3 & ? & (-> & _) & _).
  exists (cu "]"). split; [|done]. right. apply elem_of_app. right. by left.
Qed.

Lemma match_at_code_re_head i s x :
  match_at code_re i s = Some x → ∃ c s'', s = c :: s'' ∧ c = cu "`".
Proof.
  intros Hm. apply rmatch_sound in Hm as (i' & s' & cs' & Hm & _). simpl in Hm.
  destruct Hm as (? & s1 & ? & (-> & _) & _). eauto.
Qed.

Lemma match_at_emphasis_re_head i s x :
  match_at emphasis_re i s = Some x → ∃ c s'', s = c :: s'' ∧ is_marker c = true.
Proof.
  intros Hm. apply rmatch_sound in Hm as (i' & s' & cs' & Hm & _). simpl in Hm.
  destruct Hm as (? & s1 & ? & ((l & -> & Hl & Hlo & _) & _) & _).
  destruct Hl as [|c l Hc _]; [simpl in Hlo; lia|]. simpl. eauto.
Qed.

(** The code pattern at a code span. *)
Lemma match_at_code_re_span i text rest :
  text ≠ [] → Forall (λ c, is_not "`" c = true) text →
  match_at code_re i (cu "`" :: text ++ cu "`" :: rest) =
    Some (S (S (length text)), {[ 1%nat := text ]}).
Proof.
  intros Hne Htext. unfold match_at, code_re. cbn [rmatch].
  change (cu "`" =? cu "`") with true. cbv iota.
  erewrite rep_longest; [reflexivity|exact Htext|done|destruct text; [done|simpl; lia]|].
  cbn [rmatch]. change (cu "`" =? cu "`") with true. cbv iota.
  f_equal. f_equal.
  - lia.
  - rewrite insert_empty. f_equal. replace (S i + length text - S i)%nat with (length text) by lia.
    by rewrite take_app_length.
Qed.

(** The emphasis pattern at an emphasised text: one to three markers
    on each side, not necessarily the same. *)
Lemma match_at_emphasis_re_span i m1 text m2 rest :
  Forall (λ c, is_marker c = true) m1 → (1 ≤ length m1 ≤ 3)%nat →
  text ≠ [] → Forall (λ c, not_marker c = true) text →
  Forall (λ c, is_marker c = true) m2 → (1 ≤ length m2 ≤ 3)%nat →
  run is_marker rest = O →
  match_at emphasis_re i (m1 ++ text ++ m2 ++ rest) =
    Some ((length m1 + length text + length m2)%nat, {[ 1%nat := text ]}).
Proof.
  intros Hm1 Hl1 Hne Htext Hm2 Hl2 Hrest. unfold match_at, emphasis_re. cbn [rmatch].
  assert (run is_marker (text ++ m2 ++ rest) = O) as Hrun1.
  { destruct Htext as [|c text Hc _]; [done|]. simpl. unfold not_marker in Hc.
    apply negb_true_iff in Hc. by rewrite Hc. }
  assert (run not_marker (m2 ++ rest) = O) as Hrun2.
  { destruct Hm2 as [|c m2 Hc _]; [simpl in Hl2; lia|]. simpl. unfold not_marker.
    by rewrite Hc. }
  erewrite rep_longest_bounded; [reflexivity|exact Hm1|exact Hrun1|lia|simpl; lia|].
  erewrite rep_longest; [reflexivity|exact Htext|exact Hrun2|destruct text; [done|simpl; lia]|].
  erewrite rep_longest_bounded; [reflexivity|exact Hm2|exact Hrest|lia|simpl; lia|].
  f_equal. f_equal.
  - lia.
  - rewrite insert_empty. f_equal.
    replace (i + length m1 + length text - (i + length m1))%nat with (length text) by lia.
    by rewrite take_app_length.
Qed.

(** One match in a text where no other match is possible. *)
Lemma replace_all_from_one r t (P : Z → Prop) pre c M rest i cs :
  (∀ j s' x, match_at r j s' = Some x → ∃ c s'', s' = c :: s'' ∧ P c) →
  Forall (λ c, ¬ P c) pre →
  match_at r (i + length pre) (c :: M ++ rest) = Some (S (length M), cs) →
  (∀ j, replace_all_from r t 0 j rest = rest) →
  replace_all_from r t 0 i (pre ++ c :: M ++ rest) = pre ++ expand t cs ++ rest.
Proof.
  intros Hhead Hpre Hm Hrest. rewrite (replace_all_from_prefix r t P) by done.
  cbn [replace_all_from]. rewrite Hm. by rewrite replace_all_from_skip, Hrest.
Qed.

Lemma is_plain_spec c :
  is_plain c = true → c ≠ cu "]" ∧ c ≠ cu "`" ∧ is_marker c = false.
Proof.
  unfold is_plain. intros H. apply negb_true_iff in H.
  apply orb_false_iff in H as [H Hm]. apply orb_false_iff in H as [H1 H2].
  by apply Z.eqb_neq in H1, H2.
Qed.

(** The four steps of [cleanMarkdown] leave plain text alone. *)
Lemma replace_all_plain s :
  Forall (λ c, is_plain c = true) s →
  (∀ j, replace_all_from link_re [Ref 1] 0 j s = s) ∧
  (∀ j, replace_all_from image_re [Ref 1] 0 j s = s) ∧
  (∀ j, replace_all_from code_re [Ref 1] 0 j s = s) ∧
  (∀ j, replace_all_from emphasis_re [Ref 1] 0 j s = s).
Proof.
  intros Hs. rewrite Forall_forall in Hs. split_and!; intros j.
  - apply (replace_all_from_id link_re _ (λ c, c = cu "]")); [apply match_at_link_re_needs|].
    intros c Hc ->. by apply Hs in Hc.
  - apply (replace_all_from_id image_re _ (λ c, c = cu "]")); [apply match_at_image_re|].
    intros c Hc ->. by apply Hs in Hc.
  - apply (replace_all_from_id code_re _ (λ c, c = cu "`")); [apply match_at_code_re|].
    intros c Hc ->. by apply Hs in Hc.
  - apply (replace_all_from_id emphasis_re _ (λ c, is_marker c = true));
      [apply match_at_emphasis_re|].
    intros c Hc Hm. apply Hs, is_plain_spec in Hc as (_ & _ & Hc). congruence.
Qed.

Lemma cleanMarkdown_plain s : Forall (λ c, is_plain c = true) s → cleanMarkdown s = s.
Proof.
  intros Hs. destruct (replace_all_plain s Hs) as (H1 & H2 & H3 & H4).
  unfold cleanMarkdown, replace_all. by rewrite H1, H2, H3, H4.
Qed.

(** X8. [cleanMarkdown] changes nothing in a text without closing
    bracket, backquote, star and underscore. *)
Theorem X8_cleanMarkdown_plain s :
  Forall (λ c, is_plain c = true) s → cleanMarkdown s = s.
Proof. apply cleanMarkdown_plain. Qed.

Lemma X8_cleanMarkdown_plain_witness :
  Forall (λ c, is_plain c = true) (js "Getting Started (part 1)") ∧
  cleanMarkdown (js "Getting Started (part 1)") = js "Getting Started (part 1)".
Proof.
  assert (Forall (λ c, is_plain c = true) (js "Getting Started (part 1)")) as Hs
    by (repeat constructor).
  split; [exact Hs|]. by apply X8_cleanMarkdown_plain.
Defined.

(** X9. A link in plain text is replaced by its text: for
    [pre + "[" + text + "](" + url + ")" + post], where [pre], [text] and
    [post] are plain, [pre] has no opening bracket, [text] and [url] are
    not empty and [url] has no closing parenthesis, [cleanMarkdown]
    returns [pre + text + post]. *)
Theorem X9_cleanMarkdown_link pre text url post :
  Forall (λ c, is_plain c = true ∧ c ≠ cu "[") pre →
  text ≠ [] → Forall (λ c, is_plain c = true) text →
  url ≠ [] → Forall (λ c, is_not ")" c = true) url →
  Forall (λ c, is_plain c = true) post →
  cleanMarkdown (pre ++ js "[" ++ text ++ js "](" ++ url ++ js ")" ++ post) =
    pre ++ text ++ post.
Proof.
  intros Hpre Hne Htext Hune Hurl Hpost.
  assert (Forall (λ c, is_plain c = true) pre) as Hpre'.
  { eapply Forall_impl; [exact Hpre|]. by intros c [? _]. }
  assert (replace_all link_re [Ref 1] (pre ++ js "[" ++ text ++ js "](" ++ url ++ js ")" ++ post)
          = pre ++ text ++ post) as Hlink.
  { unfold replace_all. cbn [js app].
    replace (text ++ cu "]" :: cu "(" :: url ++ cu ")" :: post)
      with ((text ++ cu "]" :: cu "(" :: url ++ [cu ")"]) ++ post)
      by (by rewrite <- !app_assoc; cbn [app]; rewrite <- !app_assoc).
    rewrite (replace_all_from_one link_re _ (λ c, c = cu "[") pre _ _ post 0 {[ 1%nat := text ]}).
    - f_equal. unfold expand, group. cbn [flat_map]. rewrite lookup_singleton_eq. simpl.
      by rewrite app_nil_r.
    - apply match_at_link_re_head.
    - eapply Forall_impl; [exact Hpre|]. by intros c [_ ?].
    - rewrite <- !app_assoc. cbn [app]. rewrite <- !app_assoc. cbn [app].
      rewrite (match_at_link_re _ text url post); try done.
      + do 3 f_equal. rewrite length_app. simpl. rewrite length_app. simpl. lia.
      + eapply Forall_impl; [exact Htext|]. intros c Hc.
        apply is_plain_spec in Hc as (Hc & _). unfold is_not. by apply negb_true_iff, Z.eqb_neq.
    - apply replace_all_plain, Hpost. }
  unfold cleanMarkdown. rewrite Hlink.
  assert (Forall (λ c, is_plain c = true) (pre ++ text ++ post)) as Hall.
  { by rewrite !Forall_app. }
  destruct (replace_all_plain _ Hall) as (_ & H2 & H3 & H4).
  unfold replace_all. by rewrite H2, H3, H4.
Qed.

Lemma X9_cleanMarkdown_link_witness :
  cleanMarkdown (js "See " ++ js "[" ++ js "the docs" ++ js "](" ++ js "http://x/y" ++ js ")" ++
                   js " now") = js "See " ++ js "the docs" ++ js " now".
Proof. apply X9_cleanMarkdown_link; try done; by repeat constructor. Defined.

(** X10. An inline code span in plain text is replaced by its content:
    for [pre], [text] and [post] plain and [text] not empty,
    [cleanMarkdown] of [pre], a backquote, [text], a backquote and [post]
    is [pre + text + post]. *)
Theorem X10_cleanMarkdown_code pre text post :
  Forall (λ c, is_plain c = true) pre →
  text ≠ [] → Forall (λ c, is_plain c = true) text →
  Forall (λ c, is_plain c = true) post →
  cleanMarkdown (pre ++ js "`" ++ text ++ js "`" ++ post) = pre ++ text ++ post.
Proof.
  intros Hpre Hne Htext Hpost.
  set (s := pre ++ js "`" ++ text ++ js "`" ++ post).
  assert (∀ c, c ∈ s → c ≠ cu "]") as Hnb.
  { intros c Hc. subst s. rewrite !elem_of_app in Hc.
    rewrite Forall_forall in Hpre, Htext, Hpost.
    destruct Hc as [Hc|[Hc|[Hc|[Hc|Hc]]]];
      try (by apply is_plain_spec; auto);
      apply list_elem_of_singleton in Hc; by subst c. }
  unfold cleanMarkdown, replace_all.
  rewrite (replace_all_from_id link_re _ (λ c, c = cu "]") s);
    [|apply match_at_link_re_needs|by intros c Hc ->; apply (Hnb _ Hc)].
  rewrite (replace_all_from_id image_re _ (λ c, c = cu "]") s);
    [|apply match_at_image_re|by intros c Hc ->; apply (Hnb _ Hc)].
  assert (replace_all_from code_re [Ref 1] 0 0 s = pre ++ text ++ post) as ->.
  { subst s. cbn [js app].
    replace (text ++ cu "`" :: post) with ((text ++ [cu "`"]) ++ post)
      by (by rewrite <- !app_assoc).
    rewrite (replace_all_from_one code_re _ (λ c, c = cu "`") pre _ (text ++ [cu "`"]) post 0
               {[ 1%nat := text ]}).
    - f_equal. unfold expand, group. cbn [flat_map]. rewrite lookup_singleton_eq. simpl.
      by rewrite app_nil_r.
    - apply match_at_code_re_head.
    - eapply Forall_impl; [exact Hpre|]. intros c Hc. by apply is_plain_spec in Hc as (_ & ? & _).
    - rewrite <- !app_assoc. cbn [app]. rewrite match_at_code_re_span; try done.
      + do 3 f_equal. rewrite length_app. simpl. lia.
      + eapply Forall_impl; [exact Htext|]. intros c Hc.
        apply is_plain_spec in Hc as (_ & Hc & _). unfold is_not.
        by apply negb_true_iff, Z.eqb_neq.
    - apply replace_all_plain, Hpost. }
  assert (Forall (λ c, is_plain c = true) (pre ++ text ++ post)) as Hall.
  { by rewrite !Forall_app. }
  by destruct (replace_all_plain _ Hall) as (_ & _ & _ & ->).
Qed.

Lemma X10_cleanMarkdown_code_witness :
  cleanMarkdown (js "Use " ++ js "`" ++ js "npm run" ++ js "`" ++ js " here") =
    js "Use " ++ js "npm run" ++ js " here".
Proof. apply X10_cleanMarkdown_code; try done; by repeat constructor. Defined.

Lemma is_marker_spec c : is_marker c = true → c ≠ cu "]" ∧ c ≠ cu "`".
Proof. unfold is_marker. intros H. split; intros ->; by vm_compute in H. Qed.

(** X11. Emphasis in plain text is replaced by its content, whatever the
    opening and closing markers are: for [pre], [text] and [post] plain,
    [text] not empty, and [m1] and [m2] each one to three stars or
    underscores (not necessarily the same ones, nor the same number),
    [cleanMarkdown (pre + m1 + text + m2 + post)] is [pre + text + post]. *)
Theorem X11_cleanMarkdown_emphasis pre m1 text m2 post :
  Forall (λ c, is_plain c = true) pre →
  Forall (λ c, is_marker c = true) m1 → (1 ≤ length m1 ≤ 3)%nat →
  text ≠ [] → Forall (λ c, is_plain c = true) text →
  Forall (λ c, is_marker c = true) m2 → (1 ≤ length m2 ≤ 3)%nat →
  Forall (λ c, is_plain c = true) post →
  cleanMarkdown (pre ++ m1 ++ text ++ m2 ++ post) = pre ++ text ++ post.
Proof.
  intros Hpre Hm1 Hl1 Hne Htext Hm2 Hl2 Hpost.
  set (s := pre ++ m1 ++ text ++ m2 ++ post).
  assert (∀ c, c ∈ s → c ≠ cu "]" ∧ c ≠ cu "`") as Hnb.
  { intros c Hc. subst s. rewrite !elem_of_app in Hc.
    rewrite Forall_forall in Hpre, Htext, Hpost, Hm1, Hm2.
    destruct Hc as [Hc|[Hc|[Hc|[Hc|Hc]]]];
      first [ by apply is_marker_spec; auto
            | first [apply Hpre in Hc | apply Htext in Hc | apply Hpost in Hc];
              apply is_plain_spec in Hc as (? & ? & _); auto ]. }
  unfold cleanMarkdown, replace_all.
  rewrite (replace_all_from_id link_re _ (λ c, c = cu "]") s);
    [|apply match_at_link_re_needs|intros c Hc ->; by destruct (Hnb _ Hc)].
  rewrite (replace_all_from_id image_re _ (λ c, c = cu "]") s);
    [|apply match_at_image_re|intros c Hc ->; by destruct (Hnb _ Hc)].
  rewrite (replace_all_from_id code_re _ (λ c, c = cu "`") s);
    [|apply match_at_code_re|intros c Hc ->; by destruct (Hnb _ Hc)].
  subst s. destruct m1 as [|c m1]; [simpl in Hl1; lia|]. cbn [app].
  replace (m1 ++ text ++ m2 ++ post) with ((m1 ++ text ++ m2) ++ post)
    by (by rewrite <- !app_assoc).
  rewrite (replace_all_from_one emphasis_re _ (λ c, is_marker c = true) pre _ _ post 0
             {[ 1%nat := text ]}).
  - f_equal. unfold expand, group. cbn [flat_map]. rewrite lookup_singleton_eq. simpl.
    by rewrite app_nil_r.
  - apply match_at_emphasis_re_head.
  - eapply Forall_impl; [exact Hpre|]. intros c' Hc.
    apply is_plain_spec in Hc as (_ & _ & Hc). congruence.
  - rewrite <- !app_assoc.
    change (c :: m1 ++ text ++ m2 ++ post) with ((c :: m1) ++ text ++ m2 ++ post).
    rewrite match_at_emphasis_re_span; try done.
    + do 3 f_equal. rewrite !length_app. simpl. lia.
    + eapply Forall_impl; [exact Htext|]. intros c' Hc.
      apply is_plain_spec in Hc as (_ & _ & Hc). unfold not_marker. by rewrite Hc.
    + destruct Hpost as [|c' post Hc _]; [done|]. simpl.
      apply is_plain_spec in Hc as (_ & _ & Hc). by rewrite Hc.
  - apply replace_all_plain, Hpost.
Qed.

Lemma X11_cleanMarkdown_emphasis_witness :
  cleanMarkdown (js "A " ++ js "**" ++ js "bold" ++ js "_" ++ js " word") =
    js "A " ++ js "bold" ++ js " word".
Proof. apply X11_cleanMarkdown_emphasis; try done; try (simpl; lia); by repeat constructor. Defined.

(** ** Which sections the splitter returns *)

Lemma split_app sep a b : split sep (a ++ sep :: b) = split sep a ++ split sep b.
Proof.
  induction a as [|c a IH]; simpl; [by rewrite Z.eqb_refl|].
  rewrite IH. destruct (c =? sep); [done|].
  pose proof (split_nonempty sep a). by destruct (split sep a).
Qed.

Lemma split_no_sep sep l : sep ∉ l → split sep l = [l].
Proof.
  induction l as [|c l IH]; intros Hl; simpl; [done|].
  apply not_elem_of_cons in Hl as [Hc Hl].
  destruct (Z.eqb_spec c sep) as [->|_]; [done|]. by rewrite IH.
Qed.

Lemma section_name_inj n m : section_name n = section_name m → n = m.
Proof. unfold section_name. intros H. by apply app_inv_head, number_to_string_inj in H. Qed.

Lemma collect_ids_NoDup text : NoDup (DocSection.id <$> collect text).
Proof.
  rewrite collect_ids. apply NoDup_fmap_2; [|apply NoDup_seq].
  intros n m. apply section_name_inj.
Qed.

(** X12. The ids of the sections that [parseMarkdownByH1] returns are
    pairwise distinct. *)
Theorem X12_section_ids_distinct text : NoDup (DocSection.id <$> parseMarkdownByH1 text).
Proof.
  pose proof (collect_ids_NoDup text) as Hnd. unfold parseMarkdownByH1.
  destruct (drops_first (collect text)); [|done].
  destruct (collect text) as [|s ss]; [done|]. rewrite fmap_cons in Hnd.
  by apply NoDup_cons in Hnd as [_ ?].
Qed.

(** Once a section was pushed or a line was collected, this stays so. *)
Lemma pushSection_sections_mono st : sections st ≠ [] → sections (pushSection st) ≠ [].
Proof.
  intros Hs. unfold pushSection. destruct (_ || _); [|done]. simpl.
  by destruct (sections st).
Qed.

Lemma pushSection_content st :
  currentContentLines st ≠ [] → sections (pushSection st) ≠ [].
Proof.
  intros Hc. unfold pushSection. rewrite bool_decide_eq_true_2 by done. simpl.
  by destruct (sections st).
Qed.

Lemma split_line_started st line :
  sections st ≠ [] ∨ currentContentLines st ≠ [] →
  sections (split_line st line) ≠ [] ∨ currentContentLines (split_line st line) ≠ [].
Proof.
  intros Hst. unfold split_line. destruct (test h1_re line); simpl.
  - left. destruct Hst as [Hs|Hc].
    + rewrite bool_decide_eq_true_2 by done. simpl. by apply pushSection_sections_mono.
    + rewrite (bool_decide_eq_true_2 (currentContentLines st ≠ [])), orb_true_r by done.
      by apply pushSection_content.
  - right. by destruct (currentContentLines st).
Qed.

Lemma split_loop_started lines st :
  sections st ≠ [] ∨ currentContentLines st ≠ [] →
  sections (foldl split_line st lines) ≠ [] ∨
  currentContentLines (foldl split_line st lines) ≠ [].
Proof.
  revert st. induction lines as [|line lines IH]; intros st Hst; simpl; [done|].
  by apply IH, split_line_started.
Qed.

(** Heading lines at the very start only replace the title. *)
Lemma split_line_heading_first t idx line :
  test h1_re line = true →
  split_line (Splitter [] t [] idx) line =
    Splitter [] (trim (replace h1_prefix_re [] line)) [] idx.
Proof. intros Hl. unfold split_line. by rewrite Hl. Qed.

Lemma split_loop_headings lines t idx :
  Forall (λ line, test h1_re line = true) lines →
  foldl split_line (Splitter [] t [] idx) lines =
    Splitter [] (default t ((λ l, trim (replace h1_prefix_re [] l)) <$> last lines)) [] idx.
Proof.
  intros Hl. revert t. induction Hl as [|line lines Hline _ IH]; intros t; simpl; [done|].
  rewrite split_line_heading_first, IH by done.
  destruct lines as [|l' ls]; [done|]. change (last (line :: l' :: ls)) with (last (l' :: ls)).
  destruct (last (l' :: ls)) eqn:Hlast; [done|]. by apply last_None in Hlast.
Qed.

Lemma split_loop_not_headings lines t idx :
  ¬ Forall (λ line, test h1_re line = true) lines →
  let st := foldl split_line (Splitter [] t [] idx) lines in
  sections st ≠ [] ∨ currentContentLines st ≠ [].
Proof.
  revert t. induction lines as [|line lines IH]; intros t Hno; [by destruct Hno|].
  cbn [foldl]. destruct (test h1_re line) eqn:Hl.
  - rewrite split_line_heading_first by done. apply IH.
    intros Hall. apply Hno. by constructor.
  - apply split_loop_started. right. unfold split_line. by rewrite Hl.
Qed.

Lemma collect_nil text :
  collect text = [] ↔
  Forall (λ line, test h1_re line = true) (split LF text) ∧
  (λ l, trim (replace h1_prefix_re [] l)) <$> last (split LF text) = Some Introduction.
Proof.
  unfold collect.
  destruct (decide (Forall (λ line, test h1_re line = true) (split LF text))) as [Hall|Hno].
  - rewrite split_loop_headings by done. pose proof (split_nonempty LF text) as Hne.
    destruct (last (split LF text)) as [l|] eqn:Hlast;
      [|by apply last_None in Hlast]. simpl.
    unfold pushSection. simpl.
    destruct (decide (trim (replace h1_prefix_re [] l) = Introduction)) as [Ht|Ht].
    + rewrite (bool_decide_eq_true_2 _ Ht). simpl. split; [by rewrite Ht|done].
    + rewrite (bool_decide_eq_false_2 _ Ht). simpl. split; [done|].
      intros [_ [=]]. done.
  - split; [|by intros [? _]]. intros Hnil.
    destruct (split_loop_not_headings _ Introduction 0%nat Hno) as [Hs|Hc].
    + by apply pushSection_sections_mono in Hs.
    + by apply pushSection_content in Hc.
Qed.

Lemma parseMarkdownByH1_nil text : parseMarkdownByH1 text = [] ↔ collect text = [].
Proof.
  unfold parseMarkdownByH1. destruct (collect text) as [|s0 [|s1 ss]]; simpl; [done..|].
  by destruct (_ && _).
Qed.

(** X13. When [parseMarkdownByH1] returns no section at all: exactly
    when every line of the text is a level-1 heading line and the last one
    has the title [Introduction]. *)
Theorem X13_no_section text :
  parseMarkdownByH1 text = [] ↔
  (∀ line, line ∈ split LF text → h1_line line) ∧
  ∃ l, last (split LF text) = Some l ∧ trim (replace h1_prefix_re [] l) = Introduction.
Proof.
  rewrite parseMarkdownByH1_nil, collect_nil, Forall_forall.
  split; intros [Hall Hlast]; (split; [intros l Hl; by apply test_h1_re, Hall|]).
  - destruct (last (split LF text)) as [l|]; [|done]. injection Hlast as Hlast. by exists l.
  - destruct Hlast as (l & -> & Hl). simpl. by rewrite Hl.
Qed.

(** X14. A level-1 heading line at the very start of the text that is
    directly followed by another one leaves no trace: the sections are
    those of the text without its first line. *)
Theorem X14_leading_heading_dropped l1 text :
  LF ∉ l1 → h1_line l1 →
  (∃ l2, head (split LF text) = Some l2 ∧ h1_line l2) →
  parseMarkdownByH1 (l1 ++ LF :: text) = parseMarkdownByH1 text.
Proof.
  intros Hlf H1 (l2 & Hhead & H2). apply test_h1_re in H1, H2.
  unfold parseMarkdownByH1, collect. rewrite split_app, split_no_sep by done.
  destruct (split LF text) as [|l ls]; [done|]. injection Hhead as ->.
  cbn [app foldl]. by rewrite !split_line_heading_first.
Qed.

Lemma X14_leading_heading_dropped_witness :
  parseMarkdownByH1 (js "# A" ++ LF :: document [js "# B"; js "body"]) =
  parseMarkdownByH1 (document [js "# B"; js "body"]).
Proof.
  apply X14_leading_heading_dropped.
  - intros H%list_elem_of_In. vm_compute in H. intuition lia.
  - apply test_h1_re. reflexivity.
  - exists (js "# B"). split; [reflexivity|]. apply test_h1_re. reflexivity.
Defined.

(** X15. A last line that is a level-1 heading with the title
    [Introduction] gives no section: when the text before it does not
    begin with a level-1 heading line, the sections are those of that
    text. *)
Theorem X15_trailing_Introduction_lost text l :
  LF ∉ l → h1_line l → trim (replace h1_prefix_re [] l) = Introduction →
  (∃ l0, head (split LF text) = Some l0 ∧ ¬ h1_line l0) →
  parseMarkdownByH1 (text ++ LF :: l) = parseMarkdownByH1 text.
Proof.
  intros Hlf Hl Ht (l0 & Hhead & H0). apply test_h1_re in Hl. apply test_h1_re_false in H0.
  unfold parseMarkdownByH1, collect. rewrite split_app, (split_no_sep _ l), foldl_app by done.
  set (st := foldl split_line (Splitter [] Introduction [] 0) (split LF text)).
  assert (sections st ≠ [] ∨ currentContentLines st ≠ []) as Hst.
  { subst st. destruct (split LF text) as [|l' ls]; [done|]. injection Hhead as ->.
    cbn [foldl]. apply split_loop_started. right. unfold split_line. by rewrite H0. }
  assert (sections (pushSection (foldl split_line st [l])) = sections (pushSection st)) as ->; [|done].
  cbn [foldl]. unfold split_line. rewrite Hl, Ht.
  assert (bool_decide (sections st ≠ []) || bool_decide (currentContentLines st ≠ []) = true)
    as ->.
  { destruct Hst as [H|H]; rewrite (bool_decide_eq_true_2 _ H); [done|apply orb_true_r]. }
  unfold pushSection at 1. simpl. done.
Qed.

Lemma X15_trailing_Introduction_lost_witness :
  parseMarkdownByH1 (document [js "preface"; js "# A"; js "body"] ++ LF :: js "# Introduction") =
  parseMarkdownByH1 (document [js "preface"; js "# A"; js "body"]).
Proof.
  apply X15_trailing_Introduction_lost.
  - intros H%list_elem_of_In. vm_compute in H. intuition lia.
  - apply test_h1_re. reflexivity.
  - reflexivity.
  - exists (js "preface"). split; [reflexivity|]. apply test_h1_re_false. reflexivity.
Defined.

Lemma X13_no_section_witness : parseMarkdownByH1 (js "# Introduction") = [].
Proof.
  apply X13_no_section. split.
  - intros line Hline%list_elem_of_In. vm_compute in Hline. destruct Hline as [<-|[]].
    apply test_h1_re. reflexivity.
  - exists (js "# Introduction"). split; reflexivity.
Defined.

(** ** When the ids of the table of contents are distinct *)

Lemma uint_digits_no_hyphen u : cu "-" ∉ uint_digits u.
Proof.
  induction u; simpl; [apply not_elem_of_nil|..];
    apply not_elem_of_cons; (split; [by vm_compute|done]).
Qed.

(** A string is cut at its last hyphen in one way only. *)
Lemma app_hyphen_inj a b d1 d2 :
  cu "-" ∉ d1 → cu "-" ∉ d2 → a ++ cu "-" :: d1 = b ++ cu "-" :: d2 → a = b ∧ d1 = d2.
Proof.
  intros H1 H2. revert b. induction a as [|c a IH]; intros [|c' b] Heq; simpl in Heq.
  - by injection Heq.
  - injection Heq as <- ->. destruct H1. apply elem_of_app. right. left.
  - injection Heq as -> <-. destruct H2. apply elem_of_app. right. left.
  - injection Heq as -> Heq. apply IH in Heq as [-> ->]. done.
Qed.

Lemma nth_id_S_inj r1 k1 r2 k2 : nth_id r1 (S k1) = nth_id r2 (S k2) → r1 = r2.
Proof.
  simpl. intros Heq. by apply app_hyphen_inj in Heq as [? _]; try apply uint_digits_no_hyphen.
Qed.

Lemma nth_id_S_ne r k : nth_id r (S k) ≠ r.
Proof. simpl. intros Heq. apply (f_equal length) in Heq. rewrite length_app in Heq. simpl in Heq. lia. Qed.

Lemma occurrences_cons r x l :
  occurrences r (x :: l) = if decide (x = r) then S (occurrences r l) else occurrences r l.
Proof.
  unfold occurrences. destruct (decide (x = r)).
  - by rewrite filter_cons_True.
  - by rewrite filter_cons_False.
Qed.

Lemma occurrences_take_lookup (l : list jsstring) i r :
  l !! i = Some r → (occurrences r (take i l) < occurrences r l)%nat.
Proof.
  intros Hi. pose proof (lookup_lt_Some _ _ _ Hi) as Hlt.
  pose proof (occurrences_take_lt l i (length l) r Hlt Hi) as H. by rewrite firstn_all in H.
Qed.

(** The occurrence number [k] of a slug is found in the list. *)
Lemma occurrences_find (l : list jsstring) r k :
  (k < occurrences r l)%nat → ∃ j, l !! j = Some r ∧ occurrences r (take j l) = k.
Proof.
  revert k. induction l as [|x l IH]; intros k Hk; [by cbv in Hk; lia|].
  rewrite occurrences_cons in Hk. destruct (decide (x = r)) as [->|Hne].
  - destruct k as [|k]; [by exists 0%nat|].
    destruct (IH k) as (j & Hj & Hocc); [lia|]. exists (S j). split; [done|].
    cbn [take]. rewrite occurrences_cons, decide_True by done. by rewrite Hocc.
  - destruct (IH k Hk) as (j & Hj & Hocc). exists (S j). split; [done|].
    cbn [take]. by rewrite occurrences_cons, decide_False.
Qed.

Lemma occurrences_elem_of (l : list jsstring) r : r ∈ l → (0 < occurrences r l)%nat.
Proof.
  intros Hr. unfold occurrences.
  assert (r ∈ filter (λ r', r' = r) l) as Hin by (by apply list_elem_of_filter).
  destruct (filter _ l); [by apply elem_of_nil in Hin|simpl; lia].
Qed.

(** X16. When the ids of the table of contents are pairwise distinct:
    exactly when no raw slug of the text is another raw slug [r] followed
    by a hyphen and a number [k] from 1 to the number of occurrences of
    [r], less one. *)
Theorem X16_toc_ids_distinct lowercase_mapping text :
  let rawIds := omap (rawIdOf lowercase_mapping) (split LF text) in
  NoDup (TocItem.id <$> parseTOC lowercase_mapping text) ↔
  ∀ r r' k, r' ∈ rawIds → (1 ≤ k < occurrences r rawIds)%nat → r' ≠ nth_id r k.
Proof.
  intros rawIds. split.
  - intros Hnd r r' k Hr' [Hk1 Hk] ->.
    destruct (occurrences_find rawIds r k Hk) as (j & Hj & Hoj).
    destruct (occurrences_find rawIds (nth_id r k) 0%nat) as (i & Hi & Hoi);
      [by apply occurrences_elem_of|].
    pose proof (parseTOC_ids lowercase_mapping text i) as Hidi.
    pose proof (parseTOC_ids lowercase_mapping text j) as Hidj.
    fold rawIds in Hidi, Hidj. rewrite Hi in Hidi. rewrite Hj in Hidj. simpl in *.
    rewrite Hoi in Hidi. rewrite Hoj in Hidj. cbn [nth_id] in Hidi.
    assert (i = j) as -> by (by eapply NoDup_lookup).
    rewrite Hi in Hj. injection Hj as Hj. destruct k; [lia|]. by apply nth_id_S_ne in Hj.
  - intros Hcond. apply NoDup_alt. intros i j x Hi Hj.
    rewrite parseTOC_ids in Hi, Hj. fold rawIds in Hi, Hj.
    destruct (rawIds !! i) as [ri|] eqn:Hri; [|done].
    destruct (rawIds !! j) as [rj|] eqn:Hrj; [|done].
    simpl in Hi, Hj. injection Hi as Hi. injection Hj as Hj.
    pose proof (occurrences_take_lookup rawIds i ri Hri) as Hlti.
    pose proof (occurrences_take_lookup rawIds j rj Hrj) as Hltj.
    assert (ri = rj) as Heq.
    { destruct (occurrences ri (take i rawIds)) as [|ki] eqn:Hki;
        destruct (occurrences rj (take j rawIds)) as [|kj] eqn:Hkj.
      - simpl in *. congruence.
      - destruct (Hcond rj ri (S kj)); [by eapply list_elem_of_lookup_2|lia|]. simpl in *.
        congruence.
      - destruct (Hcond ri rj (S ki)); [by eapply list_elem_of_lookup_2|lia|]. simpl in *.
        congruence.
      - apply (nth_id_S_inj ri ki rj kj). congruence. }
    subst rj. assert (occurrences ri (take i rawIds) = occurrences ri (take j rawIds)) as Hocc.
    { apply (nth_id_inj ri). congruence. }
    destruct (Nat.lt_trichotomy i j) as [Hlt|[->|Hlt]]; [|done|].
    + pose proof (occurrences_take_lt rawIds i j ri Hlt Hri). lia.
    + pose proof (occurrences_take_lt rawIds j i ri Hlt Hrj). lia.
Qed.

(** ** The renderer and the table of contents *)

Lemma getUniqueId_counts lowercase_mapping seen slugCounts text :
  counts_of seen slugCounts →
  ∃ slugCounts',
    getUniqueId lowercase_mapping text slugCounts =
      (nth_id (slugify lowercase_mapping text)
         (occurrences (slugify lowercase_mapping text) seen), slugCounts') ∧
    counts_of (seen ++ [slugify lowercase_mapping text]) slugCounts'.
Proof.
  intros Hm. unfold getUniqueId. set (r := slugify lowercase_mapping text).
  pose proof (Hm r) as Hlook.
  destruct (occurrences r seen) as [|k] eqn:Hocc; rewrite Hlook.
  - eexists. split; [done|].
    intros r'. destruct (decide (r = r')) as [<-|Hne].
    + by rewrite lookup_insert_eq, occurrences_snoc_eq, Hocc.
    + rewrite lookup_insert_ne by done. rewrite occurrences_snoc_ne by done. apply Hm.
  - eexists. split; [done|].
    intros r'. destruct (decide (r = r')) as [<-|Hne].
    + by rewrite lookup_insert_eq, occurrences_snoc_eq, Hocc.
    + rewrite lookup_insert_ne by done. rewrite occurrences_snoc_ne by done. apply Hm.
Qed.

Lemma getUniqueIds_lookup lowercase_mapping texts seen slugCounts i :
  counts_of seen slugCounts →
  getUniqueIds lowercase_mapping texts slugCounts !! i =
    (λ r, nth_id r (occurrences r (seen ++ take i (slugify lowercase_mapping <$> texts))))
      <$> (slugify lowercase_mapping <$> texts) !! i.
Proof.
  revert seen slugCounts i. induction texts as [|text texts IH]; intros seen m i Hm; [done|].
  cbn [getUniqueIds]. destruct (getUniqueId_counts lowercase_mapping seen m text Hm)
    as (m' & -> & Hm').
  rewrite fmap_cons. destruct i as [|i]; simpl.
  - by rewrite app_nil_r.
  - rewrite (IH _ _ _ Hm'). by rewrite <- app_assoc.
Qed.

(** X17. The renderer and the table of contents give the same ids: when
    the texts that the renderer passes to [getUniqueId], heading after
    heading from an empty [slugCounts], have the raw slugs of the heading
    lines of [parseTOC], the ids returned are those of the entries. *)
Theorem X17_renderer_ids lowercase_mapping text texts :
  slugify lowercase_mapping <$> texts = omap (rawIdOf lowercase_mapping) (split LF text) →
  getUniqueIds lowercase_mapping texts ∅ = TocItem.id <$> parseTOC lowercase_mapping text.
Proof.
  intros Hslugs. apply list_eq. intros i.
  rewrite (getUniqueIds_lookup _ _ [] ∅ i counts_of_nil), parseTOC_ids, Hslugs. done.
Qed.

Lemma X17_renderer_ids_witness :
  getUniqueIds basic_lowercase [js "Intro"; js "Set up"; js "Intro"] ∅ =
  TocItem.id <$> parseTOC basic_lowercase (document [js "# Intro"; js "## *Set* up"; js "# Intro"]).
Proof. apply X17_renderer_ids. reflexivity. Defined.

(** ** The file name without its extension *)

(** What [exec] returns is a match at the index returned. *)
Lemma exec_from_Some r i s j len cs :
  exec_from r i s = Some (j, len, cs) →
  ∃ k, j = (i + k)%nat ∧ (k ≤ length s)%nat ∧ match_at r j (drop k s) = Some (len, cs).
Proof.
  revert i. induction s as [|c s IH]; intros i; simpl.
  - destruct (match_at r i []) as [[len' cs']|] eqn:Hm; [|done].
    intros [= <- <- <-]. exists 0%nat. rewrite Nat.add_0_r. done.
  - destruct (match_at r i (c :: s)) as [[len' cs']|] eqn:Hm.
    + intros [= <- <- <-]. exists 0%nat. rewrite Nat.add_0_r. split; [done|]. split; [lia|done].
    + intros Hex. apply IH in Hex as (k & -> & Hk & Hm'). exists (S k).
      split; [lia|]. split; [lia|done].
Qed.

(** The search passes over a prefix in which no match starts. *)
Lemma exec_from_app r i pre s :
  (∀ j p1 p2, pre = p1 ++ p2 → p2 ≠ [] → match_at r j (p2 ++ s) = None) →
  exec_from r i (pre ++ s) = exec_from r (i + length pre) s.
Proof.
  revert i. induction pre as [|c pre IH]; intros i Hno.
  - simpl. by rewrite Nat.add_0_r.
  - pose proof (Hno i [] (c :: pre) eq_refl) as H0. cbn [app length exec_from] in *.
    rewrite H0 by done. rewrite IH; [f_equal; lia|].
    intros j p1 p2 -> Hp2. by apply (Hno j (c :: p1) p2).
Qed.

Lemma match_at_extension_re_Some i s x :
  match_at extension_re i s = Some x →
  ∃ ext, s = cu "." :: ext ∧ ext ≠ [] ∧ Forall (λ c, is_ext_char c = true) ext.
Proof.
  intros Hm. apply rmatch_sound in Hm as (i' & s' & cs' & Hm & _). simpl in Hm.
  destruct Hm as (? & s1 & ? & (-> & _ & _) & Hm).
  destruct Hm as (? & s2 & ? & ((ext & -> & Hext & Hlo & _) & _) & Hm).
  destruct Hm as (-> & _). exists ext. rewrite app_nil_r. split; [done|].
  split; [|done]. destruct ext; [simpl in Hlo; lia|done].
Qed.

Lemma match_at_extension_re i ext :
  ext ≠ [] → Forall (λ c, is_ext_char c = true) ext →
  match_at extension_re i (cu "." :: ext) = Some (S (length ext), ∅).
Proof.
  intros Hne Hext. unfold match_at, extension_re. cbn [rmatch].
  change (cu "." =? cu ".") with true. cbv iota.
  rewrite <- (app_nil_r ext) at 1.
  erewrite rep_longest; [reflexivity|exact Hext|done|destruct ext; [done|simpl; lia]|].
  cbn [rmatch]. do 2 f_equal. lia.
Qed.

(** X18. The name shown for an uploaded file is its name without the
    last extension: [base + "." + ext], with [ext] not empty and without
    slash and dot, gives [base]; every other name is kept as it is. *)
Theorem X18_cleanFileName :
  (∀ base ext,
     ext ≠ [] → Forall (λ c, is_ext_char c = true) ext →
     cleanFileName (base ++ cu "." :: ext) = base) ∧
  (∀ name,
     (∀ base ext, name = base ++ cu "." :: ext → ext ≠ [] →
                  ¬ Forall (λ c, is_ext_char c = true) ext) →
     cleanFileName name = name).
Proof.
  split.
  - intros base ext Hne Hext. unfold cleanFileName, replace, exec.
    rewrite exec_from_app.
    + cbn [exec_from]. rewrite match_at_extension_re by done. simpl.
      rewrite take_app_length, drop_ge; [by rewrite app_nil_r|].
      rewrite length_app. simpl. lia.
    + intros j p1 p2 -> Hp2.
      destruct (match_at extension_re j (p2 ++ cu "." :: ext)) as [x|] eqn:Hm; [|done].
      apply match_at_extension_re_Some in Hm as (ext' & Heq & _ & Hext').
      destruct p2 as [|c p2]; [done|]. injection Heq as -> <-.
      rewrite Forall_app, Forall_cons in Hext'. by destruct Hext' as (_ & ? & _).
  - intros name Hno. unfold cleanFileName, replace, exec.
    destruct (exec_from extension_re 0 name) as [[[j len] cs]|] eqn:Hex; [|done].
    apply exec_from_Some in Hex as (k & _ & _ & Hm).
    apply match_at_extension_re_Some in Hm as (ext & Heq & Hne & Hext).
    destruct (Hno (take k name) ext); try done. by rewrite <- Heq, take_drop.
Qed.

Lemma X18_cleanFileName_witness :
  cleanFileName (js "notes.v2" ++ cu "." :: js "md") = js "notes.v2" ∧
  cleanFileName (js "README") = js "README".
Proof.
  split.
  - apply (proj1 X18_cleanFileName); [done|by repeat constructor].
  - apply (proj2 X18_cleanFileName). intros base ext Heq _ _.
    assert (cu "." ∈ js "README") as Hin by (rewrite Heq; apply elem_of_app; right; left).
    apply list_elem_of_In in Hin. vm_compute in Hin. intuition lia.
Defined.

(** ** The ids in the exported page *)

Lemma escape_char_slug c : is_slug_char c = true → escape_char c = [c].
Proof.
  intros Hc. unfold escape_char.
  change (cu "&") with 38. change (cu "<") with 60. change (cu ">") with 62.
  change (cu "034") with 34. change (cu "'") with 39.
  destruct (Z.eqb_spec c 38) as [->|]; [done|].
  destruct (Z.eqb_spec c 60) as [->|]; [done|].
  destruct (Z.eqb_spec c 62) as [->|]; [done|].
  destruct (Z.eqb_spec c 34) as [->|]; [done|].
  destruct (Z.eqb_spec c 39) as [->|]; done.
Qed.

Lemma escapeHtml_slug s : Forall (λ c, is_slug_char c = true) s → escapeHtml s = s.
Proof.
  intros Hs. rewrite escapeHtml_chars.
  induction Hs as [|c s Hc _ IH]; simpl; [done|]. by rewrite escape_char_slug, IH.
Qed.

Lemma uint_digits_slug u : Forall (λ c, is_slug_char c = true) (uint_digits u).
Proof. induction u; simpl; by constructor. Qed.

Lemma nth_id_slug r k :
  Forall (λ c, is_slug_char c = true) r → Forall (λ c, is_slug_char c = true) (nth_id r k).
Proof.
  intros Hr. destruct k; [done|]. simpl. apply Forall_app. split; [done|].
  constructor; [done|]. apply uint_digits_slug.
Qed.

Lemma section_name_slug n : Forall (λ c, is_slug_char c = true) (section_name n).
Proof. unfold section_name. apply Forall_app. split; [by repeat constructor|apply uint_digits_slug]. Qed.

Lemma parseTOC_ids_slug lowercase_mapping text :
  Forall (Forall (λ c, is_slug_char c = true)) (TocItem.id <$> parseTOC lowercase_mapping text).
Proof.
  apply Forall_lookup. intros i x Hi. rewrite parseTOC_ids in Hi.
  destruct (_ !! i) as [r|] eqn:Hr; [|done]. injection Hi as <-. apply nth_id_slug.
  apply list_elem_of_lookup_2, list_elem_of_omap in Hr as (line & _ & Hr).
  unfold rawIdOf in Hr. destruct (exec headerRegex line) as [[[??]?]|]; [|done].
  injection Hr as <-. eapply Forall_impl; [apply slugify_slug_chars|].
  intros c Hc. unfold not_slug_char in Hc. by apply negb_false_iff in Hc.
Qed.

Lemma parseMarkdownByH1_ids_slug text :
  Forall (Forall (λ c, is_slug_char c = true)) (DocSection.id <$> parseMarkdownByH1 text).
Proof.
  assert (Forall (Forall (λ c, is_slug_char c = true)) (DocSection.id <$> collect text)) as Hall.
  { rewrite collect_ids. apply Forall_fmap, Forall_forall. intros n _. apply section_name_slug. }
  unfold parseMarkdownByH1. destruct (drops_first (collect text)); [|done].
  destruct (collect text); [done|]. rewrite fmap_cons in Hall. by apply Forall_cons in Hall as [_ ?].
Qed.

(** X19. The ids need no escaping where the exported page embeds them
    as they are: every id of [parseTOC] and of [parseMarkdownByH1] is made
    of the characters that [slugify] keeps, and [escapeHtml] leaves it
    unchanged. *)
Theorem X19_ids_need_no_escaping lowercase_mapping text :
  Forall (λ id, Forall (λ c, is_slug_char c = true) id ∧ escapeHtml id = id)
    (TocItem.id <$> parseTOC lowercase_mapping text) ∧
  Forall (λ id, Forall (λ c, is_slug_char c = true) id ∧ escapeHtml id = id)
    (DocSection.id <$> parseMarkdownByH1 text).
Proof.
  split; (eapply Forall_impl; [first [apply parseTOC_ids_slug|apply parseMarkdownByH1_ids_slug]|]);
    intros id Hid; (split; [done|by apply escapeHtml_slug]).
Qed.

(** ** The scroll spy *)

Section ScrollSpyFacts.
Context `{JsNumber}.
Variable elementTop : jsstring → option number.

(** What the loop returns is its start value or the id of an entry. *)
Lemma visible_range toc currentId :
  visible elementTop toc currentId = currentId ∨
  ∃ item, item ∈ toc ∧ visible elementTop toc currentId = Some (TocItem.id item).
Proof.
  revert currentId. induction toc as [|item toc IH]; intros currentId; simpl; [by left|].
  destruct (elementTop (TocItem.id item)) as [top|].
  - destruct (num_le top triggerTop); [|by left].
    destruct (IH (Some (TocItem.id item))) as [->|(item' & Hin & ->)].
    + right. exists item. split; [left|done].
    + right. exists item'. split; [by right|done].
  - destruct (IH currentId) as [->|(item' & Hin & ->)]; [by left|].
    right. exists item'. split; [by right|done].
Qed.

Lemma handleScroll_idempotent viewMode doc container activeSectionId :
  handleScroll elementTop viewMode doc container
    (handleScroll elementTop viewMode doc container activeSectionId) =
  handleScroll elementTop viewMode doc container activeSectionId.
Proof.
  unfold handleScroll. destruct viewMode; [done|].
  destruct doc as [doc|]; [|done]. destruct container as [container|]; [|done]. cbv zeta.
  destruct (_ && (0 <? length (ParsedDoc.toc doc))%nat).
  - destruct (last (ParsedDoc.toc doc)) as [lastItem|]; [|done].
    repeat case_bool_decide; congruence.
  - destruct (truthy (visible elementTop (ParsedDoc.toc doc) None)) eqn:Ht; simpl.
    + repeat case_bool_decide; congruence.
    + destruct (_ && _); [|done].
      destruct (head (ParsedDoc.toc doc)) as [firstItem|]; [|done].
      repeat case_bool_decide; congruence.
Qed.

Lemma handleScroll_range viewMode doc container activeSectionId :
  handleScroll elementTop viewMode doc container activeSectionId = activeSectionId ∨
  ∃ d item, doc = Some d ∧ item ∈ ParsedDoc.toc d ∧
    handleScroll elementTop viewMode doc container activeSectionId = Some (TocItem.id item).
Proof.
  unfold handleScroll. destruct viewMode; [by left|].
  destruct doc as [doc|]; [|by left]. destruct container as [container|]; [|by left]. cbv zeta.
  destruct (_ && (0 <? length (ParsedDoc.toc doc))%nat).
  - destruct (last (ParsedDoc.toc doc)) as [lastItem|] eqn:Hlast; [|by left].
    case_bool_decide; [|by left]. right. exists doc, lastItem. split; [done|].
    split; [|done]. apply last_Some in Hlast as [l0 Hl0]. rewrite Hl0. apply elem_of_app. right. left.
  - destruct (truthy (visible elementTop (ParsedDoc.toc doc) None)) eqn:Ht; simpl.
    + case_bool_decide; [|by left].
      destruct (visible_range (ParsedDoc.toc doc) None) as [Hv|(item & Hin & Hv)].
      * by rewrite Hv in Ht.
      * right. by exists doc, item.
    + destruct (_ && _); [|by left].
      destruct (head (ParsedDoc.toc doc)) as [firstItem|] eqn:Hhead; [|by left].
      case_bool_decide; [|by left]. right. exists doc, firstItem. split; [done|].
      split; [|done]. destruct (ParsedDoc.toc doc); [done|]. injection Hhead as ->. left.
Qed.
End ScrollSpyFacts.

(** X20. [handleScroll] settles in one call: called again on the same
    page, with the [activeSectionId] it has just set, it sets nothing
    new.  (The effect that installs it runs again, and calls it, whenever
    [activeSectionId] changes.) *)
Theorem X20_handleScroll_settles `{JsNumber} (elementTop : jsstring → option number)
    viewMode doc container activeSectionId :
  handleScroll elementTop viewMode doc container
    (handleScroll elementTop viewMode doc container activeSectionId) =
  handleScroll elementTop viewMode doc container activeSectionId.
Proof. apply handleScroll_idempotent. Qed.

(** X21. [handleScroll] leaves [activeSectionId] as it is or sets it to
    the id of an entry of the table of contents of the document; outside
    the continuous view, without document or without scrolled element it
    leaves it as it is. *)
Theorem X21_handleScroll_range `{JsNumber} (elementTop : jsstring → option number)
    viewMode doc container activeSectionId :
  (handleScroll elementTop viewMode doc container activeSectionId = activeSectionId ∨
   ∃ d item, doc = Some d ∧ item ∈ ParsedDoc.toc d ∧
     handleScroll elementTop viewMode doc container activeSectionId = Some (TocItem.id item)) ∧
  (viewMode = sectioned ∨ doc = None ∨ container = None →
   handleScroll elementTop viewMode doc container activeSectionId = activeSectionId).
Proof.
  split; [apply handleScroll_range|].
  unfold handleScroll. intros [-> | [-> | ->]]; [done|by destruct viewMode|].
  destruct viewMode; [done|]. by destruct doc.
Qed.

Lemma X21_handleScroll_range_witness :
  handleScroll (H := Z_JsNumber) (λ _, None) sectioned None None (Some (js "intro")) =
    Some (js "intro").
Proof.
  apply (proj2 (X21_handleScroll_range (H := Z_JsNumber) (λ _, None) sectioned None None
                  (Some (js "intro")))).
  by left.
Defined.

(** ** Documents made of blocks *)

Lemma split_document lines :
  lines ≠ [] → Forall (λ line, LF ∉ line) lines → split LF (document lines) = lines.
Proof.
  intros Hne Hall. unfold document.
  induction Hall as [|l ls Hl Hls IH]; [done|]. destruct ls as [|l' ls].
  - simpl. by apply split_no_sep.
  - change (join [LF] (l :: l' :: ls)) with (l ++ LF :: join [LF] (l' :: ls)).
    rewrite split_app, split_no_sep, IH by done. done.
Qed.

Lemma pushSection_push st :
  currentContentLines st ≠ [] →
  pushSection st =
    {| sections := sections st ++
         [block_section (sectionIndex st) (currentTitle st) (currentContentLines st)];
       currentTitle := currentTitle st;
       currentContentLines := currentContentLines st;
       sectionIndex := S (sectionIndex st) |}.
Proof. intros Hc. unfold pushSection. by rewrite bool_decide_eq_true_2. Qed.

(** One block, read after lines that are to be pushed. *)
Lemma split_block st b :
  block_ok b → currentContentLines st ≠ [] →
  foldl split_line st (b.1 :: b.2) =
    {| sections := sections st ++
         [block_section (sectionIndex st) (currentTitle st) (currentContentLines st)];
       currentTitle := heading_text b.1;
       currentContentLines := b.2;
       sectionIndex := S (sectionIndex st) |}.
Proof.
  intros (Hh & _ & Hbody & _) Hc. cbn [foldl]. rewrite split_loop_no_h1.
  - unfold split_line. apply test_h1_re in Hh. rewrite Hh.
    rewrite (bool_decide_eq_true_2 (currentContentLines st ≠ [])), orb_true_r by done.
    by rewrite pushSection_push.
  - eapply Forall_impl; [exact Hbody|]. intros line [Hl _]. by apply test_h1_re_false.
Qed.

Lemma block_ok_body b : block_ok b → b.2 ≠ [].
Proof. intros (_ & _ & _ & Hc) Hb. rewrite Hb in Hc. done. Qed.

Lemma split_blocks blocks st :
  Forall block_ok blocks → currentContentLines st ≠ [] →
  sections (pushSection (foldl split_line st (block_lines blocks))) =
    sections st ++
    block_sections (sectionIndex st)
      ((currentTitle st, currentContentLines st) :: ((λ b, (heading_text b.1, b.2)) <$> blocks)).
Proof.
  intros Hall. revert st. induction Hall as [|b blocks Hb _ IH]; intros st Hc.
  - simpl. by rewrite pushSection_push.
  - unfold block_lines. cbn [flat_map]. fold (block_lines blocks).
    change ((b.1 :: b.2) ++ block_lines blocks) with (b.1 :: (b.2 ++ block_lines blocks)).
    rewrite app_comm_cons, foldl_app, split_block by done.
    rewrite IH by (by apply block_ok_body). simpl. by rewrite <- app_assoc.
Qed.

Lemma block_lines_no_LF blocks :
  Forall block_ok blocks → Forall (λ line, LF ∉ line) (block_lines blocks).
Proof.
  induction 1 as [|b blocks (_ & Hh & Hbody & _) _ IH]; [done|]. unfold block_lines. simpl.
  constructor; [done|]. apply Forall_app. split; [|done].
  eapply Forall_impl; [exact Hbody|]. by intros line [_ ?].
Qed.

Lemma parseMarkdownByH1_blocks blocks :
  blocks ≠ [] → Forall block_ok blocks →
  parseMarkdownByH1 (document (block_lines blocks)) =
    block_sections 0 ((λ b, (heading_text b.1, b.2)) <$> blocks).
Proof.
  intros Hne Hall. destruct Hall as [|b blocks Hb Hall]; [done|].
  assert (collect (document (block_lines (b :: blocks))) =
          block_sections 0 ((λ b, (heading_text b.1, b.2)) <$> b :: blocks)) as Hcollect.
  { unfold collect. rewrite split_document;
      [|done|by apply block_lines_no_LF; constructor].
    unfold block_lines. cbn [flat_map]. fold (block_lines blocks).
    change ((b.1 :: b.2) ++ block_lines blocks) with (b.1 :: (b.2 ++ block_lines blocks)).
    cbn [foldl]. destruct Hb as (Hh & _ & Hbody & Hc). apply test_h1_re in Hh.
    rewrite split_line_heading_first by done. rewrite foldl_app, (split_loop_no_h1 b.2).
    - rewrite split_blocks; [done|done|]. simpl. intros Hb. by rewrite Hb in Hc.
    - eapply Forall_impl; [exact Hbody|]. intros line [Hl _]. by apply test_h1_re_false. }
  unfold parseMarkdownByH1. rewrite Hcollect. rewrite fmap_cons. cbn [block_sections].
  destruct Hb as (_ & _ & _ & Hc). unfold drops_first.
  destruct (block_sections 1 _); [done|].
  rewrite (bool_decide_eq_false_2 (DocSection.content _ = [])), andb_false_r by done. done.
Qed.

(** X22. A document made of blocks has one section for each block: when
    every block is a level-1 heading line followed by lines that are no
    such lines, with a body that is not blank, [parseMarkdownByH1] returns
    the sections of the blocks, in order, numbered from 0, each with the
    text of its heading and the trimmed body as content. *)
Theorem X22_sections_of_blocks blocks :
  blocks ≠ [] → Forall block_ok blocks →
  parseMarkdownByH1 (document (block_lines blocks)) =
    block_sections 0 ((λ b, (heading_text b.1, b.2)) <$> blocks).
Proof. intros Hne Hall. by apply parseMarkdownByH1_blocks. Qed.

Lemma X22_sections_of_blocks_witness :
  parseMarkdownByH1
    (document (block_lines [(js "# A", [js "one"; js "two"]); (js "# B", [js "three"])])) =
  block_sections 0 [(js "A", [js "one"; js "two"]); (js "B", [js "three"])].
Proof.
  apply (X22_sections_of_blocks [(js "# A", [js "one"; js "two"]); (js "# B", [js "three"])]);
    [done|].
  assert (∀ l : jsstring, bool_decide (LF ∉ l) = true → LF ∉ l) as Hlf
    by (intros l; apply bool_decide_eq_true_1).
  repeat constructor; simpl;
    first [ by apply test_h1_re | by apply test_h1_re_false
          | by apply Hlf; vm_compute | by vm_compute ].
Defined.

(** X23. Lines before the first heading: when the blocks of X22 come
    after lines that are no level-1 heading lines, these lines are the
    content of a first section titled [Introduction], numbered 0; when
    they are blank that section is not returned, and the sections of the
    blocks are numbered from 1. *)
Theorem X23_sections_after_preface pre blocks :
  pre ≠ [] → Forall (λ line, ¬ h1_line line ∧ LF ∉ line) pre → Forall block_ok blocks →
  (trim (join [LF] pre) ≠ [] →
   parseMarkdownByH1 (document (pre ++ block_lines blocks)) =
     block_sections 0 ((Introduction, pre) :: ((λ b, (heading_text b.1, b.2)) <$> blocks))) ∧
  (trim (join [LF] pre) = [] → blocks ≠ [] →
   parseMarkdownByH1 (document (pre ++ block_lines blocks)) =
     block_sections 1 ((λ b, (heading_text b.1, b.2)) <$> blocks)).
Proof.
  intros Hne Hpre Hall.
  assert (collect (document (pre ++ block_lines blocks)) =
          block_sections 0 ((Introduction, pre) :: ((λ b, (heading_text b.1, b.2)) <$> blocks)))
    as Hcollect.
  { unfold collect. rewrite split_document.
    - rewrite foldl_app, (split_loop_no_h1 pre).
      + by rewrite split_blocks.
      + eapply Forall_impl; [exact Hpre|]. intros line [Hl _]. by apply test_h1_re_false.
    - by destruct pre.
    - apply Forall_app. split; [|by apply block_lines_no_LF].
      eapply Forall_impl; [exact Hpre|]. by intros line [_ ?]. }
  unfold parseMarkdownByH1. rewrite Hcollect. cbn [block_sections]. unfold drops_first.
  split.
  - intros Hc. destruct (block_sections 1 _); [done|].
    rewrite (bool_decide_eq_false_2 (DocSection.content _ = [])), andb_false_r by done. done.
  - intros Hc Hblocks. destruct blocks as [|b blocks]; [done|]. rewrite fmap_cons.
    cbn [block_sections].
    rewrite (bool_decide_eq_true_2 (DocSection.title _ = Introduction))
      by apply Introduction_title.
    by rewrite (bool_decide_eq_true_2 (DocSection.content _ = [])).
Qed.

Lemma X23_sections_after_preface_witness :
  parseMarkdownByH1 (document ([js "preface"] ++ block_lines [(js "# A", [js "one"])])) =
    block_sections 0 [(Introduction, [js "preface"]); (js "A", [js "one"])] ∧
  parseMarkdownByH1 (document ([js " "] ++ block_lines [(js "# A", [js "one"])])) =
    block_sections 1 [(js "A", [js "one"])].
Proof.
  assert (∀ l : jsstring, bool_decide (LF ∉ l) = true → LF ∉ l) as Hlf
    by (intros l; apply bool_decide_eq_true_1).
  assert (Forall block_ok [(js "# A", [js "one"])]) as Hblocks.
  { repeat constructor; simpl;
      first [ by apply test_h1_re | by apply test_h1_re_false
            | by apply Hlf; vm_compute | by vm_compute ]. }
  split.
  - apply (X23_sections_after_preface [js "preface"] [(js "# A", [js "one"])]);
      [done| |exact Hblocks|by vm_compute].
    repeat constructor; [by apply test_h1_re_false|by apply Hlf; vm_compute].
  - apply (X23_sections_after_preface [js " "] [(js "# A", [js "one"])]);
      [done| |exact Hblocks|by vm_compute|done].
    repeat constructor; [by apply test_h1_re_false|by apply Hlf; vm_compute].
Defined.

(** ** The header ids of the exported page *)

Lemma constructor_key : js "constructor" ∈ Object_prototype_keys.
Proof. left. Qed.

Lemma constructor_not_proto : js "constructor" ≠ js "__proto__".
Proof. intros Heq. vm_compute in Heq. discriminate. Qed.

Section ExportedPageFacts.
Variable lowercase_mapping : list Z → Z → list Z → list Z.

Lemma setHeaderId_counts seen slugCounts header :
  counts_obj seen slugCounts → Header.id header = [] →
  slugify lowercase_mapping (Header.textContent header) ∉ Object_prototype_keys →
  ∃ slugCounts',
    setHeaderId lowercase_mapping header slugCounts =
      (nth_id (slugify lowercase_mapping (Header.textContent header))
         (occurrences (slugify lowercase_mapping (Header.textContent header)) seen),
       slugCounts') ∧
    counts_obj (seen ++ [slugify lowercase_mapping (Header.textContent header)]) slugCounts'.
Proof.
  intros Hm Hid Hkey. unfold setHeaderId, get_property.
  rewrite (bool_decide_eq_true_2 _ Hid).
  set (r := slugify lowercase_mapping (Header.textContent header)) in *.
  pose proof (Hm r) as Hlook. rewrite (bool_decide_eq_false_2 _ Hkey).
  destruct (occurrences r seen) as [|k] eqn:Hocc; rewrite Hlook.
  - eexists. split; [done|].
    intros r'. destruct (decide (r = r')) as [<-|Hne].
    + by rewrite lookup_insert_eq, occurrences_snoc_eq, Hocc.
    + rewrite lookup_insert_ne by done. rewrite occurrences_snoc_ne by done. apply Hm.
  - eexists. split; [done|].
    intros r'. destruct (decide (r = r')) as [<-|Hne].
    + by rewrite lookup_insert_eq, occurrences_snoc_eq, Hocc.
    + rewrite lookup_insert_ne by done. rewrite occurrences_snoc_ne by done. apply Hm.
Qed.

Lemma setHeaderIds_lookup headers seen slugCounts i :
  counts_obj seen slugCounts →
  Forall (λ h, Header.id h = [] ∧
               slugify lowercase_mapping (Header.textContent h) ∉ Object_prototype_keys)
    headers →
  setHeaderIds lowercase_mapping headers slugCounts !! i =
    (λ r, nth_id r (occurrences r
        (seen ++ take i ((λ h, slugify lowercase_mapping (Header.textContent h)) <$> headers))))
      <$> ((λ h, slugify lowercase_mapping (Header.textContent h)) <$> headers) !! i.
Proof.
  intros Hm Hall. revert seen slugCounts i Hm.
  induction Hall as [|h headers [Hid Hkey] _ IH]; intros seen m i Hm; [done|].
  cbn [setHeaderIds]. destruct (setHeaderId_counts seen m h Hm Hid Hkey) as (m' & -> & Hm').
  rewrite fmap_cons. destruct i as [|i]; simpl.
  - by rewrite app_nil_r.
  - rewrite (IH _ _ _ Hm'). by rewrite <- app_assoc.
Qed.

Lemma setHeaderId_constructor_ok header slugCounts :
  constructor_ok slugCounts →
  constructor_ok (setHeaderId lowercase_mapping header slugCounts).2.
Proof.
  intros Hok. unfold setHeaderId. case_bool_decide; [|done].
  set (r := slugify lowercase_mapping (Header.textContent header)).
  destruct (decide (r = js "constructor")) as [Hr|Hr].
  - rewrite Hr. unfold get_property. destruct Hok as [-> | ->].
    + rewrite (bool_decide_eq_true_2 _ constructor_key).
      rewrite (bool_decide_eq_false_2 _ constructor_not_proto). right. simpl.
      by rewrite lookup_insert_eq.
    + right. simpl. by rewrite lookup_insert_eq.
  - unfold constructor_ok.
    destruct (get_property slugCounts r) as [[n|]| |]; simpl;
      try case_bool_decide; simpl; rewrite ?lookup_insert_ne by done; done.
Qed.

Lemma setHeaderId_constructor header slugCounts :
  constructor_ok slugCounts → Header.id header = [] →
  slugify lowercase_mapping (Header.textContent header) = js "constructor" →
  (setHeaderId lowercase_mapping header slugCounts).1 = js "constructor-NaN".
Proof.
  intros Hok Hid Hr. unfold setHeaderId. rewrite (bool_decide_eq_true_2 _ Hid), Hr.
  unfold get_property. destruct Hok as [-> | ->]; [|done].
  rewrite (bool_decide_eq_true_2 _ constructor_key).
  by rewrite (bool_decide_eq_false_2 _ constructor_not_proto).
Qed.

Lemma setHeaderIds_constructor headers slugCounts i header :
  constructor_ok slugCounts → headers !! i = Some header → Header.id header = [] →
  slugify lowercase_mapping (Header.textContent header) = js "constructor" →
  setHeaderIds lowercase_mapping headers slugCounts !! i = Some (js "constructor-NaN").
Proof.
  revert slugCounts i. induction headers as [|h headers IH]; intros m i Hok Hi Hid Hr; [done|].
  cbn [setHeaderIds]. pose proof (setHeaderId_constructor_ok h m Hok) as Hok'.
  pose proof (setHeaderId_constructor h m Hok) as Hfirst.
  destruct (setHeaderId lowercase_mapping h m) as [id m']. destruct i as [|i]; simpl in *.
  - injection Hi as ->. by rewrite Hfirst.
  - by apply IH.
Qed.
End ExportedPageFacts.

Lemma uint_digits_range u : Forall (λ c, 48 ≤ c ≤ 57) (uint_digits u).
Proof. induction u; simpl; constructor; (lia || done). Qed.

Lemma nth_id_not_NaN r k : nth_id r k ≠ r ++ js "-NaN".
Proof.
  destruct k as [|k]; simpl; intros Heq.
  - apply (f_equal length) in Heq. rewrite length_app in Heq. simpl in Heq. lia.
  - apply app_inv_head in Heq. injection Heq as Heq.
    pose proof (uint_digits_range (Nat.to_uint (S k))) as Hd.
    unfold number_to_string in Heq. rewrite Heq in Hd.
    apply Forall_cons in Hd as [Hd _]. vm_compute in Hd. destruct Hd as [_ Hd]. by apply Hd.
Qed.

(** X24. The script of the exported page gives the headers the ids of
    the table of contents, as long as no raw slug is a property name of
    [Object.prototype]: for headers without id whose texts have the raw
    slugs of the heading lines of [parseTOC], in order, the ids set are
    those of the entries. *)
Theorem X24_exported_ids lowercase_mapping text headers :
  Forall (λ h, Header.id h = [] ∧
               slugify lowercase_mapping (Header.textContent h) ∉ Object_prototype_keys)
    headers →
  (λ h, slugify lowercase_mapping (Header.textContent h)) <$> headers =
    omap (rawIdOf lowercase_mapping) (split LF text) →
  setHeaderIds lowercase_mapping headers ∅ = TocItem.id <$> parseTOC lowercase_mapping text.
Proof.
  intros Hall Hslugs. apply list_eq. intros i.
  rewrite (setHeaderIds_lookup _ _ [] ∅ i), parseTOC_ids, ?Hslugs; [done| |done].
  intros r. by rewrite lookup_empty.
Qed.

Lemma X24_exported_ids_witness :
  setHeaderIds basic_lowercase
    [Header.mk [] (js "Intro"); Header.mk [] (js "Set up"); Header.mk [] (js "Intro")] ∅ =
  TocItem.id <$> parseTOC basic_lowercase (document [js "# Intro"; js "## *Set* up"; js "# Intro"]).
Proof.
  apply X24_exported_ids; [|reflexivity].
  repeat constructor; simpl; apply (bool_decide_eq_false_1 (_ ∈ Object_prototype_keys));
    by vm_compute.
Defined.

(** X25. A header whose raw slug is [constructor] gets the id
    [constructor-NaN] in the exported page, each time, where the table of
    contents has [constructor], [constructor-1], ...: [slugCounts] of the
    script is an object, and its property [constructor] is never
    [undefined]. *)
Theorem X25_exported_constructor lowercase_mapping headers i header :
  headers !! i = Some header → Header.id header = [] →
  slugify lowercase_mapping (Header.textContent header) = js "constructor" →
  setHeaderIds lowercase_mapping headers ∅ !! i = Some (js "constructor-NaN") ∧
  ∀ k, nth_id (js "constructor") k ≠ js "constructor-NaN".
Proof.
  intros Hi Hid Hr. split.
  - eapply setHeaderIds_constructor; try done. by left.
  - intros k. apply (nth_id_not_NaN (js "constructor") k).
Qed.

Lemma X25_exported_constructor_witness :
  setHeaderIds basic_lowercase
    [Header.mk [] (js "Constructor"); Header.mk [] (js "Constructor")] ∅ !! 1%nat =
    Some (js "constructor-NaN").
Proof.
  apply (X25_exported_constructor basic_lowercase
           [Header.mk [] (js "Constructor"); Header.mk [] (js "Constructor")] 1
           (Header.mk [] (js "Constructor"))); reflexivity.
Defined.

(** ** The titles of the sections and of the table of contents *)

Lemma trimStart_run s : trimStart s = drop (run is_space s) s.
Proof. induction s as [|c s IH]; simpl; [done|]. by destruct (is_space c). Qed.

Lemma trimStart_idempotent s : trimStart (trimStart s) = trimStart s.
Proof.
  induction s as [|c s IH]; simpl; [done|].
  destruct (is_space c) eqn:Hc; [done|]. simpl. by rewrite Hc.
Qed.

Lemma replace_h1_prefix s :
  (1 ≤ run is_space s)%nat →
  replace h1_prefix_re [] (cu "#" :: s) = drop (run is_space s) s.
Proof.
  intros Hrun. unfold replace, h1_prefix_re. rewrite exec_Bol. unfold match_at.
  cbn [rmatch]. rewrite Z.eqb_refl. rewrite rep_greedy by eauto.
  rewrite decide_True by done. simpl. done.
Qed.

(** The text of a heading line of level 1 is the title that [parseTOC]
    gives it. *)
Lemma heading_text_toc line :
  heading_line 1 line → headingOf line = Some (1%nat, heading_text line).
Proof.
  intros Hline. rewrite (heading_line_headingOf 1 line) by (done || lia).
  destruct Hline as (ws & text & -> & Hne & Hws & _). do 2 f_equal.
  unfold heading_text. cbn [replicate app drop].
  rewrite replace_h1_prefix.
  - unfold trim. by rewrite <- trimStart_run, trimStart_idempotent.
  - destruct Hws as [|c ws Hc _]; [done|]. simpl. rewrite Hc. lia.
Qed.

Lemma headingOf_not_h1 line :
  ¬ h1_line line → ∀ title, headingOf line ≠ Some (1%nat, title).
Proof.
  intros Hno title Hh. apply headingOf_Some in Hh as (_ & Hline & _).
  by apply Hno, heading_line_h1.
Qed.

Lemma filter_level_1 (toc : list TocItem.t) :
  TocItem.title <$> filter (λ it, TocItem.level it = 1%nat) toc =
  snd <$> filter (λ p, p.1 = 1%nat) ((λ it, (TocItem.level it, TocItem.title it)) <$> toc).
Proof.
  induction toc as [|it toc IH]; [done|]. rewrite fmap_cons.
  destruct (decide (TocItem.level it = 1%nat)) as [Hl|Hl].
  - rewrite !filter_cons_True by done. by rewrite !fmap_cons, IH.
  - by rewrite !filter_cons_False by done.
Qed.

Lemma body_no_level_1 body :
  Forall (λ line, ¬ h1_line line ∧ LF ∉ line) body →
  filter (λ p : nat * jsstring, p.1 = 1%nat) (omap headingOf body) = [].
Proof.
  induction 1 as [|line body [Hl _] _ IH]; [done|]. rewrite omap_cons_match.
  destruct (headingOf line) as [[k title]|] eqn:Hh; [|done].
  rewrite filter_cons_False; [done|]. simpl. intros ->. by apply (headingOf_not_h1 line Hl title).
Qed.

Lemma block_lines_level_1 blocks :
  Forall block_ok blocks → Forall (λ b, heading_line 1 b.1) blocks →
  snd <$> filter (λ p : nat * jsstring, p.1 = 1%nat) (omap headingOf (block_lines blocks)) =
    (λ b, heading_text b.1) <$> blocks.
Proof.
  intros Hall Hh. induction Hall as [|b blocks (_ & _ & Hbody & _) _ IH]; [done|].
  apply Forall_cons in Hh as [Hb Hh]. unfold block_lines. cbn [flat_map].
  fold (block_lines blocks).
  change ((b.1 :: b.2) ++ block_lines blocks) with (b.1 :: (b.2 ++ block_lines blocks)).
  rewrite omap_cons_match, heading_text_toc by done.
  rewrite filter_cons_True by done. rewrite omap_app, filter_app, body_no_level_1 by done.
  rewrite !fmap_cons. simpl. by rewrite IH.
Qed.

Lemma block_sections_titles i blocks :
  Forall (λ b, head (heading_text b.1) ≠ Some (cu "#")) blocks →
  DocSection.title <$> block_sections i ((λ b, (heading_text b.1, b.2)) <$> blocks) =
    (λ b, heading_text b.1) <$> blocks.
Proof.
  intros Hall. revert i. induction Hall as [|b blocks Hb _ IH]; intros i; [done|].
  rewrite !fmap_cons. cbn [block_sections]. rewrite fmap_cons, IH. f_equal. simpl.
  rewrite replace_hash_prefix_other by done. apply trim_idempotent.
Qed.

(** X26. The two lists of the sidebar agree on the titles: for a
    document made of blocks whose heading lines are heading lines for
    [parseTOC] as well, with a text that does not begin with a hash, the
    titles of the sections of [parseMarkdownByH1] are the titles of the
    entries of level 1 of [parseTOC], in the same order. *)
Theorem X26_titles_agree lowercase_mapping (blocks : list (jsstring * list jsstring)) :
  blocks ≠ [] → Forall block_ok blocks →
  Forall (λ b, heading_line 1 b.1 ∧ head (heading_text b.1) ≠ Some (cu "#")) blocks →
  DocSection.title <$> parseMarkdownByH1 (document (block_lines blocks)) =
  TocItem.title <$> filter (λ it, TocItem.level it = 1%nat)
                      (parseTOC lowercase_mapping (document (block_lines blocks))).
Proof.
  intros Hne Hall Hh. rewrite parseMarkdownByH1_blocks by done.
  rewrite filter_level_1, parseTOC_headings.
  rewrite split_document; [|by destruct blocks as [|[??]?]|by apply block_lines_no_LF].
  rewrite block_lines_level_1, block_sections_titles; [done| |done|].
  - eapply Forall_impl; [exact Hh|]. by intros b [_ ?].
  - eapply Forall_impl; [exact Hh|]. by intros b [? _].
Qed.

Lemma X26_titles_agree_witness :
  DocSection.title <$>
    parseMarkdownByH1 (document (block_lines [(js "# A", [js "## one"]); (js "#  B ", [js "two"])])) =
  TocItem.title <$> filter (λ it, TocItem.level it = 1%nat)
    (parseTOC basic_lowercase
       (document (block_lines [(js "# A", [js "## one"]); (js "#  B ", [js "two"])]))).
Proof.
  assert (∀ l : jsstring, bool_decide (LF ∉ l) = true → LF ∉ l) as Hlf
    by (intros l; apply bool_decide_eq_true_1).
  apply (X26_titles_agree basic_lowercase
           [(js "# A", [js "## one"]); (js "#  B ", [js "two"])]); [done| |].
  - repeat constructor; simpl;
      first [ by apply test_h1_re | by apply test_h1_re_false
            | by apply Hlf; vm_compute | by vm_compute ].
  - repeat constructor; simpl; try (by vm_compute).
    + exists (js " "), (js "A"). by repeat constructor.
    + exists (js "  "), (js "B "). by repeat constructor.
Defined.

(** ** [cleanMarkdown] on a sequence of inline constructs *)

Lemma replace_all_from_match r t c M s i cs :
  match_at r i (c :: M ++ s) = Some (S (length M), cs) →
  replace_all_from r t 0 i (c :: M ++ s) =
    expand t cs ++ replace_all_from r t 0 (S i + length M) s.
Proof. intros Hm. cbn [replace_all_from]. by rewrite Hm, replace_all_from_skip. Qed.

Lemma replace_all_from_nil r t (P : Z → Prop) i :
  (∀ j s' x, match_at r j s' = Some x → ∃ c s'', s' = c :: s'' ∧ P c) →
  replace_all_from r t 0 i [] = [].
Proof.
  intros Hhead. cbn [replace_all_from].
  destruct (match_at r i []) as [[len cs]|] eqn:Hm; [|done].
  by apply Hhead in Hm as (c & s'' & ? & _).
Qed.

Lemma expand_Ref_1 text : expand [Ref 1] {[ 1%nat := text ]} = text.
Proof. unfold expand, group. cbn [flat_map]. rewrite lookup_singleton_eq. simpl. apply app_nil_r. Qed.

Lemma is_text_spec c :
  is_text c = true →
  c ≠ cu "[" ∧ c ≠ cu "]" ∧ c ≠ cu "`" ∧ is_marker c = false.
Proof.
  unfold is_text. intros [Hp Hb]%andb_true_iff. apply is_plain_spec in Hp as (? & ? & ?).
  apply negb_true_iff, Z.eqb_neq in Hb. done.
Qed.

Lemma inline_ok_text it (P : Z → Prop) :
  inline_ok it → (∀ c, is_text c = true → P c) → Forall P (inline_text it).
Proof. intros (_ & Ht & _) HP. eapply Forall_impl; [exact Ht|]. done. Qed.

(** The step of the links. *)
Lemma clean_links items i :
  Forall inline_ok items →
  replace_all_from link_re [Ref 1] 0 i (flat_map inline_src items) =
    flat_map inline_links items.
Proof.
  intros Hall. revert i. induction Hall as [|it items Hit _ IH]; intros i.
  - apply (replace_all_from_nil _ _ _ _ match_at_link_re_head).
  - cbn [flat_map].
    assert (∀ c, is_text c = true → c ≠ cu "[") as Htext
      by (by intros c (? & _)%is_text_spec).
    pose proof (inline_ok_text it _ Hit Htext) as Hinert.
    destruct it as [text|text url|text|m1 text m2]; cbn [inline_src inline_links inline_text] in *.
    + rewrite (replace_all_from_prefix _ _ _ _ _ _ match_at_link_re_head Hinert).
      by rewrite IH.
    + destruct Hit as (Hne & Ht & Hune & Hurl). cbn [js app].
      replace ((cu "[" :: text ++ cu "]" :: cu "(" :: url ++ [cu ")"]) ++ flat_map inline_src items)
        with (cu "[" :: (text ++ cu "]" :: cu "(" :: url ++ [cu ")"]) ++ flat_map inline_src items)
        by done.
      rewrite (replace_all_from_match _ _ _ _ _ _ {[ 1%nat := text ]}).
      * by rewrite expand_Ref_1, IH.
      * rewrite <- !app_assoc. cbn [app]. rewrite <- !app_assoc. cbn [app].
        rewrite match_at_link_re; try done.
        -- do 3 f_equal. rewrite !length_app. simpl. rewrite length_app. simpl. lia.
        -- eapply Forall_impl; [exact Ht|]. intros c (_ & Hc & _)%is_text_spec.
           unfold is_not. by apply negb_true_iff, Z.eqb_neq.
    + rewrite (replace_all_from_prefix _ _ (λ c, c = cu "[") _ _ _ match_at_link_re_head).
      * by rewrite IH.
      * cbn [js app]. constructor; [done|]. apply Forall_app. split; [done|by constructor].
    + destruct Hit as (_ & _ & Hm1 & _ & Hm2 & _).
      rewrite (replace_all_from_prefix _ _ (λ c, c = cu "[") _ _ _ match_at_link_re_head).
      * by rewrite IH.
      * rewrite !Forall_app. split_and!; try done.
        -- eapply Forall_impl; [exact Hm1|]. intros c Hc ->. by vm_compute in Hc.
        -- eapply Forall_impl; [exact Hm2|]. intros c Hc ->. by vm_compute in Hc.
Qed.

(** After the step of the links no closing bracket is left. *)
Lemma inline_links_no_bracket items :
  Forall inline_ok items → ∀ c, c ∈ flat_map inline_links items → c ≠ cu "]".
Proof.
  intros Hall c Hc. apply list_elem_of_In, in_flat_map in Hc as (it & Hit & Hc).
  apply list_elem_of_In in Hit, Hc. rewrite Forall_forall in Hall. apply Hall in Hit.
  assert (∀ c, is_text c = true → c ≠ cu "]") as Htext
    by (by intros c' (_ & ? & _)%is_text_spec).
  pose proof (inline_ok_text it _ Hit Htext) as Hinert. rewrite Forall_forall in Hinert.
  destruct it as [text|text url|text|m1 text m2]; cbn [inline_src inline_links inline_text] in *.
  - by apply Hinert.
  - by apply Hinert.
  - cbn [js app] in Hc. apply elem_of_cons in Hc as [->|Hc]; [done|].
    apply elem_of_app in Hc as [Hc|Hc]; [by apply Hinert|].
    apply list_elem_of_singleton in Hc as ->. done.
  - destruct Hit as (_ & _ & Hm1 & _ & Hm2 & _). rewrite Forall_forall in Hm1, Hm2.
    rewrite !elem_of_app in Hc. destruct Hc as [Hc|[Hc|Hc]]; [|by apply Hinert|].
    + apply Hm1 in Hc. intros ->. by vm_compute in Hc.
    + apply Hm2 in Hc. intros ->. by vm_compute in Hc.
Qed.

(** The step of the code spans. *)
Lemma clean_spans items i :
  Forall inline_ok items →
  replace_all_from code_re [Ref 1] 0 i (flat_map inline_links items) =
    flat_map inline_spans items.
Proof.
  intros Hall. revert i. induction Hall as [|it items Hit _ IH]; intros i.
  - apply (replace_all_from_nil _ _ _ _ match_at_code_re_head).
  - cbn [flat_map].
    assert (∀ c, is_text c = true → c ≠ cu "`") as Htext
      by (by intros c (_ & _ & ? & _)%is_text_spec).
    pose proof (inline_ok_text it _ Hit Htext) as Hinert.
    destruct it as [text|text url|text|m1 text m2];
      cbn [inline_src inline_links inline_spans inline_text] in *.
    + rewrite (replace_all_from_prefix _ _ _ _ _ _ match_at_code_re_head Hinert).
      by rewrite IH.
    + rewrite (replace_all_from_prefix _ _ _ _ _ _ match_at_code_re_head Hinert).
      by rewrite IH.
    + destruct Hit as (Hne & Ht & _). cbn [js app].
      replace ((cu "`" :: text ++ [cu "`"]) ++ flat_map inline_links items)
        with (cu "`" :: (text ++ [cu "`"]) ++ flat_map inline_links items) by done.
      rewrite (replace_all_from_match _ _ _ _ _ _ {[ 1%nat := text ]}).
      * by rewrite expand_Ref_1, IH.
      * rewrite <- !app_assoc. cbn [app]. rewrite match_at_code_re_span; try done.
        -- do 3 f_equal. rewrite !length_app. simpl. lia.
        -- eapply Forall_impl; [exact Ht|]. intros c (_ & _ & Hc & _)%is_text_spec.
           unfold is_not. by apply negb_true_iff, Z.eqb_neq.
    + destruct Hit as (_ & _ & Hm1 & _ & Hm2 & _).
      rewrite (replace_all_from_prefix _ _ (λ c, c = cu "`") _ _ _ match_at_code_re_head).
      * by rewrite IH.
      * rewrite !Forall_app. split_and!; try done.
        -- eapply Forall_impl; [exact Hm1|]. intros c Hc ->. by vm_compute in Hc.
        -- eapply Forall_impl; [exact Hm2|]. intros c Hc ->. by vm_compute in Hc.
Qed.

(** What follows an emphasis does not begin with a star or an
    underscore. *)
Lemma inline_spans_run it items :
  Forall inline_ok items →
  match it, items with Emph _ _ _, Emph _ _ _ :: _ => False | _, _ => True end →
  (∃ m1 text m2, it = Emph m1 text m2) →
  run is_marker (flat_map inline_spans items) = O.
Proof.
  intros Hall Hapart (m1 & text & m2 & ->). destruct Hall as [|it' items Hit _]; [done|].
  cbn [flat_map]. destruct Hit as (Hne & Ht & _).
  destruct it' as [text'|text' url|text'|m1' text' m2']; [| | |done];
    cbn [inline_spans inline_text] in *;
    (destruct Ht as [|c text'' Hc _]; [done|]);
    apply is_text_spec in Hc as (_ & _ & _ & Hc); simpl; by rewrite Hc.
Qed.

(** The step of the emphasis. *)
Lemma clean_emphasis items i :
  Forall inline_ok items → emph_apart items →
  replace_all_from emphasis_re [Ref 1] 0 i (flat_map inline_spans items) =
    flat_map inline_text items.
Proof.
  intros Hall. revert i. induction Hall as [|it items Hit Hall IH]; intros i Hapart.
  - apply (replace_all_from_nil _ _ _ _ match_at_emphasis_re_head).
  - cbn [flat_map]. destruct Hapart as [Hnext Hapart].
    assert (∀ c, is_text c = true → ¬ is_marker c = true) as Htext.
    { intros c (_ & _ & _ & Hc)%is_text_spec. congruence. }
    pose proof (inline_ok_text it _ Hit Htext) as Hinert.
    destruct it as [text|text url|text|m1 text m2]; cbn [inline_spans inline_text] in *;
      try (rewrite (replace_all_from_prefix _ _ _ _ _ _ match_at_emphasis_re_head Hinert);
           by rewrite IH).
    destruct Hit as (Hne & Ht & Hm1 & Hl1 & Hm2 & Hl2).
    destruct m1 as [|c m1]; [simpl in Hl1; lia|]. cbn [app].
    rewrite (replace_all_from_match _ _ _ _ _ _ {[ 1%nat := text ]}).
    + by rewrite expand_Ref_1, IH.
    + rewrite <- !app_assoc.
      change (c :: m1 ++ text ++ m2 ++ flat_map inline_spans items)
        with ((c :: m1) ++ text ++ m2 ++ flat_map inline_spans items).
      rewrite match_at_emphasis_re_span; try done.
      * do 3 f_equal. rewrite !length_app. simpl. lia.
      * eapply Forall_impl; [exact Ht|]. intros c' (_ & _ & _ & Hc)%is_text_spec.
        unfold not_marker. by rewrite Hc.
      * apply (inline_spans_run (Emph (c :: m1) text m2)); [done|exact Hnext|eauto].
Qed.

Lemma cleanMarkdown_inline items :
  Forall inline_ok items → emph_apart items →
  cleanMarkdown (flat_map inline_src items) = flat_map inline_text items.
Proof.
  intros Hall Hapart. unfold cleanMarkdown, replace_all.
  rewrite clean_links by done.
  rewrite (replace_all_from_id image_re _ (λ c, c = cu "]"));
    [|apply match_at_image_re|by intros c Hc%(inline_links_no_bracket items Hall)].
  rewrite clean_spans by done. by apply clean_emphasis.
Qed.

(** X27. [cleanMarkdown] on a text made of several constructs: for a
    sequence of plain texts, links, code spans and emphases, whose texts
    are not empty and have no bracket, backquote, star or underscore, and
    where no emphasis directly follows another one, the result is the
    concatenation of the texts: the four steps do not disturb each
    other. *)
Theorem X27_cleanMarkdown_inline items :
  Forall inline_ok items → emph_apart items →
  cleanMarkdown (flat_map inline_src items) = flat_map inline_text items.
Proof. intros Hall Hapart. by apply cleanMarkdown_inline. Qed.

Lemma X27_cleanMarkdown_inline_witness :
  cleanMarkdown (js "Use **npm** and `yarn` (see [the docs](http://x/y)) _now_") =
    js "Use npm and yarn (see the docs) now".
Proof.
  apply (X27_cleanMarkdown_inline
           [ Plain (js "Use "); Emph (js "**") (js "npm") (js "**"); Plain (js " and ");
             Code (js "yarn"); Plain (js " (see "); Link (js "the docs") (js "http://x/y");
             Plain (js ") "); Emph (js "_") (js "now") (js "_") ]).
  - repeat (apply Forall_cons; split;
              [unfold inline_ok; simpl; split_and!; try done; try lia; by repeat constructor|]).
    constructor.
  - simpl. done.
Defined.

(** ** Titles and contents are trimmed *)

Lemma pushSection_Forall (P : DocSection.t → Prop) st :
  (∀ i h body, P (block_section i h body)) →
  Forall P (sections st) → Forall P (sections (pushSection st)).
Proof.
  intros HP Hss. unfold pushSection. destruct (_ || _); [|done]. simpl.
  apply Forall_app. split; [done|]. constructor; [|done].
  apply (HP (sectionIndex st) (currentTitle st) (currentContentLines st)).
Qed.

Lemma split_loop_Forall (P : DocSection.t → Prop) lines st :
  (∀ i h body, P (block_section i h body)) →
  Forall P (sections st) → Forall P (sections (foldl split_line st lines)).
Proof.
  intros HP. revert st. induction lines as [|line lines IH]; intros st Hss; simpl; [done|].
  apply IH. unfold split_line. destruct (test h1_re line); [|done]. simpl.
  destruct (_ || _); [by apply pushSection_Forall|done].
Qed.

(** Every section returned is the section of a heading text and of
    lines of the document. *)
Lemma parseMarkdownByH1_Forall (P : DocSection.t → Prop) text :
  (∀ i h body, P (block_section i h body)) → Forall P (parseMarkdownByH1 text).
Proof.
  intros HP. assert (Forall P (collect text)) as Hall.
  { unfold collect. apply pushSection_Forall, split_loop_Forall; done. }
  unfold parseMarkdownByH1. destruct (drops_first (collect text)); [|done].
  destruct (collect text); [done|]. by apply Forall_cons in Hall as [_ ?].
Qed.

(** X28. Titles and contents are trimmed: [trim] changes neither the
    title nor the content of a section of [parseMarkdownByH1], nor the
    title of an entry of [parseTOC]. *)
Theorem X28_fields_trimmed lowercase_mapping text :
  Forall (λ s, trim (DocSection.title s) = DocSection.title s ∧
               trim (DocSection.content s) = DocSection.content s)
    (parseMarkdownByH1 text) ∧
  Forall (λ it, trim (TocItem.title it) = TocItem.title it) (parseTOC lowercase_mapping text).
Proof.
  split.
  - apply parseMarkdownByH1_Forall. intros i h body. simpl. split; apply trim_idempotent.
  - apply Forall_forall. intros it Hit.
    assert ((TocItem.level it, TocItem.title it) ∈ omap headingOf (split LF text)) as Hin.
    { rewrite <- (parseTOC_headings lowercase_mapping).
      by apply (list_elem_of_fmap_2 (λ it, (TocItem.level it, TocItem.title it))). }
    apply list_elem_of_omap in Hin as (line & _ & Hh).
    apply headingOf_Some in Hh as (_ & _ & ->). apply trim_idempotent.
Qed.

(** ** The date in the name of the downloaded file *)

Lemma uint_digits_digit u : Forall (λ c, is_digit c = true) (uint_digits u).
Proof. induction u; simpl; by constructor. Qed.

(** A number from 10 on has two digits at least. *)
Lemma number_to_string_length n : (10 ≤ n)%nat → (2 ≤ length (number_to_string n))%nat.
Proof.
  intros Hn. unfold number_to_string. pose proof (Unsigned.of_to n) as Hof.
  destruct (Nat.to_uint n) as [|u|u|u|u|u|u|u|u|u|u]; [vm_compute in Hof; lia|..];
    (destruct u; [vm_compute in Hof; lia|simpl; lia..]).
Qed.

(** A number below 100 has one or two digits. *)
Lemma number_to_string_short n :
  (n < 100)%nat → (1 ≤ length (number_to_string n) ≤ 2)%nat.
Proof.
  intros Hn.
  assert (forallb (λ n, (1 <=? length (number_to_string n))%nat
                        && (length (number_to_string n) <=? 2)%nat) (seq 0 100) = true)
    as Hall by (by vm_compute).
  rewrite forallb_forall in Hall. specialize (Hall n).
  rewrite in_seq, andb_true_iff, Nat.leb_le, Nat.leb_le in Hall. apply Hall. lia.
Qed.

Lemma padStart_two n :
  (n < 100)%nat →
  length (padStart 2 "0" (number_to_string n)) = 2%nat ∧
  Forall (λ c, is_digit c = true) (padStart 2 "0" (number_to_string n)).
Proof.
  intros Hn. pose proof (number_to_string_short n Hn) as Hlen. unfold padStart. split.
  - rewrite length_app, length_replicate. lia.
  - apply Forall_app. split; [by apply Forall_replicate|apply uint_digits_digit].
Qed.

Lemma slice_end_two n :
  (10 ≤ n)%nat →
  length (slice_end 2 (number_to_string n)) = 2%nat ∧
  Forall (λ c, is_digit c = true) (slice_end 2 (number_to_string n)).
Proof.
  intros Hn. pose proof (number_to_string_length n Hn) as Hlen. unfold slice_end. split.
  - rewrite length_drop. lia.
  - apply Forall_drop, uint_digits_digit.
Qed.

(** X29. The date in the name of the downloaded file has the form
    YYMMDD-HHMM: for a date of the calendar from the year 10 on,
    [dateTime] is six digits, a hyphen and four digits. *)
Theorem X29_dateTime_format now :
  date_ok now →
  ∃ date time,
    dateTime now = date ++ js "-" ++ time ∧
    length date = 6%nat ∧ Forall (λ c, is_digit c = true) date ∧
    length time = 4%nat ∧ Forall (λ c, is_digit c = true) time.
Proof.
  intros (Hy & Hm & Hd & Hh & Hmin). unfold dateTime. cbv zeta.
  destruct (slice_end_two (getUTCFullYear now) Hy) as [Ly Dy].
  destruct (padStart_two (getUTCMonth now + 1)) as [Lm Dm]; [lia|].
  destruct (padStart_two (getUTCDate now)) as [Ld Dd]; [lia|].
  destruct (padStart_two (getUTCHours now)) as [Lh Dh]; [lia|].
  destruct (padStart_two (getUTCMinutes now)) as [Ln Dn]; [lia|].
  exists (slice_end 2 (number_to_string (getUTCFullYear now)) ++
          padStart 2 "0" (number_to_string (getUTCMonth now + 1)) ++
          padStart 2 "0" (number_to_string (getUTCDate now))),
         (padStart 2 "0" (number_to_string (getUTCHours now)) ++
          padStart 2 "0" (number_to_string (getUTCMinutes now))).
  split; [by rewrite <- !app_assoc|].
  rewrite !length_app, !Forall_app, Ly, Lm, Ld, Lh, Ln. done.
Qed.

Lemma X29_dateTime_format_witness :
  ∃ date time,
    dateTime {| getUTCFullYear := 2026; getUTCMonth := 10; getUTCDate := 2;
                getUTCHours := 9; getUTCMinutes := 5 |} = date ++ js "-" ++ time ∧
    length date = 6%nat ∧ Forall (λ c, is_digit c = true) date ∧
    length time = 4%nat ∧ Forall (λ c, is_digit c = true) time.
Proof. apply X29_dateTime_format. unfold date_ok. simpl. lia. Defined.

(** ** Underscores inside a word *)

(** [slugify] on an ASCII word of the characters it keeps. *)
Lemma slugify_word lowercase_mapping w :
  ascii_rows lowercase_mapping → Forall (λ c, is_slug_ascii c = true) w →
  slugify lowercase_mapping w = ascii_lower <$> w.
Proof.
  intros Hrows Hw. rewrite slugify_steps, toLowerCase_ascii; [|done|].
  - pose proof (ascii_lower_slug w Hw) as HW.
    rewrite trim_id, collapse_id by (by apply slug_ascii_no_space).
    by apply filter_slug_id, slug_ascii_slug.
  - eapply is_ascii_Forall; [|exact Hw]. intros c Hc. by apply is_slug_ascii_spec.
Qed.

Lemma is_alnum_spec c :
  is_alnum c = true → is_text c = true ∧ is_slug_ascii c = true.
Proof.
  unfold is_alnum, is_text, is_plain, is_slug_ascii. intros [Hw Hu]%andb_true_iff.
  rewrite Hw. split; [|done]. apply negb_true_iff, Z.eqb_neq in Hu.
  unfold is_word in Hw. unfold is_marker.
  change (cu "]") with 93. change (cu "`") with 96. change (cu "*") with 42.
  change (cu "_") with 95 in *. change (cu "[") with 91.
  bool_hyps; decide_cmp; done.
Qed.

(** X30. Underscores inside a word are taken for emphasis: for a text
    [a_b_c] of three ASCII words of letters and digits, the raw slug of
    [parseTOC], [slugify (cleanMarkdown text)], is the three words in
    lower case without the underscores, where [getUniqueId] of the
    renderer keeps them on the same text; the two ids differ. *)
Theorem X30_underscores_in_words lowercase_mapping a b c :
  ascii_rows lowercase_mapping →
  a ≠ [] → b ≠ [] → c ≠ [] →
  Forall (λ x, is_alnum x = true) a → Forall (λ x, is_alnum x = true) b →
  Forall (λ x, is_alnum x = true) c →
  let text := a ++ js "_" ++ b ++ js "_" ++ c in
  slugify lowercase_mapping (cleanMarkdown text) = ascii_lower <$> (a ++ b ++ c) ∧
  (getUniqueId lowercase_mapping text ∅).1 = ascii_lower <$> text ∧
  slugify lowercase_mapping (cleanMarkdown text) ≠ (getUniqueId lowercase_mapping text ∅).1.
Proof.
  intros Hrows Hane Hbne Hcne Ha Hb Hc text.
  assert (∀ l, Forall (λ x, is_alnum x = true) l →
               Forall (λ x, is_text x = true) l ∧ Forall (λ x, is_slug_ascii x = true) l) as Hl.
  { intros l Hall. split; (eapply Forall_impl; [exact Hall|]); by intros x [??]%is_alnum_spec. }
  destruct (Hl a Ha) as [Ta Sa]. destruct (Hl b Hb) as [Tb Sb]. destruct (Hl c Hc) as [Tc Sc].
  assert (cleanMarkdown text = a ++ b ++ c) as Hclean.
  { assert (text = flat_map inline_src [Plain a; Emph (js "_") b (js "_"); Plain c]) as ->.
    { subst text. cbn [flat_map inline_src]. by rewrite app_nil_r, <- !app_assoc. }
    rewrite cleanMarkdown_inline.
    - simpl. by rewrite app_nil_r.
    - repeat constructor; simpl; try done; lia.
    - simpl. done. }
  assert (slugify lowercase_mapping (cleanMarkdown text) = ascii_lower <$> (a ++ b ++ c)) as H1.
  { rewrite Hclean. apply slugify_word; [done|]. by rewrite !Forall_app. }
  assert ((getUniqueId lowercase_mapping text ∅).1 = ascii_lower <$> text) as H2.
  { unfold getUniqueId. rewrite lookup_empty. simpl. apply slugify_word; [done|].
    subst text. rewrite !Forall_app. split_and!; try done; by repeat constructor. }
  split_and!; [done|done|]. rewrite H1, H2. intros Heq. apply (f_equal length) in Heq.
  subst text. rewrite !length_fmap, !length_app in Heq. simpl in Heq. lia.
Qed.

Lemma X30_underscores_in_words_witness :
  slugify basic_lowercase (cleanMarkdown (js "my" ++ js "_" ++ js "var" ++ js "_" ++ js "name")) =
    js "myvarname" ∧
  (getUniqueId basic_lowercase (js "my" ++ js "_" ++ js "var" ++ js "_" ++ js "name") ∅).1 =
    js "my_var_name".
Proof.
  destruct (X30_underscores_in_words basic_lowercase (js "my") (js "var") (js "name"))
    as (H1 & H2 & _); try done; try (by repeat constructor).
  apply basic_lowercase_ascii_rows.
Defined.

(** * The ids of the table of contents and of the renderer *)

(** The table of contents of a text of one heading line. *)
Lemma parseTOC_line lowercase_mapping line k title :
  LF ∉ line → headingOf line = Some (k, title) →
  parseTOC lowercase_mapping line =
    [ {| TocItem.id := slugify lowercase_mapping (cleanMarkdown title);
         TocItem.title := title; TocItem.level := k |} ].
Proof.
  intros Hlf Hh. unfold parseTOC. rewrite split_no_sep by done. cbn [foldl].
  unfold toc_line, headingOf in *.
  destruct (exec headerRegex line) as [[[i len] m]|]; [|done].
  injection Hh as <- <-. by rewrite lookup_empty.
Qed.

Lemma inline_src_nonempty it : inline_ok it → inline_src it ≠ [].
Proof.
  intros (Hne & _ & Hit).
  destruct it as [text|text url|text|m1 text m2]; cbn [inline_src inline_text] in *;
    [done|done|done|].
  destruct m1; [simpl in Hit; lia|done].
Qed.

(** The ids of a heading whose text is a sequence of inline constructs:
    both are the slug of the rendered text. *)
Lemma heading_ids_inline lowercase_mapping k items :
  (1 ≤ k ≤ 3)%nat → items ≠ [] → Forall inline_ok items → emph_apart items →
  Forall (λ c, dot c = true) (flat_map inline_src items) →
  trim (flat_map inline_src items) = flat_map inline_src items →
  parseTOC lowercase_mapping (replicate k (cu "#") ++ js " " ++ flat_map inline_src items) =
    [ {| TocItem.id := slugify lowercase_mapping (flat_map inline_text items);
         TocItem.title := flat_map inline_src items; TocItem.level := k |} ] ∧
  (getUniqueId lowercase_mapping (flat_map inline_text items) ∅).1 =
    slugify lowercase_mapping (flat_map inline_text items).
Proof.
  intros Hk Hne Hall Hapart Hdot Htrim. split; [|by unfold getUniqueId; rewrite lookup_empty].
  set (src := flat_map inline_src items) in *.
  assert (src ≠ []) as Hsrc.
  { subst src. destruct Hall as [|it items Hit _]; [done|]. cbn [flat_map].
    apply inline_src_nonempty in Hit. by destruct (inline_src it). }
  rewrite (parseTOC_line _ _ k src).
  - subst src. by rewrite cleanMarkdown_inline.
  - rewrite !not_elem_of_app. split_and!.
    + intros [Hc _]%elem_of_replicate. by vm_compute in Hc.
    + intros Hc%list_elem_of_In. vm_compute in Hc. intuition lia.
    + intros Hc. rewrite Forall_forall in Hdot. apply Hdot in Hc. by vm_compute in Hc.
  - rewrite (heading_line_headingOf k); [|done|].
    2:{ exists (js " "), src. split_and!; try done. by repeat constructor. }
    rewrite drop_app_length' by (by rewrite length_replicate).
    by rewrite (trim_spaces (js " ")), Htrim by (by repeat constructor).
Qed.

(** C1. Cross-pipeline id agreement fails on the code.  What holds: for
    a heading line whose text [src] is a sequence of plain texts, links,
    code spans and emphases, with texts free of bracket, backquote, star
    and underscore and no emphasis directly after another, the id of
    [parseTOC] ([cleanMarkdown] then [slugify]) and the id [getUniqueId]
    gives the rendered text, from a fresh [slugCounts], are both the slug
    of the rendered text; for [Getting *Started*] both are
    [getting-started].  But an underscore in the text of an emphasis is
    taken for its closing marker: for the heading [# *foo_bar*], rendered
    as [foo_bar], [cleanMarkdown] leaves [foobar*] and [parseTOC] gives
    the id [foobar], where [getUniqueId] gives [foo_bar]. *)
Theorem C1_cross_pipeline_id :
  (∀ lowercase_mapping k items,
     (1 ≤ k ≤ 3)%nat → items ≠ [] → Forall inline_ok items → emph_apart items →
     Forall (λ c, dot c = true) (flat_map inline_src items) →
     trim (flat_map inline_src items) = flat_map inline_src items →
     parseTOC lowercase_mapping (replicate k (cu "#") ++ js " " ++ flat_map inline_src items) =
       [ {| TocItem.id := slugify lowercase_mapping (flat_map inline_text items);
            TocItem.title := flat_map inline_src items; TocItem.level := k |} ] ∧
     (getUniqueId lowercase_mapping (flat_map inline_text items) ∅).1 =
       slugify lowercase_mapping (flat_map inline_text items)) ∧
  (∀ lowercase_mapping,
     ascii_rows lowercase_mapping →
     TocItem.id <$> parseTOC lowercase_mapping (js "# Getting *Started*") =
       [js "getting-started"] ∧
     slugify lowercase_mapping (cleanMarkdown (js "Getting *Started*")) = js "getting-started" ∧
     (getUniqueId lowercase_mapping (js "Getting Started") ∅).1 = js "getting-started") ∧
  flat_map inline_src [Emph (js "*") (js "foo_bar") (js "*")] = js "*foo_bar*" ∧
  flat_map inline_text [Emph (js "*") (js "foo_bar") (js "*")] = js "foo_bar" ∧
  cleanMarkdown (js "*foo_bar*") = js "foobar*" ∧
  (∀ lowercase_mapping,
     ascii_rows lowercase_mapping →
     TocItem.id <$> parseTOC lowercase_mapping (js "# *foo_bar*") = [js "foobar"] ∧
     (getUniqueId lowercase_mapping (js "foo_bar") ∅).1 = js "foo_bar" ∧
     TocItem.id <$> parseTOC lowercase_mapping (js "# *foo_bar*") ≠
       [(getUniqueId lowercase_mapping (js "foo_bar") ∅).1]).
Proof.
  split; [intros tbl k items; apply heading_ids_inline|].
  split.
  { intros tbl Hrows.
    rewrite parseTOC_ascii, slugify_ascii, getUniqueId_ascii
      by (assumption || (vm_compute; reflexivity)).
    vm_compute. done. }
  split; [by vm_compute|]. split; [by vm_compute|]. split; [by vm_compute|].
  intros tbl Hrows.
  rewrite parseTOC_ascii, getUniqueId_ascii by (assumption || (vm_compute; reflexivity)).
  vm_compute. done.
Qed.

Lemma C1_cross_pipeline_id_witness :
  ascii_rows basic_lowercase ∧
  parseTOC basic_lowercase (js "# Getting *Started*") =
    [ {| TocItem.id := js "getting-started"; TocItem.title := js "Getting *Started*";
         TocItem.level := 1 |} ] ∧
  (getUniqueId basic_lowercase (js "Getting Started") ∅).1 = js "getting-started" ∧
  TocItem.id <$> parseTOC basic_lowercase (js "# *foo_bar*") = [js "foobar"] ∧
  (getUniqueId basic_lowercase (js "foo_bar") ∅).1 = js "foo_bar".
Proof.
  destruct C1_cross_pipeline_id as (Hagree & _ & _ & _ & _ & Hfail).
  destruct (Hagree basic_lowercase 1%nat
              [Plain (js "Getting "); Emph (js "*") (js "Started") (js "*")])
    as [Htoc Hid].
  - lia.
  - done.
  - repeat (apply Forall_cons; split;
              [unfold inline_ok; simpl; split_and!; try done; try lia; by repeat constructor|]).
    constructor.
  - simpl. done.
  - by repeat constructor.
  - reflexivity.
  - destruct (Hfail basic_lowercase basic_lowercase_ascii_rows) as (Hf1 & Hf2 & _).
    split; [apply basic_lowercase_ascii_rows|]. split; [exact Htoc|].
    split; [exact Hid|]. split; [exact Hf1|exact Hf2].
Defined.
